(** * voxeling: the horizontal-merge mesher and the client worker

    A shallow embedding of [src/lib/meshers/horizontal-merge.js] and of the
    chunk bookkeeping of [src/client-worker.js], with the properties of the
    specification stated and proved about it.

    Conventions of the embedding:
    - JavaScript objects used as sets or maps of chunk identifiers are
      [gset string] and [gmap string _]; the mesher's [out] object, keyed by
      texture value, is a [gmap Z _];
    - arrays read by index are lists, an index out of range reads
      [None] (JavaScript's [undefined]); a typed array written out of
      range is left unchanged, which is what the list insert does;
    - a [TypeError] raised by a property read on [undefined] is the [None]
      of the mesher's state monad. *)

From Stdlib Require Import ZArith List Lia.
From stdpp Require Import gmap strings list fin_maps pretty.

Local Open Scope Z_scope.

Set Warnings "-clear-no-such-hyp".

(** ** Data shared by the mesher and the worker *)

Definition Position : Type := Z * Z * Z.

(** The chunk cache maps a chunk identifier to [{chunkID, position, voxels}]. *)
Module ChunkCache.

Record Chunk := mkChunk {
  chunkID : string;
  position : Position;
  voxels : list Z
}.

End ChunkCache.

(** [voxels[index]]: [None] is [undefined]. *)
Definition voxelAt (vs : list Z) (index : Z) : option Z :=
  if index <? 0 then None else vs !! Z.to_nat index.

Inductive Face := Front | Back | Left | Right | Top | Bottom.

#[global] Instance Face_eq_dec : EqDecision Face.
Proof. solve_decision. Defined.

(** The coordinate helper handed to [config]; [lib/coordinates] is not
    among the sources, so its two functions are fields to be supplied. *)
Record Coordinator := mkCoordinator {
  coordinatesToChunkID : Z → Z → Z → string;
  coordinatesToVoxelIndex : Z → Z → Z → Z
}.

(** A state monad with failure: [None] is an uncaught exception. *)
Definition M (S A : Type) : Type := S → option (A * S).

Definition ret {S A} (a : A) : M S A := λ s, Some (a, s).

Definition bind {S A B} (m : M S A) (k : A → M S B) : M S B :=
  λ s, match m s with
       | Some (a, s') => k a s'
       | None => None
       end.

Definition throw {S A} : M S A := λ _, None.

Notation "x <~ m ;; k" := (bind m (λ x, k))
  (at level 100, m at next level, right associativity).
Notation "m ;;; k" := (bind m (λ _, k))
  (at level 100, right associativity).

Fixpoint foldM {S A B} (f : A → B → M S A) (l : list B) (a : A) : M S A :=
  match l with
  | [] => ret a
  | b :: l' => a' <~ f a b ;; foldM f l' a'
  end.

(** ** horizontal-merge.js *)

Module Mesher.

(** *** Occlusion *)

(** [opposingVoxelValue] may be [undefined]; every comparison with
    [undefined] is false. *)
Definition shouldSkipFace (currentVoxelValue : Z) (opposingVoxelValue : option Z) : bool :=
  match opposingVoxelValue with
  | Some 0 => false
  | _ =>
    if currentVoxelValue <? 100 then
      match opposingVoxelValue with
      | Some o => if 99 <? o then false else true
      | None => true
      end
    else
      match opposingVoxelValue with
      | Some o => if 0 <? o then true else false
      | None => false
      end
  end.

(** Coordinates of the opposing block face. *)
Definition opposing (face : Face) (x y z : Z) : Position :=
  match face with
  | Front => (x, y, z - 1)
  | Back => (x, y, z + 1)
  | Left => (x - 1, y, z)
  | Right => (x + 1, y, z)
  | Top => (x, y + 1, z)
  | Bottom => (x, y - 1, z)
  end.

(** The test [x < 0 || x >= chunkSize || ...] of [isFaceBlocked]. *)
Definition outsideChunk (chunkSize : Z) (p : Position) : bool :=
  let '(x, y, z) := p in
  (x <? 0) || (chunkSize <=? x) || (y <? 0) || (chunkSize <=? y)
  || (z <? 0) || (chunkSize <=? z).

Definition isFaceBlocked (coordinator : Coordinator)
    (chunkCache : gmap string ChunkCache.Chunk)
    (basePosition : Position) (vs : list Z) (chunkSize : Z)
    (face : Face) (x y z : Z) (currentVoxelValue : Z) : bool :=
  let '(x, y, z) := opposing face x y z in
  if outsideChunk chunkSize (x, y, z) then
    let '(bx, by_, bz) := basePosition in
    let x := x + bx in
    let y := y + by_ in
    let z := z + bz in
    let opposingChunkID := coordinatesToChunkID coordinator x y z in
    let opposingIndex := coordinatesToVoxelIndex coordinator x y z in
    match chunkCache !! opposingChunkID with
    | Some opposingChunk =>
        shouldSkipFace currentVoxelValue
          (voxelAt (ChunkCache.voxels opposingChunk) opposingIndex)
    | None => false
    end
  else
    let index := coordinatesToVoxelIndex coordinator x y z in
    shouldSkipFace currentVoxelValue (voxelAt vs index).

(** *** Configuration and output *)

(** [config.voxels[v].textures]: the six texture values of a material, in
    the order of [faceIndex]. *)
Record Textures := mkTextures {
  texTop : Z; texFront : Z; texLeft : Z; texBack : Z; texRight : Z; texBottom : Z
}.

Definition faceIndex (face : Face) : nat :=
  match face with
  | Top => 0 | Front => 1 | Left => 2 | Back => 3 | Right => 4 | Bottom => 5
  end%nat.

(** [textures[i]] for [i] in [0..5]. *)
Definition textureAt (t : Textures) (i : nat) : Z :=
  match i with
  | 0 => texTop t | 1 => texFront t | 2 => texLeft t
  | 3 => texBack t | 4 => texRight t | _ => texBottom t
  end%nat.

(** The module globals set by [config(cs, voxToTex, texOffsets,
    coordinatorHandle, cache)].  [fl] is the element type of the float32
    buffers; a texture offset entry is [[bottom, top, right]]. *)
Record Config (fl : Type) := mkConfig {
  chunkSize : nat;
  voxelsToTextures : gmap Z Textures;
  textureOffsets : gmap Z (fl * fl * fl);
  Coordinator_ : Coordinator;
  chunkCache : gmap string ChunkCache.Chunk
}.
Arguments chunkSize {fl} _.
Arguments voxelsToTextures {fl} _.
Arguments textureOffsets {fl} _.
Arguments Coordinator_ {fl} _.
Arguments chunkCache {fl} _.

(** One growing buffer [{offset, data}]. *)
Record Buffer (fl : Type) := mkBuffer {
  offset : nat;
  data : list fl
}.
Arguments mkBuffer {fl} _ _.
Arguments offset {fl} _.
Arguments data {fl} _.

Record TextureMesh (fl : Type) := mkTextureMesh {
  position : Buffer fl;
  texcoord : Buffer fl;
  normal : Buffer fl
}.
Arguments mkTextureMesh {fl} _ _ _.
Arguments position {fl} _.
Arguments texcoord {fl} _.
Arguments normal {fl} _.

(** What a mesh pass writes: the global [out], the state of the buffer
    pool, and the lines printed with [console.log] (latest last). *)
Record Globals (fl Pool : Type) := mkGlobals {
  out : gmap Z (TextureMesh fl);
  pool : Pool;
  console : list string
}.
Arguments mkGlobals {fl Pool} _ _ _.
Arguments out {fl Pool} _.
Arguments pool {fl Pool} _.
Arguments console {fl Pool} _.

(** A run accumulator [{textureValue, start, end}]. *)
Record Run := mkRun {
  textureValue : Z;
  start : Position;
  end_ : Position
}.

(** The [adjacent] object: its faces in property order, each [null] or a run. *)
Definition Adjacent : Type := list (Face * option Run).

Definition bufferSize : nat := Z.to_nat 128000.

(** [data[offset++] = v]. *)
Definition push {fl} (b : Buffer fl) (v : fl) : Buffer fl :=
  mkBuffer (S (offset b)) (<[offset b := v]> (data b)).

Definition pushAll {fl} (b : Buffer fl) (vs : list fl) : Buffer fl :=
  foldl push b vs.

(** The 18 position values of a face, in the order written. *)
Definition facePoints (face : Face) (startX startY startZ endX endY endZ : Z) : list Z :=
  match face with
  | Back =>
      [ startX; startY; startZ + 1;
        endX + 1; startY; startZ + 1;
        endX + 1; endY + 1; startZ + 1;
        startX; startY; startZ + 1;
        endX + 1; endY + 1; startZ + 1;
        startX; endY + 1; startZ + 1 ]
  | Front =>
      [ endX + 1; startY; startZ;
        startX; startY; startZ;
        startX; endY + 1; startZ;
        endX + 1; startY; startZ;
        startX; endY + 1; startZ;
        endX + 1; endY + 1; startZ ]
  | Left =>
      [ startX; startY; startZ;
        startX; startY; endZ + 1;
        startX; endY + 1; endZ + 1;
        startX; startY; startZ;
        startX; endY + 1; endZ + 1;
        startX; startY + 1; startZ ]
  | Right =>
      [ startX + 1; startY; endZ + 1;
        startX + 1; startY; startZ;
        startX + 1; startY + 1; startZ;
        startX + 1; startY; endZ + 1;
        startX + 1; startY + 1; startZ;
        startX + 1; endY + 1; endZ + 1 ]
  | Top =>
      [ startX; startY + 1; endZ + 1;
        endX + 1; startY + 1; endZ + 1;
        endX + 1; startY + 1; startZ;
        startX; startY + 1; endZ + 1;
        endX + 1; startY + 1; startZ;
        startX; startY + 1; startZ ]
  | Bottom =>
      [ startX; startY; startZ;
        endX + 1; startY; startZ;
        endX + 1; startY; endZ + 1;
        startX; startY; startZ;
        endX + 1; startY; endZ + 1;
        startX; startY; endZ + 1 ]
  end.

(** The 18 normal values of a face. *)
Definition faceNormals (face : Face) : list Z :=
  let n :=
    match face with
    | Back => [0; 0; 1]
    | Front => [0; 0; -1]
    | Left => [-1; 0; 0]
    | Right => [1; 0; 0]
    | Top => [0; 1; 0]
    | Bottom => [0; -1; 0]
    end in
  n ++ n ++ n ++ n ++ n ++ n.

Section Mesh.
Context {fl : Type} (ofZ : Z → fl).
Context {Pool : Type} (malloc : nat → Pool → list fl * Pool).
Context (cfg : Config fl).

(** The 12 texture coordinates of a face, in the order written. *)
Definition faceTexcoords (face : Face) (offsets : fl * fl * fl)
    (startX startY startZ endX endY endZ : Z) : list fl :=
  let '(textureBottom, textureTop, textureRight) := offsets in
  let quad (u v : Z) : list fl :=
    map ofZ [ 0; 0; u; 0; u; v; 0; 0; u; v; 0; v ] in
  match face with
  | Back =>
      [ ofZ 0; textureBottom; ofZ 1; textureBottom; ofZ 1; textureTop;
        ofZ 0; textureTop; ofZ 1; textureTop; ofZ 0; textureRight ]
  | Front => quad (endX - startX + 1) (endY - startY + 1)
  | Left => quad (endZ - startZ + 1) (endY - startY + 1)
  | Right => quad (endZ - startZ + 1) (endY - startY + 1)
  | Top => quad (endX - startX + 1) (endZ - startZ + 1)
  | Bottom => quad (endX - startX + 1) (endZ - startZ + 1)
  end.

Definition Mg : Type → Type := M (Globals fl Pool).

(** [console.log(line)]. *)
Definition log (line : string) : Mg unit :=
  λ g, Some (tt, mkGlobals (out g) (pool g) (console g ++ [line])).

(** [out[textureValue]], created from three pool buffers when absent. *)
Definition textureMeshOf (textureValue : Z) : Mg (TextureMesh fl) :=
  λ g,
    match out g !! textureValue with
    | Some tm => Some (tm, g)
    | None =>
        let '(d1, p1) := malloc bufferSize (pool g) in
        let '(d2, p2) := malloc bufferSize p1 in
        let '(d3, p3) := malloc bufferSize p2 in
        let tm := mkTextureMesh (mkBuffer 0 d1) (mkBuffer 0 d2) (mkBuffer 0 d3) in
        Some (tm, mkGlobals (<[textureValue := tm]> (out g)) p3 (console g))
    end.

(** [textureOffsets[textureValue]]; reading [[0]] of a missing entry throws
    (the line logged just before is lost with the state). *)
Definition offsetsOf (textureValue : Z) : Mg (fl * fl * fl) :=
  match textureOffsets cfg !! textureValue with
  | Some o => ret o
  | None => throw
  end.

Definition storeTextureMesh (textureValue : Z) (tm : TextureMesh fl) : Mg unit :=
  λ g, Some (tt, mkGlobals (<[textureValue := tm]> (out g)) (pool g) (console g)).

Definition addFace (basePosition : Position) (face : Face) (info : Run) : Mg unit :=
  let textureValue := textureValue info in
  let '(b0, b1, b2) := basePosition in
  let '(s0, s1, s2) := start info in
  let '(e0, e1, e2) := end_ info in
  let startX := b0 + s0 in
  let startY := b1 + s1 in
  let startZ := b2 + s2 in
  let endX := b0 + e0 in
  let endY := b1 + e1 in
  let endZ := b2 + e2 in
  tm <~ textureMeshOf textureValue ;;
  offsets <~ offsetsOf textureValue ;;
  storeTextureMesh textureValue
    (mkTextureMesh
       (pushAll (position tm)
          (map ofZ (facePoints face startX startY startZ endX endY endZ)))
       (pushAll (texcoord tm)
          (faceTexcoords face offsets startX startY startZ endX endY endZ))
       (pushAll (normal tm) (map ofZ (faceNormals face)))).

Fixpoint addFaces (basePosition : Position) (current : Adjacent) : Mg unit :=
  match current with
  | [] => ret tt
  | (face, Some info) :: rest =>
      addFace basePosition face info ;;; addFaces basePosition rest
  | (_, None) :: rest => addFaces basePosition rest
  end.

Definition resetFaces (current : Adjacent) : Adjacent :=
  map (λ e, (fst e, None)) current.

(** *** The sweep *)

(** [voxelTextureValue] after the test
    [!(voxelTextureValue in voxelsToTextures)], which falls back to 3. *)
Definition materialOf (v : option Z) : Mg Z :=
  match v with
  | Some v =>
      if decide (v ∈ dom (voxelsToTextures cfg)) then ret v
      else log "falling back to 3" ;;; ret 3
  | None => log "falling back to 3" ;;; ret 3
  end.

(** [voxelsToTextures[voxelTextureValue].textures[faceIndex(face)]]. *)
Definition faceTextureOf (voxelTextureValue : Z) (face : Face) : Mg Z :=
  match voxelsToTextures cfg !! voxelTextureValue with
  | Some info => ret (textureAt info (faceIndex face))
  | None => throw
  end.

Definition newRun (textureValue x y z : Z) : Run :=
  mkRun textureValue (x, y, z) (x, y, z).

(** The body of [for (var face in adjacent)] for one face. *)
Definition sweepFace (basePosition : Position) (vs : list Z)
    (voxelTextureValue : Z) (x y z : Z) (face : Face) (cur : option Run)
    : Mg (option Run) :=
  textureValue <~ faceTextureOf voxelTextureValue face ;;
  let isBlocked :=
    isFaceBlocked (Coordinator_ cfg) (chunkCache cfg) basePosition vs
      (Z.of_nat (chunkSize cfg)) face x y z textureValue in
  if isBlocked then
    match cur with
    | Some info => addFace basePosition face info ;;; ret None
    | None => ret None
    end
  else
    match cur with
    | None => ret (Some (newRun textureValue x y z))
    | Some info =>
        if Mesher.textureValue info =? textureValue then
          ret (Some (mkRun (Mesher.textureValue info) (start info) (x, y, z)))
        else
          addFace basePosition face info ;;;
          ret (Some (newRun textureValue x y z))
    end.

Fixpoint forFaces (body : Face → option Run → Mg (option Run))
    (adjacent : Adjacent) : Mg Adjacent :=
  match adjacent with
  | [] => ret []
  | (face, cur) :: rest =>
      cur' <~ body face cur ;;
      rest' <~ forFaces body rest ;;
      ret ((face, cur') :: rest')
  end.

(** The body of the innermost loop, at the cell [(x, y, z)] whose value
    [v] was read from the voxel array. *)
Definition visit (basePosition : Position) (vs : list Z) (x y z : nat)
    (v : option Z) (adjacent : Adjacent) : Mg Adjacent :=
  match v with
  | Some 0 =>
      addFaces basePosition adjacent ;;;
      ret (resetFaces adjacent)
  | _ =>
      voxelTextureValue <~ materialOf v ;;
      forFaces
        (sweepFace basePosition vs voxelTextureValue
           (Z.of_nat x) (Z.of_nat y) (Z.of_nat z))
        adjacent
  end.

(** The index read in the first pass: [index + x] with
    [index = part + z * chunkSize * chunkSize] and [part = y * chunkSize]. *)
Definition indexX (chunkSize y z x : nat) : nat :=
  let part := (y * chunkSize)%nat in
  let index := (part + z * chunkSize * chunkSize)%nat in
  (index + x)%nat.

(** The index read in the second pass: [index + z * chunkSize * chunkSize]
    with [index = part + x]. *)
Definition indexZ (chunkSize y x z : nat) : nat :=
  let part := (y * chunkSize)%nat in
  let index := (part + x)%nat in
  (index + z * chunkSize * chunkSize)%nat.

(** One [z] iteration of the first pass: a row swept along [x]. *)
Definition rowX (basePosition : Position) (vs : list Z) (y z : nat)
    (adjacent : Adjacent) : Mg Adjacent :=
  adjacent <~
    foldM (λ adjacent x,
             visit basePosition vs x y z
               (vs !! indexX (chunkSize cfg) y z x) adjacent)
          (seq 0 (chunkSize cfg)) (resetFaces adjacent) ;;
  addFaces basePosition adjacent ;;;
  ret (resetFaces adjacent).

(** One [x] iteration of the second pass: a column swept along [z]. *)
Definition rowZ (basePosition : Position) (vs : list Z) (y x : nat)
    (adjacent : Adjacent) : Mg Adjacent :=
  adjacent <~
    foldM (λ adjacent z,
             visit basePosition vs x y z
               (vs !! indexZ (chunkSize cfg) y x z) adjacent)
          (seq 0 (chunkSize cfg)) (resetFaces adjacent) ;;
  addFaces basePosition adjacent ;;;
  ret (resetFaces adjacent).

Definition adjacentX : Adjacent :=
  [ (Front, None); (Back, None); (Top, None); (Bottom, None) ].

Definition adjacentZ : Adjacent :=
  [ (Left, None); (Right, None) ].

(** One [y] iteration of [calculate]. *)
Definition slice (basePosition : Position) (vs : list Z) (y : nat) : Mg unit :=
  foldM (λ adjacent z, rowX basePosition vs y z adjacent)
        (seq 0 (chunkSize cfg)) adjacentX ;;;
  foldM (λ adjacent x, rowZ basePosition vs y x adjacent)
        (seq 0 (chunkSize cfg)) adjacentZ ;;;
  ret tt.

Definition calculate (basePosition : Position) (vs : list Z) : Mg unit :=
  foldM (λ _ y, slice basePosition vs y) (seq 0 (chunkSize cfg)) tt.

(** [mesh(position, voxels)]: the argument is [None] when absent; the
    result is [None] for [null]. *)
Definition mesh (position : Position) (vs : option (list Z))
    : Mg (option (gmap Z (TextureMesh fl))) :=
  match vs with
  | None => log "Empty voxels" ;;; ret None
  | Some [] => log "Empty voxels" ;;; ret None
  | Some vs =>
      (λ g, Some (tt, mkGlobals ∅ (pool g) (console g))) ;;;
      calculate position vs ;;;
      (λ g, Some (Some (out g), g))
  end.

End Mesh.

End Mesher.

(** ** client-worker.js *)

Module Worker.

Import ChunkCache.

(** The tracked sets of the [worker] object.  [lastWorldChunks] is the pair
    of the lower and the farther corner. *)
Record State := mkState {
  nearbyChunks : gset string;
  chunkDistances : gmap string Z;
  sentClientChunks : gset string;
  sentClientMeshes : gset string;
  missingChunks : gset string;
  requestedChunks : gset string;
  clientMissingChunks : gset string;
  clientMissingMeshes : gset string;
  lastWorldChunks : Position * Position
}.

(** One buffer of a [transfer] entry; [tuples] is [offset / 3], kept as the
    fraction, and is only set for [position]. *)
Record TransferBuffer (fl : Type) := mkTransferBuffer {
  buffer : list fl;
  offset : nat;
  offsetBytes : nat;
  tuples : option (nat * nat)
}.
Arguments mkTransferBuffer {fl} _ _ _ _.

Record Transfer (fl : Type) := mkTransfer {
  position : TransferBuffer fl;
  texcoord : TransferBuffer fl;
  normal : TransferBuffer fl
}.
Arguments mkTransfer {fl} _ _ _.

(** The messages posted to the client. *)
Inductive Message (fl : Type) :=
| chunkVoxels (chunk : Chunk)
| chunkMesh (chunkId : string) (transfer : gmap Z (Transfer fl))
| meshesToShow (chunkDistances : gmap string Z)
| nearbyChunksMessage (nearbyChunks : gset string).
Arguments chunkVoxels {fl} _.
Arguments chunkMesh {fl} _ _.
Arguments meshesToShow {fl} _.
Arguments nearbyChunksMessage {fl} _.

(** The worker, the module-level [chunkCache], the messages posted so far
    (latest last) and the fetches handed to [MaxConcurrent]. *)
Record World (fl : Type) := mkWorld {
  worker : State;
  chunkCache : gmap string Chunk;
  posted : list (Message fl);
  fetches : list (string * Position)
}.
Arguments mkWorld {fl} _ _ _ _.
Arguments worker {fl} _.
Arguments chunkCache {fl} _.
Arguments posted {fl} _.
Arguments fetches {fl} _.

Definition chunkOutOfBounds (self : State) (position : Position) : bool :=
  let '(p0, p1, p2) := position in
  let '((l0, l1, l2), (l3, l4, l5)) := lastWorldChunks self in
  if (p0 <? l0) || (p1 <? l1) || (p2 <? l2)
     || (l3 <? p0) || (l4 <? p1) || (l5 <? p2)
  then true else false.

(** The local variables of [regionChange] that replace the tracked sets. *)
Record Fresh := mkFresh {
  chunkDistances' : gmap string Z;
  sentClientChunks' : gset string;
  sentClientMeshes' : gset string;
  clientMissingChunks' : gset string;
  clientMissingMeshes' : gset string;
  nearbyChunks' : gset string
}.

Definition noFresh : Fresh := mkFresh ∅ ∅ ∅ ∅ ∅ ∅.

Definition withRequested (self : State) (r : gset string) : State :=
  mkState (nearbyChunks self) (chunkDistances self) (sentClientChunks self)
    (sentClientMeshes self) (missingChunks self) r
    (clientMissingChunks self) (clientMissingMeshes self) (lastWorldChunks self).

Section Worker.
Context {fl : Type}.

(** [req.onload] of the closure built by [requestClosure(chunkId,
    position)]; [response] is [None] when [req.response] is empty.  The
    [done] callback belongs to the request limiter and touches neither the
    worker nor the cache. *)
Definition requestClosure (chunkId : string) (position : Position)
    (response : option (list Z)) (w : World fl) : World fl :=
  let self := withRequested (worker w) (requestedChunks (worker w) ∖ {[chunkId]}) in
  match response with
  | None => mkWorld self (chunkCache w) (posted w) (fetches w)
  | Some bytes =>
      if decide (chunkId ∈ dom (chunkDistances self)) then
        mkWorld self
          (<[chunkId := mkChunk chunkId position bytes]> (chunkCache w))
          (posted w) (fetches w)
      else mkWorld self (chunkCache w) (posted w) (fetches w)
  end.

(** The callback given to [nearbyChunkIDsEach], for one enumerated chunk. *)
Definition visitChunk (acc : World fl * Fresh)
    (e : string * Position * Z) : World fl * Fresh :=
  let '(w, l) := acc in
  let '(chunkId, chunkPosition, distanceAway) := e in
  let self := worker w in
  if chunkOutOfBounds self chunkPosition then (w, l)
  else
    let w :=
      if decide (chunkId ∈ dom (chunkCache w)) then w
      else if decide (chunkId ∈ requestedChunks self) then w
      else mkWorld (withRequested self ({[chunkId]} ∪ requestedChunks self))
             (chunkCache w) (posted w)
             (fetches w ++ [(chunkId, chunkPosition)]) in
    let l :=
      if distanceAway <? 3 then
        let l :=
          if decide (chunkId ∈ sentClientChunks self) then
            mkFresh (chunkDistances' l) ({[chunkId]} ∪ sentClientChunks' l)
              (sentClientMeshes' l) (clientMissingChunks' l)
              (clientMissingMeshes' l) (nearbyChunks' l)
          else
            mkFresh (chunkDistances' l) (sentClientChunks' l)
              (sentClientMeshes' l) ({[chunkId]} ∪ clientMissingChunks' l)
              (clientMissingMeshes' l) (nearbyChunks' l) in
        mkFresh (chunkDistances' l) (sentClientChunks' l)
          (sentClientMeshes' l) (clientMissingChunks' l)
          (clientMissingMeshes' l) ({[chunkId]} ∪ nearbyChunks' l)
      else l in
    let l :=
      if decide (chunkId ∈ sentClientMeshes self) then
        mkFresh (chunkDistances' l) (sentClientChunks' l)
          ({[chunkId]} ∪ sentClientMeshes' l) (clientMissingChunks' l)
          (clientMissingMeshes' l) (nearbyChunks' l)
      else
        mkFresh (chunkDistances' l) (sentClientChunks' l)
          (sentClientMeshes' l) (clientMissingChunks' l)
          ({[chunkId]} ∪ clientMissingMeshes' l) (nearbyChunks' l) in
    (w, mkFresh (<[chunkId := distanceAway]> (chunkDistances' l))
          (sentClientChunks' l) (sentClientMeshes' l)
          (clientMissingChunks' l) (clientMissingMeshes' l) (nearbyChunks' l)).

(** [regionChange]; [nearby] is the sequence of calls that
    [coordinates.nearbyChunkIDsEach(playerPosition, drawDistance, _)] makes
    to its callback ([lib/coordinates] is not among the sources). *)
Definition regionChange (nearby : list (string * Position * Z))
    (w : World fl) : World fl :=
  let '(w, l) := foldl visitChunk (w, noFresh) nearby in
  let self := worker w in
  let self :=
    mkState (nearbyChunks' l) (chunkDistances' l) (sentClientChunks' l)
      (sentClientMeshes' l) (missingChunks self) (requestedChunks self)
      (clientMissingChunks' l) (clientMissingMeshes' l)
      (lastWorldChunks self) in
  let self :=
    withRequested self
      (filter (λ chunkId, chunkId ∈ dom (chunkDistances' l))
         (requestedChunks self)) in
  mkWorld self (chunkCache w)
    (posted w ++ [meshesToShow (chunkDistances' l);
                  nearbyChunksMessage (nearbyChunks' l)])
    (fetches w).

(** The mesher the worker calls ([lib/meshers/horizontal-merge2] is not among
    the sources): a function of the cache it was configured with, the chunk
    position and the voxels; [None] is [null]. *)
Context (mesher : gmap string Chunk → Position → list Z →
                  option (gmap Z (Mesher.TextureMesh fl))).

Definition transferOf (texture : Mesher.TextureMesh fl) : Transfer fl :=
  let entry (b : Mesher.Buffer fl) (withTuples : bool) :=
    mkTransferBuffer (Mesher.data b) (Mesher.offset b)
      (Mesher.offset b * 4)%nat
      (if withTuples then Some (Mesher.offset b, 3%nat) else None) in
  mkTransfer (entry (Mesher.position texture) true)
    (entry (Mesher.texcoord texture) false)
    (entry (Mesher.normal texture) false).

Definition withVoxelsSent (self : State) (chunkId : string) : State :=
  mkState (nearbyChunks self) (chunkDistances self)
    ({[chunkId]} ∪ sentClientChunks self) (sentClientMeshes self)
    (missingChunks self) (requestedChunks self)
    (clientMissingChunks self ∖ {[chunkId]}) (clientMissingMeshes self)
    (lastWorldChunks self).

Definition withMeshSent (self : State) (chunkId : string) : State :=
  mkState (nearbyChunks self) (chunkDistances self)
    (sentClientChunks self) ({[chunkId]} ∪ sentClientMeshes self)
    (missingChunks self) (requestedChunks self)
    (clientMissingChunks self) (clientMissingMeshes self ∖ {[chunkId]})
    (lastWorldChunks self).

(** The first loop of [processChunks], over the keys of
    [clientMissingChunks]. *)
Fixpoint sendVoxels (chunkIds : list string) (w : World fl) : World fl :=
  match chunkIds with
  | [] => w
  | chunkId :: rest =>
      match chunkCache w !! chunkId with
      | Some chunk =>
          sendVoxels rest
            (mkWorld (withVoxelsSent (worker w) chunkId) (chunkCache w)
               (posted w ++ [chunkVoxels chunk]) (fetches w))
      | None => sendVoxels rest w
      end
  end.

(** The second loop, [for (var i = 0; i < chunkIds.length; i++)], from
    index [i] with [chunkIds] the keys not yet visited. *)
Fixpoint sendMeshes (i : nat) (chunkIds : list string) (w : World fl) : World fl :=
  match chunkIds with
  | [] => w
  | chunkId :: rest =>
      match chunkCache w !! chunkId with
      | None => sendMeshes (S i) rest w
      | Some chunk =>
          let mesh := mesher (chunkCache w) (ChunkCache.position chunk) (voxels chunk) in
          let transfer : gmap Z (Transfer fl) :=
            match mesh with
            | Some mesh => transferOf <$> mesh
            | None => ∅
            end in
          let w :=
            mkWorld (withMeshSent (worker w) chunkId) (chunkCache w)
              (posted w ++ [chunkMesh chunkId transfer]) (fetches w) in
          if (9 <? i)%nat then w else sendMeshes (S i) rest w
      end
  end.

(** [processChunks].  The keys are taken in the order of [elements]; the
    properties below are stated for every order of the keys. *)
Definition processChunks (w : World fl) : World fl :=
  let w := sendVoxels (elements (clientMissingChunks (worker w))) w in
  sendMeshes 0 (elements (clientMissingMeshes (worker w))) w.

End Worker.

Definition isChunkMesh {fl} (m : Message fl) : bool :=
  match m with
  | chunkMesh _ _ => true
  | _ => false
  end.

(** The number of [chunkMesh] messages in a list of posted messages. *)
Definition meshCount {fl} (ms : list (Message fl)) : nat :=
  length (List.filter isChunkMesh ms).

End Worker.

(** ** client-worker.js: voxel edits *)

Module Edits.

Import ChunkCache.

(** [chunk.voxels[index] = val] on the [Uint8Array] that [onload] stored: an
    index outside the array writes nothing, a value is stored modulo 256. *)
Definition writeVoxel (vs : list Z) (index val : Z) : list Z :=
  if index <? 0 then vs else <[Z.to_nat index := val `mod` 256]> vs.

(** [for (var i = 0; i < details.length; i += 2)]: the pairs
    [index, value] in order; a trailing index without value stores
    [undefined], that is 0. *)
Fixpoint applyDetails (details : list Z) (vs : list Z) : list Z :=
  match details with
  | [] => vs
  | [index] => writeVoxel vs index 0
  | index :: val :: rest => applyDetails rest (writeVoxel vs index val)
  end.

Definition editChunk (chunk : Chunk) (details : list Z) : Chunk :=
  mkChunk (chunkID chunk) (position chunk) (applyDetails details (voxels chunk)).

(** [self.clientMissingMeshes[chunkID] = true]. *)
Definition withMeshMissing (self : Worker.State) (chunkID : string) : Worker.State :=
  Worker.mkState (Worker.nearbyChunks self) (Worker.chunkDistances self)
    (Worker.sentClientChunks self) (Worker.sentClientMeshes self)
    (Worker.missingChunks self) (Worker.requestedChunks self)
    (Worker.clientMissingChunks self)
    ({[chunkID]} ∪ Worker.clientMissingMeshes self)
    (Worker.lastWorldChunks self).

(** [self.clientMissingChunks[chunkID] = true]. *)
Definition withVoxelsMissing (self : Worker.State) (chunkID : string) : Worker.State :=
  Worker.mkState (Worker.nearbyChunks self) (Worker.chunkDistances self)
    (Worker.sentClientChunks self) (Worker.sentClientMeshes self)
    (Worker.missingChunks self) (Worker.requestedChunks self)
    ({[chunkID]} ∪ Worker.clientMissingChunks self)
    (Worker.clientMissingMeshes self)
    (Worker.lastWorldChunks self).

(** The [changes] object, [chunkID -> [index, value, ...]], as the list of
    its entries in enumeration order. *)
Definition Changes : Type := list (string * list Z).

(** The worker with its socket: [connection] is [None] while
    [this.connection] is [null], otherwise the messages sent to the server;
    [relayed] are the [chunkVoxelIndexValue] messages posted to the client. *)
Record Session (fl : Type) := mkSession {
  world : Worker.World fl;
  connection : option (list Changes);
  relayed : list Changes
}.
Arguments mkSession {fl} _ _ _.
Arguments world {fl} _.
Arguments connection {fl} _.
Arguments relayed {fl} _.

Section Edits.
Context {fl : Type}.

(** One entry of [changes] in the worker's own [chunkVoxelIndexValue]. *)
Definition applyChange (w : Worker.World fl) (change : string * list Z)
    : Worker.World fl :=
  let '(chunkID, details) := change in
  match Worker.chunkCache w !! chunkID with
  | Some chunk =>
      Worker.mkWorld (withMeshMissing (Worker.worker w) chunkID)
        (<[chunkID := editChunk chunk details]> (Worker.chunkCache w))
        (Worker.posted w) (Worker.fetches w)
  | None => w
  end.

(** One key of [touching]. *)
Definition touch (w : Worker.World fl) (chunkID : string) : Worker.World fl :=
  match Worker.chunkCache w !! chunkID with
  | Some _ =>
      Worker.mkWorld (withMeshMissing (Worker.worker w) chunkID)
        (Worker.chunkCache w) (Worker.posted w) (Worker.fetches w)
  | None => w
  end.

(** [worker.chunkVoxelIndexValue(changes, touching)]: the edit made by this
    client.  Sending on a [null] connection throws. *)
Definition chunkVoxelIndexValue (changes : Changes) (touching : list string)
    (s : Session fl) : option (Session fl) :=
  match connection s with
  | None => None
  | Some sent =>
      let w := foldl applyChange (world s) changes in
      let w := foldl touch w touching in
      Some (mkSession w (Some (sent ++ [changes])) (relayed s))
  end.

(** One entry of [changes] in the [chunkVoxelIndexValue] case of
    [websocket.onmessage]: an edit made elsewhere. *)
Definition applyServerChange (w : Worker.World fl) (change : string * list Z)
    : Worker.World fl :=
  let '(chunkID, details) := change in
  let self := Worker.worker w in
  if decide (chunkID ∈ dom (Worker.chunkDistances self)) then
    match Worker.chunkCache w !! chunkID with
    | Some chunk =>
        let self := withMeshMissing self chunkID in
        let self :=
          if decide (chunkID ∈ Worker.nearbyChunks self)
          then withVoxelsMissing self chunkID else self in
        Worker.mkWorld self
          (<[chunkID := editChunk chunk details]> (Worker.chunkCache w))
          (Worker.posted w) (Worker.fetches w)
    | None => w
    end
  else w.

(** The [chunkVoxelIndexValue] case of [websocket.onmessage]. *)
Definition onChunkVoxelIndexValue (changes : Changes) (s : Session fl)
    : Session fl :=
  mkSession (foldl applyServerChange (world s) changes) (connection s)
    (relayed s ++ [changes]).

End Edits.

End Edits.

(** ** server.js: the connection limit *)

Module Server.

(** The counter [connections], the connections handed to
    [server.connectClient], those on which [close()] was called, and the
    console, all in order. *)
Record State := mkState {
  connections : Z;
  connectClient : list nat;
  close : list nat;
  console : list string
}.

Definition initial : State := mkState 0 [] [] [].

(** The handler of [wseServer.on('connection', _)]; [connectionLimit] is
    [None] when [config.maxPlayers] is undefined, and then no comparison
    holds. *)
Definition onConnection (connectionLimit : option Z) (connection : nat)
    (st : State) : State :=
  let console := console st ++ ["Incoming client connection"] in
  let connections := connections st + 1 in
  let console := console ++ ["Connections: " +:+ pretty connections] in
  if match connectionLimit with
     | Some limit => limit <? connections
     | None => false
     end
  then
    mkState connections (connectClient st) (close st ++ [connection])
      (console ++ ["Denying connection, at our limit"])
  else
    mkState connections (connectClient st ++ [connection]) (close st) console.

(** The handler of [connection.on('close', _)]. *)
Definition onClose (st : State) : State :=
  let connections := connections st - 1 in
  mkState connections (connectClient st) (close st)
    (console st ++ ["Connections: " +:+ pretty connections]).

Inductive Event :=
| Connection (connection : nat)
| Close (connection : nat).

Definition handle (connectionLimit : option Z) (st : State) (e : Event) : State :=
  match e with
  | Connection c => onConnection connectionLimit c st
  | Close _ => onClose st
  end.

Definition run (connectionLimit : option Z) (events : list Event) : State :=
  foldl (handle connectionLimit) initial events.

End Server.

(** ** Notions used in the statements *)

(** The identifiers of the enumerated chunks that pass the world-bounds
    test of [regionChange]'s callback. *)
Definition inBounds (self : Worker.State)
    (nearby : list (string * Position * Z)) : gset string :=
  list_to_set
    (map (λ e, e.1.1)
       (filter (λ e, Worker.chunkOutOfBounds self e.1.2 = false) nearby)).

(** The identifiers enumerated, in or out of bounds. *)
Definition enumerated (nearby : list (string * Position * Z)) : gset string :=
  list_to_set (map (λ e, e.1.1) nearby).

(** Every material has a fallback and every face texture has its offsets:
    [3] is a key of [voxelsToTextures], and the six textures of every
    material are keys of [textureOffsets]. *)
Definition tablesComplete {fl} (cfg : Mesher.Config fl) : Prop :=
  3 ∈ dom (Mesher.voxelsToTextures cfg)
  ∧ ∀ m info face,
      Mesher.voxelsToTextures cfg !! m = Some info →
      Mesher.textureAt info (Mesher.faceIndex face)
        ∈ dom (Mesher.textureOffsets cfg).

(** The adjacent object in which every face of [faces] holds a run of the
    material [info] from [s] to [e]. *)
Definition merged (info : Mesher.Textures) (faces : list Face)
    (s e : Position) : Mesher.Adjacent :=
  map (λ face,
         (face,
          Some (Mesher.mkRun (Mesher.textureAt info (Mesher.faceIndex face)) s e)))
      faces.

(** No face of [faces] is blocked at the cell [(x, y, z)] for a voxel of the
    material [info]. *)
Definition unblocked {fl} (cfg : Mesher.Config fl) (basePosition : Position)
    (vs : list Z) (info : Mesher.Textures) (faces : list Face)
    (x y z : nat) : Prop :=
  ∀ face, face ∈ faces →
    Mesher.isFaceBlocked (Mesher.Coordinator_ cfg) (Mesher.chunkCache cfg)
      basePosition vs (Z.of_nat (Mesher.chunkSize cfg)) face
      (Z.of_nat x) (Z.of_nat y) (Z.of_nat z)
      (Mesher.textureAt info (Mesher.faceIndex face)) = false.

(** The texture of a run has its offsets. *)
Definition runKnown {fl} (cfg : Mesher.Config fl) (cur : option Mesher.Run) : Prop :=
  ∀ r, cur = Some r → Mesher.textureValue r ∈ dom (Mesher.textureOffsets cfg).

Definition runsKnown {fl} (cfg : Mesher.Config fl) (adjacent : Mesher.Adjacent) : Prop :=
  ∀ face r, (face, Some r) ∈ adjacent →
    Mesher.textureValue r ∈ dom (Mesher.textureOffsets cfg).

(** The three offsets of a texture key of [out], zero for a key not yet
    there. *)
Definition meshOffsets {fl} (o : gmap Z (Mesher.TextureMesh fl)) (tv : Z)
    : nat * nat * nat :=
  match o !! tv with
  | Some tm =>
      (Mesher.offset (Mesher.position tm),
       Mesher.offset (Mesher.texcoord tm),
       Mesher.offset (Mesher.normal tm))
  | None => (0, 0, 0)%nat
  end.

(** The texture keys of the result of a mesh pass with their offsets, and
    the first [n] position values under a key. *)
Definition resultOffsets {fl Pool}
    (r : option (option (gmap Z (Mesher.TextureMesh fl)) * Mesher.Globals fl Pool))
    : option (list (Z * (nat * nat * nat))) :=
  match r with
  | Some (Some o, _) => Some (map (λ kv, (kv.1, meshOffsets o kv.1)) (map_to_list o))
  | _ => None
  end.

Definition resultPositions {fl Pool} (n : nat) (tv : Z)
    (r : option (option (gmap Z (Mesher.TextureMesh fl)) * Mesher.Globals fl Pool))
    : option (list fl) :=
  match r with
  | Some (Some o, _) =>
      (λ tm, take n (Mesher.data (Mesher.position tm))) <$> o !! tv
  | _ => None
  end.

(** Two buffers with the same offset and the same values below it. *)
Definition sameBuffer {fl} (b1 b2 : Mesher.Buffer fl) : Prop :=
  Mesher.offset b1 = Mesher.offset b2
  ∧ take (Mesher.offset b1) (Mesher.data b1)
    = take (Mesher.offset b2) (Mesher.data b2).

Definition sameTextureMesh {fl} (t1 t2 : Mesher.TextureMesh fl) : Prop :=
  sameBuffer (Mesher.position t1) (Mesher.position t2)
  ∧ sameBuffer (Mesher.texcoord t1) (Mesher.texcoord t2)
  ∧ sameBuffer (Mesher.normal t1) (Mesher.normal t2).

(** Two outputs with the same texture keys and, under each key, the same
    filled part of the three buffers. *)
Definition sameGeometry {fl} (o1 o2 : gmap Z (Mesher.TextureMesh fl)) : Prop :=
  ∀ tv, option_Forall2 sameTextureMesh (o1 !! tv) (o2 !! tv).

(** Two results of [mesh]: both [null], or outputs of the same geometry. *)
Definition sameResult {fl} (r1 r2 : option (gmap Z (Mesher.TextureMesh fl))) : Prop :=
  option_Forall2 sameGeometry r1 r2.

(** Two [out] objects during a pass: the same geometry in buffers of the
    same capacity. *)
Definition alikeBuffer {fl} (b1 b2 : Mesher.Buffer fl) : Prop :=
  sameBuffer b1 b2 ∧ length (Mesher.data b1) = length (Mesher.data b2).

Definition alikeTextureMesh {fl} (t1 t2 : Mesher.TextureMesh fl) : Prop :=
  alikeBuffer (Mesher.position t1) (Mesher.position t2)
  ∧ alikeBuffer (Mesher.texcoord t1) (Mesher.texcoord t2)
  ∧ alikeBuffer (Mesher.normal t1) (Mesher.normal t2).

Definition alike {fl Pool} (g1 g2 : Mesher.Globals fl Pool) : Prop :=
  ∀ tv, option_Forall2 alikeTextureMesh (Mesher.out g1 !! tv) (Mesher.out g2 !! tv).

(** A computation that does the same on alike states: it throws on both or
    returns the same value and alike states. *)
Definition agrees {fl Pool A} (c : M (Mesher.Globals fl Pool) A) : Prop :=
  ∀ g1 g2, alike g1 g2 →
    match c g1, c g2 with
    | Some (a1, g1'), Some (a2, g2') => a1 = a2 ∧ alike g1' g2'
    | None, None => True
    | _, _ => False
    end.

(** A computation that returns on every state, with a value in [Q]. *)
Definition returns {S A} (m : M S A) (Q : A → Prop) : Prop :=
  ∀ s, ∃ a s', m s = Some (a, s') ∧ Q a.

(** Modelled from the spec: the Coordinate Mapper of section 4.1
    ([lib/coordinates] is not among the sources).  The chunk identifier
    floor-divides each axis by [chunkSize] and joins the three chunk-grid
    coordinates into a string key; the voxel index is
    [localY*chunkSize*chunkSize + localZ*chunkSize + localX] with the floored
    modulo as local coordinates. *)
Definition specCoordinator (chunkSize : Z) : Coordinator :=
  mkCoordinator
    (λ x y z,
       pretty (x `div` chunkSize) +:+ "|" +:+ pretty (y `div` chunkSize)
       +:+ "|" +:+ pretty (z `div` chunkSize))
    (λ x y z,
       (y `mod` chunkSize) * chunkSize * chunkSize
       + (z `mod` chunkSize) * chunkSize + (x `mod` chunkSize)).

(** *** Notions for the sweep *)

(** The material under which the sweep looks a voxel value up: the value
    itself when it is a key of [voxelsToTextures], else the fallback 3. *)
Definition effectiveMaterial {fl} (cfg : Mesher.Config fl) (v : Z) : Z :=
  if decide (v ∈ dom (Mesher.voxelsToTextures cfg)) then v else 3.

(** The state after [n] cells of value [v] were looked up: one line is
    logged for each when [v] is no key of [voxelsToTextures]. *)
Definition withFallbackLines {fl Pool} (cfg : Mesher.Config fl) (v : Z)
    (n : nat) (g : Mesher.Globals fl Pool) : Mesher.Globals fl Pool :=
  Mesher.mkGlobals (Mesher.out g) (Mesher.pool g)
    (Mesher.console g
     ++ (if decide (v ∈ dom (Mesher.voxelsToTextures cfg)) then []
         else replicate n "falling back to 3")).

(** The corners of the quad of a run, in world coordinates. *)
Definition quadCorners (basePosition : Position) (r : Mesher.Run)
    : Position * Position :=
  let '(b0, b1, b2) := basePosition in
  let '(s0, s1, s2) := Mesher.start r in
  let '(e0, e1, e2) := Mesher.end_ r in
  ((b0 + s0, b1 + s1, b2 + s2), (b0 + e0, b1 + e1, b2 + e2)).

(** Between [g] and [g'] one quad was emitted for the run [r] on [face]:
    under the texture key of the run the three offsets grew by six vertices
    (18 positions, 12 texture coordinates, 18 normals) and, where the
    buffers had room, these hold the corners, the texture coordinates and
    the normal of the one quad that spans the run; no other key changed and
    nothing was logged. *)
Definition quadWritten {fl Pool} (ofZ : Z → fl) (cfg : Mesher.Config fl)
    (basePosition : Position) (face : Face) (r : Mesher.Run)
    (g g' : Mesher.Globals fl Pool) : Prop :=
  let tv := Mesher.textureValue r in
  let '(p, t, n) := meshOffsets (Mesher.out g) tv in
  let '((sx, sy, sz), (ex, ey, ez)) := quadCorners basePosition r in
  ∃ tm' offsets,
    Mesher.out g' !! tv = Some tm'
    ∧ Mesher.textureOffsets cfg !! tv = Some offsets
    ∧ (∀ tv', tv' ≠ tv → Mesher.out g' !! tv' = Mesher.out g !! tv')
    ∧ Mesher.console g' = Mesher.console g
    ∧ meshOffsets (Mesher.out g') tv = (p + 18, t + 12, n + 18)%nat
    ∧ ((p + 18 ≤ length (Mesher.data (Mesher.position tm')))%nat →
       take 18 (drop p (Mesher.data (Mesher.position tm')))
       = map ofZ (Mesher.facePoints face sx sy sz ex ey ez))
    ∧ ((t + 12 ≤ length (Mesher.data (Mesher.texcoord tm')))%nat →
       take 12 (drop t (Mesher.data (Mesher.texcoord tm')))
       = Mesher.faceTexcoords ofZ face offsets sx sy sz ex ey ez)
    ∧ ((n + 18 ≤ length (Mesher.data (Mesher.normal tm')))%nat →
       take 18 (drop n (Mesher.data (Mesher.normal tm')))
       = map ofZ (Mesher.faceNormals face)).

(** The voxel that a face of the cell [(x, y, z)] is compared with: the one
    at the opposing cell, in the same array or, across the chunk border, in
    the cached neighbouring chunk; [None] when that chunk is not cached. *)
Definition opposingVoxel {fl} (cfg : Mesher.Config fl) (basePosition : Position)
    (vs : list Z) (face : Face) (x y z : Z) : option (option Z) :=
  let '(ox, oy, oz) := Mesher.opposing face x y z in
  if Mesher.outsideChunk (Z.of_nat (Mesher.chunkSize cfg)) (ox, oy, oz) then
    let '(bx, by_, bz) := basePosition in
    (λ neighbour,
       voxelAt (ChunkCache.voxels neighbour)
         (coordinatesToVoxelIndex (Mesher.Coordinator_ cfg)
            (ox + bx) (oy + by_) (oz + bz)))
    <$> Mesher.chunkCache cfg
        !! coordinatesToChunkID (Mesher.Coordinator_ cfg)
             (ox + bx) (oy + by_) (oz + bz)
  else
    Some (voxelAt vs (coordinatesToVoxelIndex (Mesher.Coordinator_ cfg) ox oy oz)).

(** *** Notions for the further properties *)

(** Partial correctness with an invariant of the state: when [c] returns
    from a state in [I], the new state is in [I] and the value in [Q]. *)
Definition hoare {S A} (I : S → Prop) (c : M S A) (Q : A → Prop) : Prop :=
  ∀ s a s', I s → c s = Some (a, s') → I s' ∧ Q a.

(** A texture value that some material of the table has on some face. *)
Definition tableTexture {fl} (cfg : Mesher.Config fl) (tv : Z) : Prop :=
  ∃ m info face,
    Mesher.voxelsToTextures cfg !! m = Some info
    ∧ tv = Mesher.textureAt info (Mesher.faceIndex face).

(** Every texture key of [o] holds a positive whole number of faces:
    18 positions, 12 texture coordinates and 18 normals for each. *)
Definition wholeFaces {fl} (o : gmap Z (Mesher.TextureMesh fl)) : Prop :=
  ∀ tv, tv ∈ dom o →
    ∃ k, (0 < k)%nat ∧ meshOffsets o tv = (18 * k, 12 * k, 18 * k)%nat.

(** Every buffer of [o] has the capacity [bufferSize]. *)
Definition capacityKept {fl} (o : gmap Z (Mesher.TextureMesh fl)) : Prop :=
  ∀ tv tm, o !! tv = Some tm →
    length (Mesher.data (Mesher.position tm)) = Mesher.bufferSize
    ∧ length (Mesher.data (Mesher.texcoord tm)) = Mesher.bufferSize
    ∧ length (Mesher.data (Mesher.normal tm)) = Mesher.bufferSize.

(** The enumerated chunks in bounds that are closer than 3. *)
Definition closeBy (self : Worker.State)
    (nearby : list (string * Position * Z)) : gset string :=
  list_to_set
    (map (λ e, e.1.1)
       (filter (λ e, Worker.chunkOutOfBounds self e.1.2 = false ∧ e.2 < 3)
          nearby)).

(** The number of [chunkVoxels] messages in a list of posted messages. *)
Definition voxelsCount {fl} (ms : list (Worker.Message fl)) : nat :=
  length (List.filter
            (λ m, match m with Worker.chunkVoxels _ => true | _ => false end)
            ms).

(** The connections open after an event of the server, from those open
    before: a connection is open from its arrival to its [close] event,
    denied or not. *)
Definition opened (o : gset nat) (e : Server.Event) : gset nat :=
  match e with
  | Server.Connection c => {[c]} ∪ o
  | Server.Close c => o ∖ {[c]}
  end.

(** The connections that ever came. *)
Definition seen (o : gset nat) (e : Server.Event) : gset nat :=
  match e with
  | Server.Connection c => {[c]} ∪ o
  | Server.Close _ => o
  end.

Definition openAfter (events : list Server.Event) : gset nat :=
  foldl opened ∅ events.

Definition seenAfter (events : list Server.Event) : gset nat :=
  foldl seen ∅ events.

(** A connection comes once, and its [close] event fires only while it is
    open. *)
Fixpoint wellFormedFrom (o sn : gset nat) (events : list Server.Event) : bool :=
  match events with
  | [] => true
  | e :: rest =>
      match e with
      | Server.Connection c => bool_decide (c ∉ sn)
      | Server.Close c => bool_decide (c ∈ o)
      end
      && wellFormedFrom (opened o e) (seen sn e) rest
  end.

Definition wellFormed (events : list Server.Event) : bool :=
  wellFormedFrom ∅ ∅ events.

(** The connections that came, in order. *)
Definition arrivals (events : list Server.Event) : list nat :=
  omap (λ e, match e with
             | Server.Connection c => Some c
             | Server.Close _ => None
             end) events.

(** Every open run of [adjacent] has a texture of the table. *)
Definition runsOfTable {fl} (cfg : Mesher.Config fl)
    (adjacent : Mesher.Adjacent) : Prop :=
  ∀ face r, (face, Some r) ∈ adjacent → tableTexture cfg (Mesher.textureValue r).

(** The worker after the voxels, or the meshes, of the chunks [delivered]
    were sent. *)
Definition withVoxelsDelivered (self : Worker.State) (delivered : gset string)
    : Worker.State :=
  Worker.mkState (Worker.nearbyChunks self) (Worker.chunkDistances self)
    (delivered ∪ Worker.sentClientChunks self) (Worker.sentClientMeshes self)
    (Worker.missingChunks self) (Worker.requestedChunks self)
    (Worker.clientMissingChunks self ∖ delivered)
    (Worker.clientMissingMeshes self) (Worker.lastWorldChunks self).

Definition withMeshesDelivered (self : Worker.State) (delivered : gset string)
    : Worker.State :=
  Worker.mkState (Worker.nearbyChunks self) (Worker.chunkDistances self)
    (Worker.sentClientChunks self) (delivered ∪ Worker.sentClientMeshes self)
    (Worker.missingChunks self) (Worker.requestedChunks self)
    (Worker.clientMissingChunks self)
    (Worker.clientMissingMeshes self ∖ delivered) (Worker.lastWorldChunks self).

(** The [chunkMesh] message that [processChunks] posts for a cached chunk:
    the transfer objects of the mesh of its position and voxels, none when
    the mesher returns [null]. *)
Definition meshMessage {fl}
    (mesher : gmap string ChunkCache.Chunk → Position → list Z →
              option (gmap Z (Mesher.TextureMesh fl)))
    (cache : gmap string ChunkCache.Chunk) (chunkId : string)
    (chunk : ChunkCache.Chunk) : Worker.Message fl :=
  Worker.chunkMesh chunkId
    match mesher cache (ChunkCache.position chunk) (ChunkCache.voxels chunk) with
    | Some mesh => Worker.transferOf <$> mesh
    | None => ∅
    end.

(** The value that the pairs [index, value, ...] leave at the index [i] of a
    [Uint8Array]: the one of the last pair with that index, modulo 256. *)
Fixpoint written (details : list Z) (i : nat) : option Z :=
  match details with
  | [] => None
  | [index] => if decide (index = Z.of_nat i) then Some 0 else None
  | index :: val :: rest =>
      match written rest i with
      | Some v => Some v
      | None => if decide (index = Z.of_nat i) then Some (val `mod` 256) else None
      end
  end.

(** The worker with further chunks waiting for their mesh and their
    voxels. *)
Definition withMissing (self : Worker.State) (meshes voxels : gset string)
    : Worker.State :=
  Worker.mkState (Worker.nearbyChunks self) (Worker.chunkDistances self)
    (Worker.sentClientChunks self) (Worker.sentClientMeshes self)
    (Worker.missingChunks self) (Worker.requestedChunks self)
    (voxels ∪ Worker.clientMissingChunks self)
    (meshes ∪ Worker.clientMissingMeshes self) (Worker.lastWorldChunks self).

(** The chunk [chunk] of identifier [chunkID] after the edits [changes],
    of which those that pass [applies] are carried out. *)
Definition edited (changes : Edits.Changes) (applies : string → bool)
    (chunkID : string) (chunk : ChunkCache.Chunk) : ChunkCache.Chunk :=
  match (list_to_map changes : gmap string (list Z)) !! chunkID with
  | Some details => if applies chunkID then Edits.editChunk chunk details else chunk
  | None => chunk
  end.

(** What the handlers keep true: the counter is the number of open
    connections, every connection that came was either handed to
    [connectClient] or closed by the server, and at most [limit] of the
    connections handed over are open. *)
Definition limitKept (limit : Z) (st : Server.State) (o sn : gset nat) : Prop :=
  let accepted : gset nat := list_to_set (Server.connectClient st) in
  let denied : gset nat := list_to_set (Server.close st) in
  Server.connections st = Z.of_nat (size o)
  ∧ o ⊆ sn
  ∧ accepted ∪ denied = sn
  ∧ accepted ## denied
  ∧ Z.of_nat (size (accepted ∩ o)) ≤ limit.

(** Decidable statements on sample inputs are settled by evaluation. *)
Ltac by_compute :=
  match goal with
  | |- ?P => apply (bool_decide_unpack P); vm_compute; exact I
  end.

(** ** Sample inputs *)

Module Sample.

(** A worker whose world reaches from -64 to 64 on each axis and that has
    sent the meshes of [A] and [B]. *)
Definition sentAB : Worker.State :=
  Worker.mkState ∅ ∅ ∅ {[ "A"; "B" ]} ∅ ∅ ∅ ∅ ((-64, -64, -64), (64, 64, 64)).

Definition worldAB : Worker.World unit := Worker.mkWorld sentAB ∅ [] [].

(** [B] inside the world, [C] beyond its upper corner. *)
Definition nearbyBC_outside : list (string * Position * Z) :=
  [ ("B", (0, 0, 0), 0); ("C", (96, 0, 0), 3) ].

Definition nearbyBC : list (string * Position * Z) :=
  [ ("B", (0, 0, 0), 0); ("C", (32, 0, 0), 1) ].

(** Twelve cached chunks, all waiting for their mesh. *)
Definition twelveIds : list string :=
  [ "c00"; "c01"; "c02"; "c03"; "c04"; "c05";
    "c06"; "c07"; "c08"; "c09"; "c10"; "c11" ].

Definition twelveCache : gmap string ChunkCache.Chunk :=
  list_to_map (map (λ id, (id, ChunkCache.mkChunk id (0, 0, 0) [150])) twelveIds).

Definition twelveWorld (fl : Type) : Worker.World fl :=
  Worker.mkWorld
    (Worker.mkState ∅ ∅ ∅ ∅ ∅ ∅ ∅ (list_to_set twelveIds)
       ((-64, -64, -64), (64, 64, 64)))
    twelveCache [] [].

(** A fetch for [A] completing after [A] left the tracked chunks. *)
Definition untrackedWorld : Worker.World unit :=
  Worker.mkWorld
    (Worker.mkState ∅ {[ "B" := 0 ]} ∅ ∅ ∅ {[ "A" ]} ∅ {[ "B" ]}
       ((-64, -64, -64), (64, 64, 64)))
    ∅ [] [].

(** A mesher configured for chunks of side 2, with material 150, the
    fallback material 3 and no neighbouring chunk cached. *)
Definition stone : Mesher.Textures := Mesher.mkTextures 1 1 1 1 1 1.

Definition config2 : Mesher.Config Z :=
  Mesher.mkConfig Z 2
    {[ 150 := stone; 3 := Mesher.mkTextures 2 2 2 2 2 2 ]}
    {[ 1 := (0, 1, 1); 2 := (0, 1, 1) ]}
    (specCoordinator 2) ∅.

(** A pool that hands out buffers of the size asked for, filled with the
    stale value that is its state. *)
Definition staleMalloc (n : nat) (p : Z) : list Z * Z := (replicate n p, p).

(** The row [y = 0, z = 0] filled with material 150. *)
Definition rowVoxels : list Z := [150; 150; 0; 0; 0; 0; 0; 0].

(** The column [x = 0, y = 0] filled with material 150. *)
Definition columnVoxels : list Z := [150; 0; 0; 0; 150; 0; 0; 0].

(** One voxel of material 150 at [(0, 0, 0)]. *)
Definition cornerVoxels : list Z := [150; 0; 0; 0; 0; 0; 0; 0].

(** The chunk below the front face of the chunk at the origin, with a voxel
    of material 150 facing the cell [(0, 0, 0)]. *)
Definition neighbourCache : gmap string ChunkCache.Chunk :=
  {[ "0|0|-1" := ChunkCache.mkChunk "0|0|-1" (0, 0, -2) [0; 0; 150; 0; 0; 0; 0; 0] ]}.

(** A mesher that returns [null] for every chunk. *)
Definition noMesh : gmap string ChunkCache.Chunk → Position → list Z →
    option (gmap Z (Mesher.TextureMesh unit)) :=
  λ _ _ _, None.

Definition chunkA : ChunkCache.Chunk :=
  ChunkCache.mkChunk "A" (0, 0, 0) [1; 2; 3; 4; 5; 6; 7; 8].

(** [A] is near, tracked and cached; [B] is tracked and requested; both
    wait for their mesh and [A] for its voxels. *)
Definition backlogWorld : Worker.World unit :=
  Worker.mkWorld
    (Worker.mkState {[ "A" ]} {[ "A" := 0; "B" := 3 ]} ∅ ∅ ∅ {[ "B" ]}
       {[ "A" ]} {[ "A"; "B" ]} ((-64, -64, -64), (64, 64, 64)))
    {[ "A" := chunkA ]} [] [].

(** [A] is near, tracked and cached and nothing is missing; [D] is cached
    but no longer tracked. *)
Definition settledWorld : Worker.World unit :=
  Worker.mkWorld
    (Worker.mkState {[ "A" ]} {[ "A" := 0 ]} {[ "A" ]} {[ "A" ]} ∅ ∅ ∅ ∅
       ((-64, -64, -64), (64, 64, 64)))
    {[ "A" := chunkA; "D" := ChunkCache.mkChunk "D" (96, 0, 0) [9; 9] ]} [] [].

Definition settledSession : Edits.Session unit :=
  Edits.mkSession settledWorld (Some []) [].

(** An edit of two voxels of [A], one of [D] and one of the unknown [E]. *)
Definition someChanges : Edits.Changes :=
  [ ("A", [0; 150; 7; 300]); ("D", [1; 4]); ("E", [0; 1]) ].

(** Three connections, the first of which closes before the third comes. *)
Definition threeClients : list Server.Event :=
  [ Server.Connection 0; Server.Connection 1; Server.Close 0;
    Server.Connection 2 ].

(** [config2] without texture offsets. *)
Definition configNoOffsets : Mesher.Config Z :=
  Mesher.mkConfig Z 2
    {[ 150 := stone; 3 := Mesher.mkTextures 2 2 2 2 2 2 ]}
    ∅ (specCoordinator 2) ∅.

(** [config2] without the fallback material 3. *)
Definition configNoFallback : Mesher.Config Z :=
  Mesher.mkConfig Z 2 {[ 150 := stone ]} {[ 1 := (0, 1, 1) ]}
    (specCoordinator 2) ∅.

(** A voxel of material 150 next to one of the unknown material 7. *)
Definition unknownVoxels : list Z := [150; 7; 0; 0; 0; 0; 0; 0].

(** Materials 50 and 150 whose faces all have the material's value as
    texture id. *)
Definition configGlass : Mesher.Config Z :=
  Mesher.mkConfig Z 2
    {[ 50 := Mesher.mkTextures 50 50 50 50 50 50;
       150 := Mesher.mkTextures 150 150 150 150 150 150;
       3 := Mesher.mkTextures 2 2 2 2 2 2 ]}
    {[ 50 := (0, 1, 1); 150 := (0, 1, 1); 2 := (0, 1, 1) ]}
    (specCoordinator 2) ∅.

(** The same with the faces of material 50 under the texture id 200. *)
Definition configGlass200 : Mesher.Config Z :=
  Mesher.mkConfig Z 2
    {[ 50 := Mesher.mkTextures 200 200 200 200 200 200;
       150 := Mesher.mkTextures 150 150 150 150 150 150;
       3 := Mesher.mkTextures 2 2 2 2 2 2 ]}
    {[ 200 := (0, 1, 1); 150 := (0, 1, 1); 2 := (0, 1, 1) ]}
    (specCoordinator 2) ∅.

(** A voxel of value 50 at [(0, 0, 0)] next to one of value 150 at
    [(1, 0, 0)]. *)
Definition glassVoxels : list Z := [50; 150; 0; 0; 0; 0; 0; 0].

End Sample.

(** * Properties *)

(** ** Occlusion *)


(** A current value below 100 facing a value above 99 is not skipped, and a
    current value of 100 or more facing any non-zero value is skipped. *)
Lemma shouldSkipFace_thresholds (current opposing : Z) :
  (current < 100 → 99 < opposing →
   Mesher.shouldSkipFace current (Some opposing) = false)
  ∧ (100 ≤ current → 0 < opposing →
     Mesher.shouldSkipFace current (Some opposing) = true).
Proof.
  unfold Mesher.shouldSkipFace. split; intros Hc Ho.
  - destruct opposing as [|o|o]; try lia.
    apply Z.ltb_lt in Hc as ->. apply Z.ltb_lt in Ho as ->. reflexivity.
  - destruct opposing as [|o|o]; try lia.
    apply Z.ltb_ge in Hc as ->. reflexivity.
Qed.

(** C4: when the opposing cell of a face lies outside the chunk,
    [isFaceBlocked] is [shouldSkipFace] on the voxel of the cached
    neighbouring chunk, found through the coordinate helper at the world
    coordinates of the opposing cell, and is [false] when that chunk is not
    in the cache. *)
Theorem isFaceBlocked_across_chunks (coordinator : Coordinator)
    (cache : gmap string ChunkCache.Chunk) (basePosition : Position)
    (vs : list Z) (chunkSize : nat) (face : Face) (x y z current : Z) :
  Mesher.outsideChunk (Z.of_nat chunkSize) (Mesher.opposing face x y z) = true →
  let '(ox, oy, oz) := Mesher.opposing face x y z in
  let '(bx, by_, bz) := basePosition in
  let id := coordinatesToChunkID coordinator (ox + bx) (oy + by_) (oz + bz) in
  let index := coordinatesToVoxelIndex coordinator (ox + bx) (oy + by_) (oz + bz) in
  (∀ neighbour, cache !! id = Some neighbour →
     Mesher.isFaceBlocked coordinator cache basePosition vs
       (Z.of_nat chunkSize) face x y z current
     = Mesher.shouldSkipFace current
         (voxelAt (ChunkCache.voxels neighbour) index))
  ∧ (cache !! id = None →
     Mesher.isFaceBlocked coordinator cache basePosition vs
       (Z.of_nat chunkSize) face x y z current = false).
Proof.
  unfold Mesher.isFaceBlocked.
  destruct (Mesher.opposing face x y z) as [[ox oy] oz].
  destruct basePosition as [[bx by_] bz].
  intros ->. split.
  - intros neighbour ->. reflexivity.
  - intros ->. reflexivity.
Qed.

(** ** Voxel index *)

(** C2, as stated: the sweep would read index
    [y*chunkSize*chunkSize + z*chunkSize + x]; at [chunkSize = 2] the cell
    [(0, 1, 0)] is read at index 2, not 4. *)
Lemma sweep_index_not_y_major :
  ¬ (∀ chunkSize x y z : nat,
       (x < chunkSize)%nat → (y < chunkSize)%nat → (z < chunkSize)%nat →
       Mesher.indexX chunkSize y z x
       = (y * chunkSize * chunkSize + z * chunkSize + x)%nat).
Proof.
  intros H. specialize (H 2%nat 0%nat 1%nat 0%nat).
  vm_compute in H. assert (2 = 4)%nat as Habs by (apply H; lia). discriminate Habs.
Qed.

Lemma foldM_ext {S A B} (f f' : A → B → M S A) l :
  (∀ a b s, f a b s = f' a b s) → ∀ a s, foldM f l a s = foldM f' l a s.
Proof.
  intros Hf. induction l as [|b l IH]; intros a s; simpl; [reflexivity|].
  unfold bind. rewrite Hf. destruct (f' a b s) as [[a' s']|]; [|reflexivity].
  apply IH.
Qed.

(** C2, amended: both passes of the sweep read the cell [(x, y, z)] at
    index [y*chunkSize + z*chunkSize*chunkSize + x]: the two index
    expressions of [calculate] equal it, and a row of either pass visits each
    of its cells with the voxel read there. *)
Theorem sweep_index {fl : Type} (ofZ : Z → fl) {Pool : Type}
    (malloc : nat → Pool → list fl * Pool) (cfg : Mesher.Config fl)
    (basePosition : Position) (vs : list Z) (x y z : nat)
    (adjacent : Mesher.Adjacent) (g : Mesher.Globals fl Pool) :
  let n := Mesher.chunkSize cfg in
  let voxel (x y z : nat) := vs !! (y * n + z * n * n + x)%nat in
  Mesher.indexX n y z x = (y * n + z * n * n + x)%nat
  ∧ Mesher.indexZ n y x z = (y * n + z * n * n + x)%nat
  ∧ Mesher.rowX ofZ malloc cfg basePosition vs y z adjacent g
    = (adjacent <~
         foldM (λ adjacent x,
                  Mesher.visit ofZ malloc cfg basePosition vs x y z
                    (voxel x y z) adjacent)
               (seq 0 n) (Mesher.resetFaces adjacent) ;;
       Mesher.addFaces ofZ malloc cfg basePosition adjacent ;;;
       ret (Mesher.resetFaces adjacent)) g
  ∧ Mesher.rowZ ofZ malloc cfg basePosition vs y x adjacent g
    = (adjacent <~
         foldM (λ adjacent z,
                  Mesher.visit ofZ malloc cfg basePosition vs x y z
                    (voxel x y z) adjacent)
               (seq 0 n) (Mesher.resetFaces adjacent) ;;
       Mesher.addFaces ofZ malloc cfg basePosition adjacent ;;;
       ret (Mesher.resetFaces adjacent)) g.
Proof.
  intros n voxel.
  assert (HX : ∀ y z x, Mesher.indexX n y z x = (y * n + z * n * n + x)%nat)
    by (intros; unfold Mesher.indexX; lia).
  assert (HZ : ∀ y x z, Mesher.indexZ n y x z = (y * n + z * n * n + x)%nat)
    by (intros; unfold Mesher.indexZ; lia).
  split; [apply HX|]. split; [apply HZ|]. split.
  - unfold Mesher.rowX, bind. fold n.
    erewrite foldM_ext; [reflexivity|].
    intros a b s. simpl. by rewrite HX.
  - unfold Mesher.rowZ, bind. fold n.
    erewrite foldM_ext; [reflexivity|].
    intros a b s. simpl. by rewrite HZ.
Qed.

(** ** Region change *)

Section RegionChange.
Context {fl : Type}.
Implicit Types (w : Worker.World fl) (l : Worker.Fresh).

Lemma visitChunk_worker w l e :
  let r := Worker.visitChunk (w, l) e in
  Worker.sentClientMeshes (Worker.worker r.1)
  = Worker.sentClientMeshes (Worker.worker w)
  ∧ Worker.lastWorldChunks (Worker.worker r.1)
    = Worker.lastWorldChunks (Worker.worker w)
  ∧ Worker.chunkCache r.1 = Worker.chunkCache w.
Proof.
  destruct e as [[chunkId chunkPosition] distanceAway].
  unfold Worker.visitChunk.
  destruct (Worker.chunkOutOfBounds (Worker.worker w) chunkPosition);
    [repeat split; reflexivity|].
  destruct (decide (chunkId ∈ dom (Worker.chunkCache w)));
    [|destruct (decide (chunkId ∈ Worker.requestedChunks (Worker.worker w)))];
    repeat split; reflexivity.
Qed.

Lemma visitChunk_meshes w l chunkId chunkPosition distanceAway :
  let r := Worker.visitChunk (w, l) (chunkId, chunkPosition, distanceAway) in
  let sent := Worker.sentClientMeshes (Worker.worker w) in
  if Worker.chunkOutOfBounds (Worker.worker w) chunkPosition then r.2 = l
  else
    dom (Worker.chunkDistances' r.2) = {[chunkId]} ∪ dom (Worker.chunkDistances' l)
    ∧ Worker.sentClientMeshes' r.2
      = (if decide (chunkId ∈ sent)
         then {[chunkId]} ∪ Worker.sentClientMeshes' l
         else Worker.sentClientMeshes' l)
    ∧ Worker.clientMissingMeshes' r.2
      = (if decide (chunkId ∈ sent)
         then Worker.clientMissingMeshes' l
         else {[chunkId]} ∪ Worker.clientMissingMeshes' l).
Proof.
  unfold Worker.visitChunk. cbv zeta.
  destruct (Worker.chunkOutOfBounds (Worker.worker w) chunkPosition);
    [reflexivity|].
  destruct (decide (chunkId ∈ Worker.sentClientMeshes (Worker.worker w)));
    cbn [snd Worker.chunkDistances' Worker.sentClientMeshes'
         Worker.clientMissingMeshes'];
    rewrite dom_insert_L;
    destruct (distanceAway <? 3);
    [destruct (decide (chunkId ∈ Worker.sentClientChunks (Worker.worker w)))| |
     destruct (decide (chunkId ∈ Worker.sentClientChunks (Worker.worker w)))| ];
    repeat split; reflexivity.
Qed.

Lemma inBounds_cons (self : Worker.State) chunkId chunkPosition
    (distanceAway : Z) nearby :
  inBounds self ((chunkId, chunkPosition, distanceAway) :: nearby)
  = (if Worker.chunkOutOfBounds self chunkPosition then ∅ else {[chunkId]})
    ∪ inBounds self nearby.
Proof.
  unfold inBounds. rewrite filter_cons. simpl.
  destruct (Worker.chunkOutOfBounds self chunkPosition);
    case_decide; try done; set_solver.
Qed.

Lemma inBounds_bounds (self self' : Worker.State) nearby :
  Worker.lastWorldChunks self' = Worker.lastWorldChunks self →
  inBounds self' nearby = inBounds self nearby.
Proof. intros H. unfold inBounds, Worker.chunkOutOfBounds. by rewrite H. Qed.

Lemma foldl_visitChunk_meshes nearby w l :
  let r := foldl Worker.visitChunk (w, l) nearby in
  let sent := Worker.sentClientMeshes (Worker.worker w) in
  let tracked := inBounds (Worker.worker w) nearby in
  Worker.sentClientMeshes (Worker.worker r.1) = sent
  ∧ Worker.lastWorldChunks (Worker.worker r.1)
    = Worker.lastWorldChunks (Worker.worker w)
  ∧ Worker.chunkCache r.1 = Worker.chunkCache w
  ∧ dom (Worker.chunkDistances' r.2) = tracked ∪ dom (Worker.chunkDistances' l)
  ∧ Worker.sentClientMeshes' r.2 = (tracked ∩ sent) ∪ Worker.sentClientMeshes' l
  ∧ Worker.clientMissingMeshes' r.2
    = (tracked ∖ sent) ∪ Worker.clientMissingMeshes' l.
Proof.
  revert w l.
  induction nearby as [|[[chunkId chunkPosition] distanceAway] nearby IH];
    intros w l.
  { simpl. unfold inBounds. simpl. set_solver. }
  cbn [foldl].
  pose proof (visitChunk_worker w l (chunkId, chunkPosition, distanceAway)) as Hw.
  pose proof (visitChunk_meshes w l chunkId chunkPosition distanceAway) as Hm.
  destruct (Worker.visitChunk (w, l) (chunkId, chunkPosition, distanceAway))
    as [w1 l1].
  cbn [fst snd] in Hw, Hm. cbv zeta in Hm. destruct Hw as (Hs & Hb & Hc).
  specialize (IH w1 l1). cbv zeta in IH |- *.
  destruct IH as (IH1 & IH2 & IH3 & IH4 & IH5 & IH6).
  rewrite IH1, IH2, IH3, IH4, IH5, IH6, Hs, Hc, Hb.
  rewrite (inBounds_bounds _ _ _ Hb), inBounds_cons.
  destruct (Worker.chunkOutOfBounds (Worker.worker w) chunkPosition).
  { subst l1. repeat split; try done; set_solver. }
  destruct Hm as (Hm1 & Hm2 & Hm3). rewrite Hm1, Hm2, Hm3.
  repeat split; try done; case_decide; set_solver.
Qed.

(** After [regionChange] the tracked chunks are the enumerated chunks in
    bounds; those whose mesh was sent before are carried forward and the
    others are missing. *)
Lemma regionChange_meshes nearby w :
  let self := Worker.worker (Worker.regionChange nearby w) in
  let sent := Worker.sentClientMeshes (Worker.worker w) in
  let tracked := inBounds (Worker.worker w) nearby in
  dom (Worker.chunkDistances self) = tracked
  ∧ Worker.sentClientMeshes self = tracked ∩ sent
  ∧ Worker.clientMissingMeshes self = tracked ∖ sent.
Proof.
  unfold Worker.regionChange.
  pose proof (foldl_visitChunk_meshes nearby w Worker.noFresh) as H.
  destruct (foldl Worker.visitChunk (w, Worker.noFresh) nearby) as [w1 l1].
  cbn [fst snd] in H. cbv zeta in H. destruct H as (_ & _ & _ & H4 & H5 & H6).
  simpl. rewrite H4, H5, H6. simpl. set_solver.
Qed.

Lemma inBounds_all (self : Worker.State) nearby :
  Forall (λ e, Worker.chunkOutOfBounds self e.1.2 = false) nearby →
  inBounds self nearby = enumerated nearby.
Proof.
  intros H. unfold inBounds, enumerated.
  induction H as [|e nearby He _ IH]; [done|].
  rewrite filter_cons. case_decide; [|done]. simpl. by rewrite IH.
Qed.

(** C10: after [regionChange] every key of [chunkDistances] is in exactly
    one of [sentClientMeshes] and [clientMissingMeshes], and the two sets
    hold no other identifier. *)
Theorem regionChange_partition nearby w :
  let self := Worker.worker (Worker.regionChange nearby w) in
  dom (Worker.chunkDistances self)
  = Worker.sentClientMeshes self ∪ Worker.clientMissingMeshes self
  ∧ Worker.sentClientMeshes self ## Worker.clientMissingMeshes self.
Proof.
  destruct (regionChange_meshes nearby w) as (Hd & Hs & Hm).
  cbv zeta. rewrite Hd, Hs, Hm.
  split; [|set_solver].
  apply set_eq. intros chunkId.
  destruct (decide (chunkId ∈ Worker.sentClientMeshes (Worker.worker w)));
    set_solver.
Qed.


(** C8: a fetch that completes for a chunk that is no key of
    [chunkDistances] leaves the chunk cache as it was. *)
Theorem requestClosure_untracked (chunkId : string) (position : Position)
    (response : option (list Z)) w :
  chunkId ∉ dom (Worker.chunkDistances (Worker.worker w)) →
  Worker.chunkCache (Worker.requestClosure chunkId position response w)
  = Worker.chunkCache w
  ∧ Worker.chunkCache (Worker.requestClosure chunkId position response w) !! chunkId
    = Worker.chunkCache w !! chunkId.
Proof.
  intros H. unfold Worker.requestClosure.
  destruct response as [bytes|]; [|done].
  simpl. case_decide; done.
Qed.

End RegionChange.



Lemma requestClosure_untracked_A :
  Worker.chunkCache
    (Worker.requestClosure "A" (0, 0, 0) (Some [150]) Sample.untrackedWorld)
  = Worker.chunkCache Sample.untrackedWorld
  ∧ Worker.chunkCache
      (Worker.requestClosure "A" (0, 0, 0) (Some [150]) Sample.untrackedWorld)
      !! "A"
    = Worker.chunkCache Sample.untrackedWorld !! "A".
Proof.
  apply (requestClosure_untracked "A" (0, 0, 0) (Some [150]) Sample.untrackedWorld).
  intros H. apply elem_of_dom in H. destruct H as [d H].
  vm_compute in H. discriminate H.
Defined.

(** ** Delivery *)

Section Delivery.
Context {fl : Type}.
Context (mesher : gmap string ChunkCache.Chunk → Position → list Z →
                  option (gmap Z (Mesher.TextureMesh fl))).
Implicit Types (w : Worker.World fl).

Lemma meshCount_snoc (ms : list (Worker.Message fl)) m :
  Worker.meshCount (ms ++ [m])
  = (Worker.meshCount ms + (if Worker.isChunkMesh m then 1 else 0))%nat.
Proof.
  unfold Worker.meshCount. rewrite List.filter_app, length_app. simpl.
  destruct (Worker.isChunkMesh m); reflexivity.
Qed.

(** From index [i] on, the second loop of [processChunks] sends a mesh for
    at most every index below 10 and for one index more. *)
Lemma sendMeshes_count_le chunkIds : ∀ i w,
  (Worker.meshCount (Worker.posted (Worker.sendMeshes mesher i chunkIds w))
   ≤ Worker.meshCount (Worker.posted w) + (10 - i) + 1)%nat.
Proof.
  induction chunkIds as [|chunkId rest IH]; intros i w; simpl; [lia|].
  destruct (Worker.chunkCache w !! chunkId) as [chunk|].
  - destruct (Nat.ltb_spec 9 i) as [Hi|Hi].
    + simpl. rewrite meshCount_snoc. simpl. lia.
    + etransitivity; [apply IH|]. simpl. rewrite meshCount_snoc. simpl. lia.
  - etransitivity; [apply IH|]. lia.
Qed.

(** One call of [processChunks] sends at most eleven meshes. *)
Lemma processChunks_count_le w :
  (Worker.meshCount (Worker.posted (Worker.processChunks mesher w))
   ≤ Worker.meshCount (Worker.posted w) + 11)%nat.
Proof.
  unfold Worker.processChunks.
  etransitivity; [apply sendMeshes_count_le|].
  assert (H : ∀ chunkIds w',
    Worker.meshCount (Worker.posted (Worker.sendVoxels chunkIds w'))
    = Worker.meshCount (Worker.posted w')).
  { induction chunkIds as [|chunkId rest IH]; intros w'; simpl; [done|].
    destruct (Worker.chunkCache w' !! chunkId); rewrite IH; [|done].
    simpl. rewrite meshCount_snoc. simpl. lia. }
  rewrite H. lia.
Qed.

(** C6, on twelve cached chunks that all miss their mesh: one call of
    [processChunks] computes and sends eleven meshes and leaves one chunk in
    [clientMissingMeshes]. *)
Theorem processChunks_sends_eleven :
  Worker.meshCount
    (Worker.posted (Worker.processChunks mesher (Sample.twelveWorld fl)))
  = 11%nat
  ∧ size (Worker.clientMissingMeshes
            (Worker.worker (Worker.processChunks mesher (Sample.twelveWorld fl))))
    = 1%nat.
Proof. split; vm_compute; reflexivity. Qed.

End Delivery.

(** ** The state monad *)

Lemma bind_Some {S A B} (c : M S A) (k : A → M S B) s a s' :
  c s = Some (a, s') → bind c k s = k a s'.
Proof. unfold bind. by intros ->. Qed.

Lemma foldM_app {S A B} (f : A → B → M S A) l1 l2 : ∀ a s,
  foldM f (l1 ++ l2) a s = bind (foldM f l1 a) (foldM f l2) s.
Proof.
  induction l1 as [|b l1 IH]; intros a s; simpl; [reflexivity|].
  unfold bind in *. destruct (f a b s) as [[a' s']|]; [|reflexivity].
  apply IH.
Qed.

Lemma returns_ret {S A} (a : A) (Q : A → Prop) : Q a → returns (@ret S A a) Q.
Proof. intros H s. exists a, s. done. Qed.

Lemma returns_bind {S A B} (c : M S A) (k : A → M S B)
    (P : A → Prop) (Q : B → Prop) :
  returns c P → (∀ a, P a → returns (k a) Q) → returns (bind c k) Q.
Proof.
  intros Hc Hk s. destruct (Hc s) as (a & s' & Hcs & Ha).
  unfold bind. rewrite Hcs. apply Hk, Ha.
Qed.

Lemma returns_foldM {S A B} (f : A → B → M S A) (P : A → Prop) l :
  (∀ a b, P a → returns (f a b) P) → ∀ a, P a → returns (foldM f l a) P.
Proof.
  intros Hf. induction l as [|b l IH]; intros a Ha; simpl.
  - by apply returns_ret.
  - eapply returns_bind; [by apply Hf|]. intros a' Ha'. by apply IH.
Qed.

Lemma returns_weaken {S A} (c : M S A) (P Q : A → Prop) :
  returns c P → (∀ a, P a → Q a) → returns c Q.
Proof.
  intros Hc HPQ s. destruct (Hc s) as (a & s' & Hcs & Ha). eauto.
Qed.

(** ** Run merging *)

Section RunMerging.
Context {fl : Type} (ofZ : Z → fl).
Context {Pool : Type} (malloc : nat → Pool → list fl * Pool).
Context (cfg : Mesher.Config fl).
Context (basePosition : Position) (vs : list Z).
Context (v : Z) (info : Mesher.Textures).
Context (Hv : v ≠ 0).
Context (Hinfo : Mesher.voxelsToTextures cfg !! effectiveMaterial cfg v = Some info).

Lemma withFallbackLines_S (n : nat) (g : Mesher.Globals fl Pool) :
  withFallbackLines cfg v 1 (withFallbackLines cfg v n g)
  = withFallbackLines cfg v (S n) g.
Proof.
  unfold withFallbackLines. cbn [Mesher.out Mesher.pool Mesher.console].
  f_equal. rewrite <- app_assoc. f_equal.
  case_decide; [done|]. symmetry. apply replicate_S_end.
Qed.

(** A cell of value [v] is swept as the material [effectiveMaterial cfg v],
    after the fallback line if there is one. *)
Lemma visit_known (x y z : nat) adjacent g :
  Mesher.visit ofZ malloc cfg basePosition vs x y z (Some v) adjacent g
  = Mesher.forFaces
      (Mesher.sweepFace ofZ malloc cfg basePosition vs (effectiveMaterial cfg v)
         (Z.of_nat x) (Z.of_nat y) (Z.of_nat z)) adjacent
      (withFallbackLines cfg v 1 g).
Proof.
  unfold Mesher.visit, Mesher.materialOf, effectiveMaterial, withFallbackLines.
  destruct (decide (v ∈ dom (Mesher.voxelsToTextures cfg))) as [Hin|Hn].
  - rewrite app_nil_r. destruct g. destruct v; [done|reflexivity|reflexivity].
  - destruct v; [done|reflexivity|reflexivity].
Qed.

(** On cells whose faces are free, a sweep opens a run at the first cell. *)
Lemma forFaces_start faces (x y z : nat) g :
  unblocked cfg basePosition vs info faces x y z →
  Mesher.forFaces
    (Mesher.sweepFace ofZ malloc cfg basePosition vs (effectiveMaterial cfg v)
       (Z.of_nat x) (Z.of_nat y) (Z.of_nat z))
    (map (λ face, (face, None)) faces) g
  = Some (merged info faces (Z.of_nat x, Z.of_nat y, Z.of_nat z)
            (Z.of_nat x, Z.of_nat y, Z.of_nat z), g).
Proof.
  revert g. induction faces as [|face faces IH]; intros g Hu; [done|].
  simpl. unfold bind at 1. unfold Mesher.sweepFace at 1.
  unfold Mesher.faceTextureOf. rewrite Hinfo. unfold bind at 1, ret at 1.
  rewrite (Hu face) by set_solver. unfold ret at 1.
  unfold bind at 1. rewrite IH by (intros f Hf; apply Hu; set_solver).
  reflexivity.
Qed.

(** ... and moves the end of the open runs at every further cell. *)
Lemma forFaces_extend faces (x y z : nat) (s e : Position) g :
  unblocked cfg basePosition vs info faces x y z →
  Mesher.forFaces
    (Mesher.sweepFace ofZ malloc cfg basePosition vs (effectiveMaterial cfg v)
       (Z.of_nat x) (Z.of_nat y) (Z.of_nat z))
    (merged info faces s e) g
  = Some (merged info faces s (Z.of_nat x, Z.of_nat y, Z.of_nat z), g).
Proof.
  revert g. induction faces as [|face faces IH]; intros g Hu; [done|].
  simpl. unfold bind at 1. unfold Mesher.sweepFace at 1.
  unfold Mesher.faceTextureOf. rewrite Hinfo. unfold bind at 1, ret at 1.
  rewrite (Hu face) by set_solver. simpl. rewrite Z.eqb_refl. unfold ret at 1.
  unfold bind at 1. rewrite IH by (intros f Hf; apply Hu; set_solver).
  reflexivity.
Qed.

(** A sweep over the cells [cell 0 .. cell k], read as [read 0 .. read k]:
    nothing is written, one run per face is left open. *)
Lemma sweep_merged faces (cell : nat → nat * nat * nat) (read : nat → option Z)
    (k : nat) g :
  (∀ i, (i ≤ k)%nat → read i = Some v) →
  (∀ i, (i ≤ k)%nat →
     unblocked cfg basePosition vs info faces (cell i).1.1 (cell i).1.2 (cell i).2) →
  let pos i := (Z.of_nat (cell i).1.1, Z.of_nat (cell i).1.2, Z.of_nat (cell i).2) in
  foldM (λ adjacent i,
           Mesher.visit ofZ malloc cfg basePosition vs
             (cell i).1.1 (cell i).1.2 (cell i).2 (read i) adjacent)
        (seq 0 (S k)) (map (λ face, (face, None)) faces) g
  = Some (merged info faces (pos 0%nat) (pos k), withFallbackLines cfg v (S k) g).
Proof.
  intros Hm Hu pos. induction k as [|k IH].
  - simpl. unfold bind. rewrite Hm by lia. rewrite visit_known.
    rewrite forFaces_start by (apply Hu; lia). reflexivity.
  - rewrite seq_S, foldM_app.
    erewrite bind_Some by (apply IH; intros; [apply Hm|apply Hu]; lia).
    simpl. unfold bind. rewrite Hm by lia. rewrite visit_known.
    rewrite forFaces_extend by (apply Hu; lia).
    by rewrite withFallbackLines_S.
Qed.

Lemma pushAll_offset (b : Mesher.Buffer fl) (l : list fl) :
  Mesher.offset (Mesher.pushAll b l) = (Mesher.offset b + length l)%nat.
Proof.
  revert b. induction l as [|a l IH]; intros b; simpl; [lia|].
  unfold Mesher.pushAll in *. simpl. rewrite IH. simpl. lia.
Qed.

(** The values written into a buffer with room for them are found at the
    old offset. *)
Lemma pushAll_written (b : Mesher.Buffer fl) (l : list fl) :
  (Mesher.offset b + length l ≤ length (Mesher.data b))%nat →
  take (length l) (drop (Mesher.offset b) (Mesher.data (Mesher.pushAll b l))) = l.
Proof.
  intros Hroom.
  assert (Hdata : ∀ (l : list fl) o d, (o + length l ≤ length d)%nat →
            Mesher.data (Mesher.pushAll (Mesher.mkBuffer o d) l)
            = take o d ++ l ++ drop (o + length l) d).
  { clear. induction l as [|a l IH]; intros o d H; cbn [length] in H.
    - cbn. by rewrite Nat.add_0_r, take_drop.
    - change (Mesher.pushAll (Mesher.mkBuffer o d) (a :: l))
        with (Mesher.pushAll (Mesher.mkBuffer (S o) (<[o := a]> d)) l).
      rewrite IH by (rewrite length_insert; lia).
      rewrite (take_S_r _ _ a) by (apply list_lookup_insert_eq; lia).
      rewrite take_insert_ge by lia. rewrite drop_insert_lt by lia.
      rewrite <- app_assoc. cbn [app length].
      by replace (o + S (length l))%nat with (S o + length l)%nat by lia. }
  destruct b as [o d]. cbn [Mesher.offset Mesher.data] in *.
  rewrite Hdata by done.
  rewrite drop_app_length' by (rewrite length_take; lia).
  apply take_app_length.
Qed.

Lemma facePoints_length face sx sy sz ex ey ez :
  length (Mesher.facePoints face sx sy sz ex ey ez) = 18%nat.
Proof. by destruct face. Qed.

Lemma faceNormals_length face : length (Mesher.faceNormals face) = 18%nat.
Proof. by destruct face. Qed.

Lemma faceTexcoords_length face offsets sx sy sz ex ey ez :
  length (Mesher.faceTexcoords ofZ face offsets sx sy sz ex ey ez) = 12%nat.
Proof. destruct offsets as [[tb tt] tr]. by destruct face. Qed.

(** One [addFace] writes six vertices: 18 positions, 12 texture coordinates
    and 18 normals under the texture of the run. *)
Lemma addFace_offsets face (r : Mesher.Run) g g' :
  Mesher.addFace ofZ malloc cfg basePosition face r g = Some (tt, g') →
  let '(p, t, n) := meshOffsets (Mesher.out g) (Mesher.textureValue r) in
  meshOffsets (Mesher.out g') (Mesher.textureValue r)
  = (p + 18, t + 12, n + 18)%nat.
Proof.
  unfold Mesher.addFace, meshOffsets.
  destruct basePosition as [[b0 b1] b2], r as [tv [[s0 s1] s2] [[e0 e1] e2]].
  cbn [Mesher.textureValue Mesher.start Mesher.end_].
  unfold bind, Mesher.textureMeshOf, Mesher.offsetsOf, Mesher.storeTextureMesh.
  destruct (Mesher.out g !! tv) as [tm|] eqn:Hout.
  - destruct (Mesher.textureOffsets cfg !! tv) as [offsets|]; [|done].
    unfold ret. intros [= <-]. cbn [Mesher.out]. rewrite lookup_insert_eq.
    cbn [Mesher.position Mesher.texcoord Mesher.normal].
    rewrite !pushAll_offset, !length_map, facePoints_length,
      faceNormals_length, faceTexcoords_length. done.
  - destruct (malloc Mesher.bufferSize (Mesher.pool g)) as [d1 p1].
    destruct (malloc Mesher.bufferSize p1) as [d2 p2].
    destruct (malloc Mesher.bufferSize p2) as [d3 p3].
    destruct (Mesher.textureOffsets cfg !! tv) as [offsets|]; [|done].
    unfold ret. intros [= <-]. cbn [Mesher.out]. rewrite lookup_insert_eq.
    cbn [Mesher.position Mesher.texcoord Mesher.normal].
    rewrite !pushAll_offset, !length_map, facePoints_length,
      faceNormals_length, faceTexcoords_length. done.
Qed.

Lemma pushAll_data_length (b : Mesher.Buffer fl) (l : list fl) :
  length (Mesher.data (Mesher.pushAll b l)) = length (Mesher.data b).
Proof.
  revert b. induction l as [|a l IH]; intros b; [done|].
  change (Mesher.pushAll b (a :: l)) with (Mesher.pushAll (Mesher.push b a) l).
  rewrite IH. simpl. apply length_insert.
Qed.

(** The three buffers after a quad was written into a texture mesh. *)
Lemma quad_in_buffers face offsets sx sy sz ex ey ez (tm : Mesher.TextureMesh fl) :
  let tm' :=
    Mesher.mkTextureMesh
      (Mesher.pushAll (Mesher.position tm)
         (map ofZ (Mesher.facePoints face sx sy sz ex ey ez)))
      (Mesher.pushAll (Mesher.texcoord tm)
         (Mesher.faceTexcoords ofZ face offsets sx sy sz ex ey ez))
      (Mesher.pushAll (Mesher.normal tm) (map ofZ (Mesher.faceNormals face))) in
  let p := Mesher.offset (Mesher.position tm) in
  let t := Mesher.offset (Mesher.texcoord tm) in
  let n := Mesher.offset (Mesher.normal tm) in
  ((p + 18 ≤ length (Mesher.data (Mesher.position tm')))%nat →
   take 18 (drop p (Mesher.data (Mesher.position tm')))
   = map ofZ (Mesher.facePoints face sx sy sz ex ey ez))
  ∧ ((t + 12 ≤ length (Mesher.data (Mesher.texcoord tm')))%nat →
     take 12 (drop t (Mesher.data (Mesher.texcoord tm')))
     = Mesher.faceTexcoords ofZ face offsets sx sy sz ex ey ez)
  ∧ ((n + 18 ≤ length (Mesher.data (Mesher.normal tm')))%nat →
     take 18 (drop n (Mesher.data (Mesher.normal tm')))
     = map ofZ (Mesher.faceNormals face)).
Proof.
  cbv zeta. cbn [Mesher.position Mesher.texcoord Mesher.normal].
  rewrite !pushAll_data_length.
  split; [|split]; intros Hroom.
  - rewrite <- (facePoints_length face sx sy sz ex ey ez) at 1.
    rewrite <- (length_map ofZ). apply pushAll_written.
    by rewrite length_map, facePoints_length.
  - rewrite <- (faceTexcoords_length face offsets sx sy sz ex ey ez) at 1.
    apply pushAll_written. by rewrite faceTexcoords_length.
  - rewrite <- (faceNormals_length face) at 1.
    rewrite <- (length_map ofZ). apply pushAll_written.
    by rewrite length_map, faceNormals_length.
Qed.

(** [addFace] on a run whose texture has its offsets returns, and emits the
    quad of the run. *)
Lemma addFace_quad face (r : Mesher.Run) g :
  Mesher.textureValue r ∈ dom (Mesher.textureOffsets cfg) →
  ∃ g', Mesher.addFace ofZ malloc cfg basePosition face r g = Some (tt, g')
        ∧ quadWritten ofZ cfg basePosition face r g g'.
Proof.
  intros Hr. apply elem_of_dom in Hr as [offsets Hr].
  unfold quadWritten, quadCorners, Mesher.addFace, meshOffsets.
  destruct basePosition as [[b0 b1] b2], r as [tv [[s0 s1] s2] [[e0 e1] e2]].
  cbn [Mesher.textureValue Mesher.start Mesher.end_] in *.
  unfold bind, Mesher.textureMeshOf, Mesher.offsetsOf, Mesher.storeTextureMesh.
  rewrite Hr. unfold ret.
  destruct (Mesher.out g !! tv) as [tm|] eqn:Hout.
  - eexists. split; [reflexivity|]. cbn [Mesher.out Mesher.console].
    eexists _, offsets. rewrite lookup_insert_eq.
    split; [reflexivity|]. split; [done|].
    split; [intros tv' Hne; by rewrite lookup_insert_ne|]. split; [done|].
    split.
    { cbn [Mesher.position Mesher.texcoord Mesher.normal].
      rewrite !pushAll_offset, !length_map, facePoints_length,
        faceNormals_length, faceTexcoords_length. done. }
    apply quad_in_buffers.
  - destruct (malloc Mesher.bufferSize (Mesher.pool g)) as [d1 p1].
    destruct (malloc Mesher.bufferSize p1) as [d2 p2].
    destruct (malloc Mesher.bufferSize p2) as [d3 p3].
    eexists. split; [reflexivity|]. cbn [Mesher.out Mesher.console].
    eexists _, offsets. rewrite lookup_insert_eq.
    split; [reflexivity|]. split; [done|].
    split; [intros tv' Hne; by rewrite !lookup_insert_ne|]. split; [done|].
    split.
    { cbn [Mesher.position Mesher.texcoord Mesher.normal].
      rewrite !pushAll_offset, !length_map, facePoints_length,
        faceNormals_length, faceTexcoords_length. done. }
    apply (quad_in_buffers face offsets _ _ _ _ _ _
             (Mesher.mkTextureMesh (Mesher.mkBuffer 0 d1) (Mesher.mkBuffer 0 d2)
                (Mesher.mkBuffer 0 d3))).
Qed.


End RunMerging.

(** ** The decision on one face *)

Section FaceDecision.
Context {fl : Type} (ofZ : Z → fl).
Context {Pool : Type} (malloc : nat → Pool → list fl * Pool).
Context (cfg : Mesher.Config fl).
Context (basePosition : Position) (vs : list Z).

Lemma isFaceBlocked_opposingVoxel face (x y z current : Z) :
  Mesher.isFaceBlocked (Mesher.Coordinator_ cfg) (Mesher.chunkCache cfg)
    basePosition vs (Z.of_nat (Mesher.chunkSize cfg)) face x y z current
  = match opposingVoxel cfg basePosition vs face x y z with
    | Some opposing => Mesher.shouldSkipFace current opposing
    | None => false
    end.
Proof.
  unfold Mesher.isFaceBlocked, opposingVoxel.
  destruct (Mesher.opposing face x y z) as [[ox oy] oz].
  destruct (Mesher.outsideChunk _ _); [|done].
  destruct basePosition as [[bx by_] bz].
  by destruct (Mesher.chunkCache cfg !! _).
Qed.


End FaceDecision.

(** ** Termination of a mesh pass *)

Section Totality.
Context {fl : Type} (ofZ : Z → fl).
Context {Pool : Type} (malloc : nat → Pool → list fl * Pool).
Context (cfg : Mesher.Config fl).
Context (Hcomplete : tablesComplete cfg).
Context (basePosition : Position) (vs : list Z).

Lemma addFace_returns face r :
  Mesher.textureValue r ∈ dom (Mesher.textureOffsets cfg) →
  returns (Mesher.addFace ofZ malloc cfg basePosition face r) (λ _, True).
Proof.
  intros Hr g. apply elem_of_dom in Hr as [offsets Hr].
  unfold Mesher.addFace.
  destruct basePosition as [[b0 b1] b2], r as [tv [[s0 s1] s2] [[e0 e1] e2]].
  cbn [Mesher.textureValue Mesher.start Mesher.end_] in *.
  unfold bind, Mesher.textureMeshOf, Mesher.offsetsOf, Mesher.storeTextureMesh.
  rewrite Hr. unfold ret.
  destruct (Mesher.out g !! tv) as [tm|]; [eauto|].
  destruct (malloc Mesher.bufferSize (Mesher.pool g)) as [d1 p1].
  destruct (malloc Mesher.bufferSize p1) as [d2 p2].
  destruct (malloc Mesher.bufferSize p2) as [d3 p3]. eauto.
Qed.

Lemma addFaces_returns adjacent :
  runsKnown cfg adjacent →
  returns (Mesher.addFaces ofZ malloc cfg basePosition adjacent) (λ _, True).
Proof.
  induction adjacent as [|[face [r|]] rest IH]; intros Hk; simpl.
  - by apply returns_ret.
  - eapply returns_bind.
    + apply addFace_returns. apply (Hk face). set_solver.
    + intros _ _. apply IH. intros f r' Hin. apply (Hk f). set_solver.
  - apply IH. intros f r' Hin. apply (Hk f). set_solver.
Qed.

Lemma resetFaces_known adjacent : runsKnown cfg (Mesher.resetFaces adjacent).
Proof.
  intros face r Hin. unfold Mesher.resetFaces in Hin.
  apply list_elem_of_fmap in Hin as (e & He & _). done.
Qed.

Lemma materialOf_returns v :
  returns (Mesher.materialOf (Pool:=Pool) cfg v)
    (λ m, m ∈ dom (Mesher.voxelsToTextures cfg)).
Proof.
  destruct Hcomplete as [H3 _]. unfold Mesher.materialOf.
  assert (Hfallback : returns
    (Mesher.log (fl:=fl) (Pool:=Pool) "falling back to 3" ;;; ret 3)
    (λ m, m ∈ dom (Mesher.voxelsToTextures cfg))).
  { intros g. eexists _, _. split; [reflexivity|done]. }
  destruct v as [v|]; [|done].
  case_decide; [by apply returns_ret|done].
Qed.

Lemma sweepFace_returns m x y z face cur :
  m ∈ dom (Mesher.voxelsToTextures cfg) →
  runKnown cfg cur →
  returns (Mesher.sweepFace ofZ malloc cfg basePosition vs m x y z face cur)
    (runKnown cfg).
Proof.
  intros Hm Hcur. apply elem_of_dom in Hm as [info Hinfo].
  destruct Hcomplete as [_ Htex]. specialize (Htex m info face Hinfo).
  unfold Mesher.sweepFace, Mesher.faceTextureOf. rewrite Hinfo.
  eapply returns_bind;
    [apply (returns_ret _ (λ tv, tv = Mesher.textureAt info (Mesher.faceIndex face)));
     reflexivity|].
  intros tv ->.
  assert (Hnew : runKnown cfg
            (Some (Mesher.newRun (Mesher.textureAt info (Mesher.faceIndex face)) x y z))).
  { intros r [= <-]. exact Htex. }
  destruct (Mesher.isFaceBlocked _ _ _ _ _ _ _ _ _ _).
  - destruct cur as [r|].
    + eapply returns_bind; [by apply addFace_returns, Hcur|].
      intros _ _. by apply returns_ret.
    + by apply returns_ret.
  - destruct cur as [r|].
    + destruct (Mesher.textureValue r =? _).
      * apply returns_ret. intros r' [= <-]. simpl. by apply Hcur.
      * eapply returns_bind; [by apply addFace_returns, Hcur|].
        intros _ _. by apply returns_ret.
    + by apply returns_ret.
Qed.

Lemma forFaces_returns body adjacent :
  (∀ face cur, runKnown cfg cur → returns (body face cur) (runKnown cfg)) →
  runsKnown cfg adjacent →
  returns (Mesher.forFaces (fl:=fl) (Pool:=Pool) body adjacent) (runsKnown cfg).
Proof.
  intros Hbody. induction adjacent as [|[face cur] rest IH]; intros Hk; simpl.
  - apply returns_ret. intros f r Hin. set_solver.
  - eapply returns_bind.
    + apply Hbody. intros r ->. apply (Hk face). set_solver.
    + intros cur' Hcur'. eapply returns_bind.
      * apply IH. intros f r Hin. apply (Hk f). set_solver.
      * intros rest' Hrest'. apply returns_ret. intros f r Hin.
        apply elem_of_cons in Hin as [[= -> <-]|Hin]; [by apply Hcur'|].
        by apply (Hrest' f).
Qed.

Lemma visit_returns x y z v adjacent :
  runsKnown cfg adjacent →
  returns (Mesher.visit ofZ malloc cfg basePosition vs x y z v adjacent)
    (runsKnown cfg).
Proof.
  intros Hk.
  assert (Hsweep : returns
    (voxelTextureValue <~ Mesher.materialOf cfg v ;;
     Mesher.forFaces
       (Mesher.sweepFace ofZ malloc cfg basePosition vs voxelTextureValue
          (Z.of_nat x) (Z.of_nat y) (Z.of_nat z)) adjacent)
    (runsKnown cfg)).
  { eapply returns_bind; [apply materialOf_returns|]. intros m Hm.
    apply forFaces_returns; [|done]. intros face cur Hcur.
    by apply sweepFace_returns. }
  unfold Mesher.visit. destruct v as [[|p|p]|]; try exact Hsweep.
  eapply returns_bind; [by apply addFaces_returns|].
  intros _ _. apply returns_ret, resetFaces_known.
Qed.

Lemma rowX_returns y z adjacent :
  returns (Mesher.rowX ofZ malloc cfg basePosition vs y z adjacent) (runsKnown cfg).
Proof.
  unfold Mesher.rowX. eapply returns_bind.
  - apply (returns_foldM _ (runsKnown cfg)); [|apply resetFaces_known].
    intros a b Ha. by apply visit_returns.
  - intros a Ha. eapply returns_bind; [by apply addFaces_returns|].
    intros _ _. apply returns_ret, resetFaces_known.
Qed.

Lemma rowZ_returns y x adjacent :
  returns (Mesher.rowZ ofZ malloc cfg basePosition vs y x adjacent) (runsKnown cfg).
Proof.
  unfold Mesher.rowZ. eapply returns_bind.
  - apply (returns_foldM _ (runsKnown cfg)); [|apply resetFaces_known].
    intros a b Ha. by apply visit_returns.
  - intros a Ha. eapply returns_bind; [by apply addFaces_returns|].
    intros _ _. apply returns_ret, resetFaces_known.
Qed.

(** With complete tables [calculate] never throws. *)
Lemma calculate_returns :
  returns (Mesher.calculate ofZ malloc cfg basePosition vs) (λ _, True).
Proof.
  unfold Mesher.calculate.
  apply (returns_foldM _ (λ _, True)); [|done]. intros [] y _.
  unfold Mesher.slice.
  eapply returns_bind.
  { apply (returns_foldM _ (λ _, True)); [|done]. intros a z _.
    eapply returns_weaken; [apply rowX_returns|done]. }
  intros _ _. eapply returns_bind.
  { apply (returns_foldM _ (λ _, True)); [|done]. intros a x _.
    eapply returns_weaken; [apply rowZ_returns|done]. }
  intros _ _. by apply returns_ret.
Qed.

End Totality.

Section MeshNull.
Context {fl : Type} (ofZ : Z → fl).
Context {Pool : Type} (malloc : nat → Pool → list fl * Pool).
Context (cfg : Mesher.Config fl).

(** C7, amended: [mesh] returns [null], after logging a line, when the
    voxels are absent or of length zero, and only then; on a non-empty voxel
    array, with tables that hold the fallback material and the offsets of
    every texture, it returns an output mapping. *)
Theorem mesh_null_iff_empty (position : Position) (voxels : option (list Z))
    (g : Mesher.Globals fl Pool) :
  (voxels = None ∨ voxels = Some [] →
   Mesher.mesh ofZ malloc cfg position voxels g
   = Some (None,
           Mesher.mkGlobals (Mesher.out g) (Mesher.pool g)
             (Mesher.console g ++ ["Empty voxels"])))
  ∧ (∀ g', Mesher.mesh ofZ malloc cfg position voxels g = Some (None, g') →
     voxels = None ∨ voxels = Some [])
  ∧ (tablesComplete cfg → ∀ v l, voxels = Some (v :: l) →
     ∃ o g', Mesher.mesh ofZ malloc cfg position voxels g = Some (Some o, g')).
Proof.
  split; [|split].
  - intros [-> | ->]; reflexivity.
  - intros g'. destruct voxels as [[|v l]|]; [by right|  |by left].
    simpl. unfold bind.
    destruct (Mesher.calculate _ _ _ _ _ _) as [[[] g'']|]; done.
  - intros Hc v l ->. simpl. unfold bind.
    destruct (calculate_returns ofZ malloc cfg Hc position (v :: l)
                (Mesher.mkGlobals ∅ (Mesher.pool g) (Mesher.console g)))
      as ([] & g' & -> & _).
    eauto.
Qed.

End MeshNull.

(** ** Two mesh passes on the same input *)

Section Agreement.
Context {fl : Type} (ofZ : Z → fl).
Context {Pool : Type} (malloc : nat → Pool → list fl * Pool).
Context (cfg : Mesher.Config fl).
Context (Hmalloc : ∀ n p, length (malloc n p).1 = n).
Context (basePosition : Position) (vs : list Z).

Lemma agrees_ret {A} (a : A) : agrees (@ret (Mesher.Globals fl Pool) A a).
Proof. intros g1 g2 H. simpl. done. Qed.

Lemma agrees_throw {A} : agrees (@throw (Mesher.Globals fl Pool) A).
Proof. intros g1 g2 H. done. Qed.

Lemma agrees_log line : agrees (Mesher.log (fl:=fl) (Pool:=Pool) line).
Proof. intros g1 g2 H. simpl. done. Qed.

Lemma agrees_bind {A B} (c : M (Mesher.Globals fl Pool) A)
    (k : A → M (Mesher.Globals fl Pool) B) :
  agrees c → (∀ a, agrees (k a)) → agrees (bind c k).
Proof.
  intros Hc Hk g1 g2 H. specialize (Hc g1 g2 H). unfold bind.
  destruct (c g1) as [[a1 g1']|], (c g2) as [[a2 g2']|]; try done.
  destruct Hc as [-> H']. by apply Hk.
Qed.

Lemma agrees_foldM {A B} (f : A → B → M (Mesher.Globals fl Pool) A) l :
  (∀ a b, agrees (f a b)) → ∀ a, agrees (foldM f l a).
Proof.
  intros Hf. induction l as [|b l IH]; intros a; simpl.
  - apply agrees_ret.
  - apply agrees_bind; [apply Hf|apply IH].
Qed.

(** A write keeps two buffers alike, in range or not. *)
Lemma alikeBuffer_push (b1 b2 : Mesher.Buffer fl) v :
  alikeBuffer b1 b2 → alikeBuffer (Mesher.push b1 v) (Mesher.push b2 v).
Proof.
  destruct b1 as [o1 d1], b2 as [o2 d2].
  unfold alikeBuffer, sameBuffer, Mesher.push. simpl.
  intros [[<- Ht] Hl]. rewrite !length_insert. split; [split|]; try done.
  destruct (decide (o1 < length d1)%nat) as [Hlt|Hge].
  - rewrite (take_S_r _ _ v) by (by apply list_lookup_insert_eq).
    rewrite (take_S_r (<[o1:=v]> d2) _ v)
      by (apply list_lookup_insert_eq; lia).
    rewrite !take_insert_ge by lia. by rewrite Ht.
  - rewrite !list_insert_ge by lia.
    rewrite !take_ge in Ht by lia. rewrite !take_ge by lia. done.
Qed.

Lemma alikeBuffer_pushAll l : ∀ b1 b2 : Mesher.Buffer fl,
  alikeBuffer b1 b2 → alikeBuffer (Mesher.pushAll b1 l) (Mesher.pushAll b2 l).
Proof.
  unfold Mesher.pushAll. induction l as [|v l IH]; intros b1 b2 H; simpl; [done|].
  apply IH. by apply alikeBuffer_push.
Qed.

Lemma alikeBuffer_fresh (d1 d2 : list fl) :
  length d1 = length d2 →
  alikeBuffer (Mesher.mkBuffer 0 d1) (Mesher.mkBuffer 0 d2).
Proof. intros H. unfold alikeBuffer, sameBuffer. simpl. done. Qed.

Lemma alike_insert (o1 o2 : gmap Z (Mesher.TextureMesh fl)) tv t1 t2 :
  (∀ tv', option_Forall2 alikeTextureMesh (o1 !! tv') (o2 !! tv')) →
  alikeTextureMesh t1 t2 →
  ∀ tv', option_Forall2 alikeTextureMesh
           (<[tv := t1]> o1 !! tv') (<[tv := t2]> o2 !! tv').
Proof.
  intros H Ht tv'. destruct (decide (tv = tv')) as [<-|Hne].
  - rewrite !lookup_insert_eq. by constructor.
  - rewrite !lookup_insert_ne by done. apply H.
Qed.

Lemma agrees_addFace face r :
  agrees (Mesher.addFace ofZ malloc cfg basePosition face r).
Proof.
  intros g1 g2 H. unfold Mesher.addFace.
  destruct basePosition as [[b0 b1] b2], r as [tv [[s0 s1] s2] [[e0 e1] e2]].
  cbn [Mesher.textureValue Mesher.start Mesher.end_].
  unfold bind, Mesher.textureMeshOf, Mesher.offsetsOf, Mesher.storeTextureMesh.
  pose proof (H tv) as Htv.
  destruct (Mesher.textureOffsets cfg !! tv) as [offsets|] eqn:Hoff.
  - unfold ret.
    destruct Htv as [t1 t2 (Hp & Ht & Hn)|].
    + split; [done|]. unfold alike. cbn [Mesher.out Mesher.pool Mesher.console].
      apply alike_insert; [done|].
      repeat split; cbn [Mesher.position Mesher.texcoord Mesher.normal];
        apply alikeBuffer_pushAll; first [apply Hp|apply Ht|apply Hn].
    + pose proof (Hmalloc Mesher.bufferSize (Mesher.pool g1)) as L1.
      pose proof (Hmalloc Mesher.bufferSize (Mesher.pool g2)) as L1'.
      destruct (malloc Mesher.bufferSize (Mesher.pool g1)) as [d1 p1].
      destruct (malloc Mesher.bufferSize (Mesher.pool g2)) as [d1' p1'].
      pose proof (Hmalloc Mesher.bufferSize p1) as L2.
      pose proof (Hmalloc Mesher.bufferSize p1') as L2'.
      destruct (malloc Mesher.bufferSize p1) as [d2 p2].
      destruct (malloc Mesher.bufferSize p1') as [d2' p2'].
      pose proof (Hmalloc Mesher.bufferSize p2) as L3.
      pose proof (Hmalloc Mesher.bufferSize p2') as L3'.
      destruct (malloc Mesher.bufferSize p2) as [d3 p3].
      destruct (malloc Mesher.bufferSize p2') as [d3' p3'].
      cbn [fst] in *.
      split; [done|]. unfold alike. cbn [Mesher.out Mesher.pool Mesher.console].
      apply alike_insert.
      * apply alike_insert; [done|].
        repeat split;
          cbn [Mesher.position Mesher.texcoord Mesher.normal
               Mesher.offset Mesher.data];
          congruence.
      * repeat split; cbn [Mesher.position Mesher.texcoord Mesher.normal];
          apply alikeBuffer_pushAll, alikeBuffer_fresh; congruence.
  - destruct Htv as [t1 t2 _|]; [done|].
    destruct (malloc Mesher.bufferSize (Mesher.pool g1)) as [d1 p1].
    destruct (malloc Mesher.bufferSize (Mesher.pool g2)) as [d1' p1'].
    destruct (malloc Mesher.bufferSize p1) as [d2 p2].
    destruct (malloc Mesher.bufferSize p1') as [d2' p2'].
    destruct (malloc Mesher.bufferSize p2) as [d3 p3].
    destruct (malloc Mesher.bufferSize p2') as [d3' p3']. done.
Qed.

Lemma agrees_addFaces adjacent :
  agrees (Mesher.addFaces ofZ malloc cfg basePosition adjacent).
Proof.
  induction adjacent as [|[face [r|]] rest IH]; simpl.
  - apply agrees_ret.
  - apply agrees_bind; [apply agrees_addFace|done].
  - done.
Qed.

Lemma agrees_materialOf v : agrees (Mesher.materialOf (Pool:=Pool) cfg v).
Proof.
  unfold Mesher.materialOf. destruct v as [v|].
  - case_decide; [apply agrees_ret|].
    apply agrees_bind; [apply agrees_log|intros; apply agrees_ret].
  - apply agrees_bind; [apply agrees_log|intros; apply agrees_ret].
Qed.

Lemma agrees_sweepFace m x y z face cur :
  agrees (Mesher.sweepFace ofZ malloc cfg basePosition vs m x y z face cur).
Proof.
  unfold Mesher.sweepFace. apply agrees_bind.
  { unfold Mesher.faceTextureOf.
    destruct (Mesher.voxelsToTextures cfg !! m);
      [apply agrees_ret|apply agrees_throw]. }
  intros tv. destruct (Mesher.isFaceBlocked _ _ _ _ _ _ _ _ _ _).
  - destruct cur as [r|]; [|apply agrees_ret].
    apply agrees_bind; [apply agrees_addFace|intros; apply agrees_ret].
  - destruct cur as [r|]; [|apply agrees_ret].
    destruct (Mesher.textureValue r =? tv); [apply agrees_ret|].
    apply agrees_bind; [apply agrees_addFace|intros; apply agrees_ret].
Qed.

Lemma agrees_forFaces body adjacent :
  (∀ face cur, agrees (body face cur)) →
  agrees (Mesher.forFaces (fl:=fl) (Pool:=Pool) body adjacent).
Proof.
  intros Hbody. induction adjacent as [|[face cur] rest IH]; simpl.
  - apply agrees_ret.
  - apply agrees_bind; [apply Hbody|]. intros cur'.
    apply agrees_bind; [apply IH|]. intros rest'. apply agrees_ret.
Qed.

Lemma agrees_visit x y z v adjacent :
  agrees (Mesher.visit ofZ malloc cfg basePosition vs x y z v adjacent).
Proof.
  assert (Hsweep : agrees
    (voxelTextureValue <~ Mesher.materialOf cfg v ;;
     Mesher.forFaces
       (Mesher.sweepFace ofZ malloc cfg basePosition vs voxelTextureValue
          (Z.of_nat x) (Z.of_nat y) (Z.of_nat z)) adjacent)).
  { apply agrees_bind; [apply agrees_materialOf|]. intros m.
    apply agrees_forFaces. intros face cur. apply agrees_sweepFace. }
  unfold Mesher.visit. destruct v as [[|p|p]|]; try exact Hsweep.
  apply agrees_bind; [apply agrees_addFaces|intros; apply agrees_ret].
Qed.

Lemma agrees_calculate :
  agrees (Mesher.calculate ofZ malloc cfg basePosition vs).
Proof.
  unfold Mesher.calculate. apply agrees_foldM. intros [] y.
  unfold Mesher.slice.
  apply agrees_bind.
  { apply agrees_foldM. intros adjacent z. unfold Mesher.rowX.
    apply agrees_bind.
    - apply agrees_foldM. intros a x. apply agrees_visit.
    - intros a.
      apply agrees_bind; [apply agrees_addFaces|intros; apply agrees_ret]. }
  intros _. apply agrees_bind.
  { apply agrees_foldM. intros adjacent x. unfold Mesher.rowZ.
    apply agrees_bind.
    - apply agrees_foldM. intros a z. apply agrees_visit.
    - intros a.
      apply agrees_bind; [apply agrees_addFaces|intros; apply agrees_ret]. }
  intros _. apply agrees_ret.
Qed.

Lemma alike_sameGeometry (g1 g2 : Mesher.Globals fl Pool) :
  alike g1 g2 → sameGeometry (Mesher.out g1) (Mesher.out g2).
Proof.
  intros H tv. destruct (H tv) as [t1 t2 (Hp & Ht & Hn)|]; constructor.
  repeat split; first [apply Hp|apply Ht|apply Hn].
Qed.

End Agreement.

(** C9: two calls of [mesh] with the same position and voxels, under the
    same configuration and chunk cache, from any two states of [out] and of
    the buffer pool: both throw, or both return [null], or they return
    outputs with the same texture keys and, under each key, the same offsets
    and the same values below the offset in the three buffers.  The pool is
    any that hands out buffers of the size asked for. *)
Theorem mesh_twice {fl : Type} (ofZ : Z → fl) {Pool : Type}
    (malloc : nat → Pool → list fl * Pool) (cfg : Mesher.Config fl)
    (position : Position) (voxels : option (list Z))
    (g1 g2 : Mesher.Globals fl Pool) :
  (∀ n p, length (malloc n p).1 = n) →
  match Mesher.mesh ofZ malloc cfg position voxels g1,
        Mesher.mesh ofZ malloc cfg position voxels g2 with
  | Some (r1, _), Some (r2, _) => sameResult r1 r2
  | None, None => True
  | _, _ => False
  end.
Proof.
  intros Hmalloc.
  destruct voxels as [[|v l]|]; simpl; try by constructor.
  unfold bind. cbn beta iota.
  pose proof (agrees_calculate ofZ malloc cfg Hmalloc position (v :: l)
    (Mesher.mkGlobals ∅ (Mesher.pool g1) (Mesher.console g1))
    (Mesher.mkGlobals ∅ (Mesher.pool g2) (Mesher.console g2))) as H.
  destruct (Mesher.calculate _ _ _ _ _ _) as [[[] g1']|],
           (Mesher.calculate _ _ _ _ _ _) as [[[] g2']|].
  - constructor. apply alike_sameGeometry, H. intros tv. simpl.
    rewrite !lookup_empty. constructor.
  - apply H. intros tv. simpl. rewrite !lookup_empty. constructor.
  - apply H. intros tv. simpl. rewrite !lookup_empty. constructor.
  - done.
Qed.

(** ** The statements on sample inputs *)

Lemma config2_complete : tablesComplete Sample.config2.
Proof.
  split.
  - apply elem_of_dom. eexists. vm_compute. reflexivity.
  - intros m info face H. unfold Sample.config2 in *. simpl in *.
    apply lookup_insert_Some in H as [[<- <-]|[_ H]].
    + apply elem_of_dom. destruct face; eexists; vm_compute; reflexivity.
    + apply lookup_singleton_Some in H as [<- <-].
      apply elem_of_dom. destruct face; eexists; vm_compute; reflexivity.
Qed.

Lemma staleMalloc_sized n p : length (Sample.staleMalloc n p).1 = n.
Proof. apply length_replicate. Qed.

Lemma isFaceBlocked_across_chunks_front :
  (∀ neighbour, Sample.neighbourCache !! "0|0|-1" = Some neighbour →
     Mesher.isFaceBlocked (specCoordinator 2) Sample.neighbourCache (0, 0, 0)
       Sample.cornerVoxels (Z.of_nat 2) Front 0 0 0 150
     = Mesher.shouldSkipFace 150 (voxelAt (ChunkCache.voxels neighbour) 2))
  ∧ ((∅ : gmap string ChunkCache.Chunk) !! "0|0|-1" = None →
     Mesher.isFaceBlocked (specCoordinator 2) ∅ (0, 0, 0)
       Sample.cornerVoxels (Z.of_nat 2) Front 0 0 0 150 = false).
Proof.
  split.
  - apply (isFaceBlocked_across_chunks (specCoordinator 2) Sample.neighbourCache
             (0, 0, 0) Sample.cornerVoxels 2 Front 0 0 0 150).
    reflexivity.
  - apply (isFaceBlocked_across_chunks (specCoordinator 2) ∅
             (0, 0, 0) Sample.cornerVoxels 2 Front 0 0 0 150).
    reflexivity.
Defined.


(** With texture ids equal to the values, the voxel of value 50 is meshed
    with all its six faces, the one toward the voxel of value 150 included,
    and the voxel of value 150 with five. *)
Example mesh_50_150 :
  resultOffsets
    (Mesher.mesh id Sample.staleMalloc Sample.configGlass (0, 0, 0)
       (Some Sample.glassVoxels) (Mesher.mkGlobals ∅ 7 []))
  = Some [(150, (90, 60, 90)%nat); (50, (108, 72, 108)%nat)].
Proof. vm_compute. reflexivity. Qed.

(** With the faces of material 50 under the texture id 200, the face of
    the voxel of value 50 toward the voxel of value 150 is left out too. *)
Example mesh_50_as_200_150 :
  resultOffsets
    (Mesher.mesh id Sample.staleMalloc Sample.configGlass200 (0, 0, 0)
       (Some Sample.glassVoxels) (Mesher.mkGlobals ∅ 7 []))
  = Some [(150, (90, 60, 90)%nat); (200, (90, 60, 90)%nat)].
Proof. vm_compute. reflexivity. Qed.



(** C7, as stated: on a table without the fallback material 3, a non-empty
    array with a voxel of an unknown material makes [mesh] throw. *)
Lemma mesh_throws_without_fallback :
  ¬ (∀ (cfg : Mesher.Config Z) (position : Position) (vs : list Z)
       (g : Mesher.Globals Z Z),
       vs ≠ [] →
       ∃ o g', Mesher.mesh id Sample.staleMalloc cfg position (Some vs) g
               = Some (Some o, g')).
Proof.
  intros H.
  destruct (H Sample.configNoFallback (0, 0, 0) Sample.unknownVoxels
              (Mesher.mkGlobals ∅ 7 []))
    as (o & g' & Hmesh); [done|].
  vm_compute in Hmesh. discriminate Hmesh.
Qed.

Lemma mesh_null_iff_empty_config2 :
  let g := Mesher.mkGlobals ∅ 7 [] in
  Mesher.mesh id Sample.staleMalloc Sample.config2 (0, 0, 0) None g
  = Some (None, Mesher.mkGlobals ∅ 7 ["Empty voxels"])
  ∧ Mesher.mesh id Sample.staleMalloc Sample.config2 (0, 0, 0) (Some []) g
    = Some (None, Mesher.mkGlobals ∅ 7 ["Empty voxels"])
  ∧ ∃ o g', Mesher.mesh id Sample.staleMalloc Sample.config2 (0, 0, 0)
              (Some Sample.cornerVoxels) g = Some (Some o, g').
Proof.
  intros g. split; [|split].
  - apply (proj1 (mesh_null_iff_empty id Sample.staleMalloc Sample.config2
                    (0, 0, 0) None g)). by left.
  - apply (proj1 (mesh_null_iff_empty id Sample.staleMalloc Sample.config2
                    (0, 0, 0) (Some []) g)). by right.
  - apply (proj2 (proj2 (mesh_null_iff_empty id Sample.staleMalloc
                    Sample.config2 (0, 0, 0) (Some Sample.cornerVoxels) g))
             config2_complete 150 [0; 0; 0; 0; 0; 0; 0]).
    reflexivity.
Defined.

Lemma mesh_twice_config2 :
  match Mesher.mesh id Sample.staleMalloc Sample.config2 (0, 0, 0)
          (Some Sample.cornerVoxels) (Mesher.mkGlobals ∅ 7 []),
        Mesher.mesh id Sample.staleMalloc Sample.config2 (0, 0, 0)
          (Some Sample.cornerVoxels) (Mesher.mkGlobals ∅ 9 ["Empty voxels"])
  with
  | Some (r1, _), Some (r2, _) => sameResult r1 r2
  | None, None => True
  | _, _ => False
  end.
Proof.
  apply (mesh_twice id Sample.staleMalloc Sample.config2 (0, 0, 0)
           (Some Sample.cornerVoxels)).
  exact staleMalloc_sized.
Defined.

(** One voxel of material 150 at the local origin of an otherwise empty
    chunk of side 2: one texture key, six faces, 36 position triples. *)
Example corner_voxel_mesh :
  resultOffsets
    (Mesher.mesh id Sample.staleMalloc Sample.config2 (0, 0, 0)
       (Some Sample.cornerVoxels) (Mesher.mkGlobals ∅ 7 []))
  = Some [ (1, (36 * 3, 36 * 2, 36 * 3)%nat) ].
Proof. vm_compute. reflexivity. Qed.

(** The voxel stored at index 2 of a chunk of side 2 is meshed as the cell
    [(0, 1, 0)]: the first vertex written, of its front face, is
    [(1, 1, 0)]. *)
Example index_2_is_cell_0_1_0 :
  resultPositions 3 1
    (Mesher.mesh id Sample.staleMalloc Sample.config2 (0, 0, 0)
       (Some [0; 0; 150; 0; 0; 0; 0; 0]) (Mesher.mkGlobals ∅ 7 []))
  = Some [1; 1; 0].
Proof. vm_compute. reflexivity. Qed.

(** * Further properties *)

(** ** Occlusion between two voxels *)

(** X1: on two non-empty values [a] and [b], [shouldSkipFace a b] does not
    skip exactly when [a] is below 100 and [b] is not; and when it does not
    skip on [(a, b)] it skips on [(b, a)]. *)
Theorem shouldSkipFace_one_sided (a b : Z) :
  0 < a → 0 < b →
  (Mesher.shouldSkipFace a (Some b) = false ↔ a < 100 ∧ 100 ≤ b)
  ∧ (Mesher.shouldSkipFace a (Some b) = false →
     Mesher.shouldSkipFace b (Some a) = true).
Proof.
  intros Ha Hb. unfold Mesher.shouldSkipFace.
  destruct a as [|a|a]; try lia. destruct b as [|b|b]; try lia.
  destruct (Z.ltb_spec (Z.pos a) 100), (Z.ltb_spec (Z.pos b) 100),
    (Z.ltb_spec 99 (Z.pos b)), (Z.ltb_spec 99 (Z.pos a));
    try lia; simpl; split; try split; try done; try lia.
Qed.

Lemma shouldSkipFace_one_sided_50_150 :
  (Mesher.shouldSkipFace 50 (Some 150) = false ↔ 50 < 100 ∧ 100 ≤ 150)
  ∧ (Mesher.shouldSkipFace 50 (Some 150) = false →
     Mesher.shouldSkipFace 150 (Some 50) = true).
Proof. apply (shouldSkipFace_one_sided 50 150); lia. Defined.

(** X2: for a cell strictly inside the chunk, no face consults the chunk
    cache or the chunk position: [isFaceBlocked] is [shouldSkipFace] on the
    voxel of the same array at the opposing cell. *)
Theorem isFaceBlocked_interior (coordinator : Coordinator)
    (cache : gmap string ChunkCache.Chunk) (basePosition : Position)
    (vs : list Z) (chunkSize : nat) (face : Face) (x y z current : Z) :
  0 < x < Z.of_nat chunkSize - 1 →
  0 < y < Z.of_nat chunkSize - 1 →
  0 < z < Z.of_nat chunkSize - 1 →
  let '(ox, oy, oz) := Mesher.opposing face x y z in
  Mesher.isFaceBlocked coordinator cache basePosition vs
    (Z.of_nat chunkSize) face x y z current
  = Mesher.shouldSkipFace current
      (voxelAt vs (coordinatesToVoxelIndex coordinator ox oy oz)).
Proof.
  intros Hx Hy Hz. unfold Mesher.isFaceBlocked.
  assert (Hin : Mesher.outsideChunk (Z.of_nat chunkSize)
                  (Mesher.opposing face x y z) = false).
  { unfold Mesher.outsideChunk.
    destruct face; simpl; repeat (apply orb_false_intro); lia. }
  destruct (Mesher.opposing face x y z) as [[ox oy] oz].
  rewrite Hin. reflexivity.
Qed.

Lemma isFaceBlocked_interior_centre :
  Mesher.isFaceBlocked (specCoordinator 3) Sample.neighbourCache (6, 0, 0)
    (replicate 27 150) (Z.of_nat 3) Top 1 1 1 150
  = Mesher.shouldSkipFace 150
      (voxelAt (replicate 27 150)
         (coordinatesToVoxelIndex (specCoordinator 3) 1 2 1)).
Proof.
  apply (isFaceBlocked_interior (specCoordinator 3) Sample.neighbourCache
           (6, 0, 0) (replicate 27 150) 3 Top 1 1 1 150); simpl; lia.
Defined.

(** ** The buffers *)

Section Buffers.
Context {fl : Type}.
Implicit Types (b : Mesher.Buffer fl) (l : list fl).

Lemma pushAll_nil b : Mesher.pushAll b [] = b.
Proof. reflexivity. Qed.

Lemma pushAll_cons b v l :
  Mesher.pushAll b (v :: l) = Mesher.pushAll (Mesher.push b v) l.
Proof. reflexivity. Qed.

Lemma pushAll_length b l :
  length (Mesher.data (Mesher.pushAll b l)) = length (Mesher.data b).
Proof.
  revert b. induction l as [|v l IH]; intros b; [done|].
  rewrite pushAll_cons, IH. simpl. apply length_insert.
Qed.

(** X3: values written while the buffer has room are stored in order from
    the offset on, and nothing else changes. *)
Theorem pushAll_in_range b l :
  (Mesher.offset b + length l ≤ length (Mesher.data b))%nat →
  Mesher.data (Mesher.pushAll b l)
  = take (Mesher.offset b) (Mesher.data b) ++ l
    ++ drop (Mesher.offset b + length l) (Mesher.data b).
Proof.
  revert b. induction l as [|v l IH]; intros [o d] H;
    cbn [Mesher.offset Mesher.data length] in *.
  - rewrite pushAll_nil, Nat.add_0_r. cbn [Mesher.data app].
    by rewrite take_drop.
  - rewrite pushAll_cons. unfold Mesher.push. cbn [Mesher.offset Mesher.data].
    rewrite IH by (cbn [Mesher.offset Mesher.data]; rewrite length_insert; lia).
    cbn [Mesher.offset Mesher.data].
    rewrite (take_S_r _ _ v) by (apply list_lookup_insert_eq; lia).
    rewrite take_insert_ge by lia.
    rewrite drop_insert_lt by lia.
    rewrite <- app_assoc. simpl.
    by replace (o + S (length l))%nat with (S (o + length l)) by lia.
Qed.

(** X4: once the offset has reached the capacity, further writes are
    dropped: the data stay as they are while the offset keeps counting; and
    no write ever changes the capacity. *)
Theorem pushAll_beyond_capacity b l :
  (length (Mesher.data b) ≤ Mesher.offset b)%nat →
  Mesher.data (Mesher.pushAll b l) = Mesher.data b
  ∧ Mesher.offset (Mesher.pushAll b l) = (Mesher.offset b + length l)%nat.
Proof.
  intros H. split; [|apply pushAll_offset].
  revert b H. induction l as [|v l IH]; intros [o d] H; [done|].
  rewrite pushAll_cons. simpl in H. rewrite IH.
  - simpl. apply list_insert_ge. lia.
  - simpl. rewrite length_insert. lia.
Qed.

End Buffers.

Lemma pushAll_in_range_sample :
  Mesher.data (Mesher.pushAll (Mesher.mkBuffer 1 [7; 7; 7; 7]) [1; 2])
  = take 1 [7; 7; 7; 7] ++ [1; 2] ++ drop (1 + 2) [7; 7; 7; 7].
Proof.
  apply (pushAll_in_range (Mesher.mkBuffer 1 [7; 7; 7; 7]) [1; 2]).
  simpl. lia.
Defined.

Lemma pushAll_beyond_capacity_sample :
  Mesher.data (Mesher.pushAll (Mesher.mkBuffer 2 [7; 7]) [1; 2]) = [7; 7]
  ∧ Mesher.offset (Mesher.pushAll (Mesher.mkBuffer 2 [7; 7]) [1; 2]) = 4%nat.
Proof.
  apply (pushAll_beyond_capacity (Mesher.mkBuffer 2 [7; 7]) [1; 2]).
  simpl. lia.
Defined.

(** ** What [addFace] writes *)

Section AddFace.
Context {fl : Type} (ofZ : Z → fl).
Context {Pool : Type} (malloc : nat → Pool → list fl * Pool).
Context (cfg : Mesher.Config fl).
Context (basePosition : Position).

(** The two outcomes of [addFace]. *)
Lemma addFace_cases face (r : Mesher.Run) (g : Mesher.Globals fl Pool) :
  match Mesher.addFace ofZ malloc cfg basePosition face r g with
  | None => Mesher.textureValue r ∉ dom (Mesher.textureOffsets cfg)
  | Some (_, g') =>
      Mesher.textureValue r ∈ dom (Mesher.textureOffsets cfg)
      ∧ dom (Mesher.out g') = {[ Mesher.textureValue r ]} ∪ dom (Mesher.out g)
      ∧ (∀ tv, tv ≠ Mesher.textureValue r →
           Mesher.out g' !! tv = Mesher.out g !! tv)
      ∧ Mesher.console g' = Mesher.console g
      ∧ (Mesher.textureValue r ∈ dom (Mesher.out g) →
         Mesher.pool g' = Mesher.pool g)
  end.
Proof.
  unfold Mesher.addFace.
  destruct basePosition as [[b0 b1] b2], r as [tv [[s0 s1] s2] [[e0 e1] e2]].
  cbn [Mesher.textureValue Mesher.start Mesher.end_].
  unfold bind, Mesher.textureMeshOf, Mesher.offsetsOf, Mesher.storeTextureMesh.
  destruct (Mesher.out g !! tv) as [tm|] eqn:Hout.
  - destruct (Mesher.textureOffsets cfg !! tv) as [offsets|] eqn:Hoff;
      [|by apply not_elem_of_dom].
    unfold ret. cbn [Mesher.out Mesher.pool Mesher.console].
    rewrite dom_insert_L. split; [by apply elem_of_dom_2 in Hoff|].
    repeat split; try done.
    intros tv' Hne. by rewrite lookup_insert_ne.
  - destruct (malloc Mesher.bufferSize (Mesher.pool g)) as [d1 p1].
    destruct (malloc Mesher.bufferSize p1) as [d2 p2].
    destruct (malloc Mesher.bufferSize p2) as [d3 p3].
    destruct (Mesher.textureOffsets cfg !! tv) as [offsets|] eqn:Hoff;
      [|by apply not_elem_of_dom].
    unfold ret. cbn [Mesher.out Mesher.pool Mesher.console].
    rewrite !dom_insert_L. split; [by apply elem_of_dom_2 in Hoff|].
    repeat split; try done.
    + set_solver.
    + intros tv' Hne. by rewrite !lookup_insert_ne.
    + intros Hin. apply elem_of_dom in Hin as [tm Htm]. congruence.
Qed.

(** X5: [addFace] throws exactly when the texture of the run has no entry
    in [textureOffsets]. *)
Theorem addFace_throws_iff face (r : Mesher.Run) (g : Mesher.Globals fl Pool) :
  Mesher.addFace ofZ malloc cfg basePosition face r g = None
  ↔ Mesher.textureValue r ∉ dom (Mesher.textureOffsets cfg).
Proof.
  pose proof (addFace_cases face r g) as H.
  destruct (Mesher.addFace ofZ malloc cfg basePosition face r g) as [[[] g']|].
  - destruct H as [Hin _]. split; [done|]. intros Hn. by destruct Hn.
  - done.
Qed.

(** X6: a successful [addFace] touches only the key of its texture: the
    key is in [out] afterwards, every other key keeps its buffers, nothing is
    logged, and the pool is left alone when the key was there before. *)
Theorem addFace_frame face (r : Mesher.Run) (g g' : Mesher.Globals fl Pool) :
  Mesher.addFace ofZ malloc cfg basePosition face r g = Some (tt, g') →
  dom (Mesher.out g') = {[ Mesher.textureValue r ]} ∪ dom (Mesher.out g)
  ∧ (∀ tv, tv ≠ Mesher.textureValue r →
       Mesher.out g' !! tv = Mesher.out g !! tv)
  ∧ Mesher.console g' = Mesher.console g
  ∧ (Mesher.textureValue r ∈ dom (Mesher.out g) →
     Mesher.pool g' = Mesher.pool g).
Proof.
  intros Hadd. pose proof (addFace_cases face r g) as H.
  rewrite Hadd in H. by destruct H as [_ H].
Qed.

End AddFace.

Lemma addFace_frame_sample :
  ∃ g',
    Mesher.addFace id Sample.staleMalloc Sample.config2 (0, 0, 0) Top
      (Mesher.mkRun 1 (0, 0, 0) (1, 0, 0)) (Mesher.mkGlobals ∅ 7 [])
    = Some (tt, g')
    ∧ dom (Mesher.out g') = {[ 1 ]} ∪ dom (∅ : gmap Z (Mesher.TextureMesh Z))
    ∧ (∀ tv, tv ≠ 1 →
         Mesher.out g' !! tv = (∅ : gmap Z (Mesher.TextureMesh Z)) !! tv)
    ∧ Mesher.console g' = []
    ∧ (1 ∈ dom (∅ : gmap Z (Mesher.TextureMesh Z)) → Mesher.pool g' = 7).
Proof.
  assert (Hdom : 1 ∈ dom (Mesher.textureOffsets Sample.config2)).
  { apply elem_of_dom. eexists. vm_compute. reflexivity. }
  destruct (addFace_returns id Sample.staleMalloc Sample.config2 (0, 0, 0) Top
              (Mesher.mkRun 1 (0, 0, 0) (1, 0, 0)) Hdom
              (Mesher.mkGlobals ∅ 7 [])) as ([] & g' & Heq & _).
  exists g'. split; [exact Heq|].
  apply (addFace_frame id Sample.staleMalloc Sample.config2 (0, 0, 0) Top
           (Mesher.mkRun 1 (0, 0, 0) (1, 0, 0)) (Mesher.mkGlobals ∅ 7 []) g' Heq).
Defined.

(** ** Invariants of a mesh pass *)

Lemma hoare_ret {S A} (I : S → Prop) (a : A) (Q : A → Prop) :
  Q a → hoare I (ret a) Q.
Proof. intros H s a' s' Hs [= <- <-]. done. Qed.

Lemma hoare_throw {S A} (I : S → Prop) (Q : A → Prop) : hoare I (@throw S A) Q.
Proof. intros s a s' _ [=]. Qed.

Lemma hoare_bind {S A B} (I : S → Prop) (c : M S A) (k : A → M S B)
    (P : A → Prop) (Q : B → Prop) :
  hoare I c P → (∀ a, P a → hoare I (k a) Q) → hoare I (bind c k) Q.
Proof.
  intros Hc Hk s b s' Hs. unfold bind.
  destruct (c s) as [[a s1]|] eqn:Hcs; [|done].
  destruct (Hc s a s1 Hs Hcs) as [Hs1 Ha]. by apply Hk.
Qed.

Lemma hoare_foldM {S A B} (I : S → Prop) (f : A → B → M S A) (P : A → Prop) l :
  (∀ a b, P a → hoare I (f a b) P) → ∀ a, P a → hoare I (foldM f l a) P.
Proof.
  intros Hf. induction l as [|b l IH]; intros a Ha; simpl.
  - by apply hoare_ret.
  - eapply hoare_bind; [by apply Hf|]. intros a' Ha'. by apply IH.
Qed.

Lemma hoare_weaken {S A} (I : S → Prop) (c : M S A) (P Q : A → Prop) :
  hoare I c P → (∀ a, P a → Q a) → hoare I c Q.
Proof. intros Hc HPQ s a s' Hs Hcs. destruct (Hc s a s' Hs Hcs). eauto. Qed.

(** An output of [mesh] is the [out] that [calculate] leaves, started on an
    empty [out]. *)
Lemma mesh_output {fl : Type} (ofZ : Z → fl) {Pool : Type}
    (malloc : nat → Pool → list fl * Pool) (cfg : Mesher.Config fl)
    (position : Position) (vs : list Z) (g g' : Mesher.Globals fl Pool) o :
  Mesher.mesh ofZ malloc cfg position (Some vs) g = Some (Some o, g') →
  Mesher.calculate ofZ malloc cfg position vs
    (Mesher.mkGlobals ∅ (Mesher.pool g) (Mesher.console g)) = Some (tt, g')
  ∧ o = Mesher.out g'.
Proof.
  destruct vs as [|v l]; [done|]. simpl. unfold bind.
  destruct (Mesher.calculate _ _ _ _ _ _) as [[[] g1]|]; [|done].
  by intros [= <- <-].
Qed.

Section Invariant.
Context {fl : Type} (ofZ : Z → fl).
Context {Pool : Type} (malloc : nat → Pool → list fl * Pool).
Context (cfg : Mesher.Config fl).
Context (basePosition : Position) (vs : list Z).
Context (I : Mesher.Globals fl Pool → Prop).
Context (HaddFace : ∀ face r, tableTexture cfg (Mesher.textureValue r) →
           hoare I (Mesher.addFace ofZ malloc cfg basePosition face r) (λ _, True)).
Context (Hlog : ∀ line, hoare I (Mesher.log (fl:=fl) (Pool:=Pool) line) (λ _, True)).

Lemma addFaces_keeps adjacent :
  runsOfTable cfg adjacent →
  hoare I (Mesher.addFaces ofZ malloc cfg basePosition adjacent) (λ _, True).
Proof.
  induction adjacent as [|[face [r|]] rest IH]; intros Hk; simpl.
  - by apply hoare_ret.
  - eapply hoare_bind.
    + apply HaddFace. apply (Hk face). set_solver.
    + intros _ _. apply IH. intros f r' Hin. apply (Hk f). set_solver.
  - apply IH. intros f r' Hin. apply (Hk f). set_solver.
Qed.

Lemma resetFaces_ofTable adjacent : runsOfTable cfg (Mesher.resetFaces adjacent).
Proof.
  intros face r Hin. unfold Mesher.resetFaces in Hin.
  apply list_elem_of_fmap in Hin as (e & He & _). done.
Qed.

Lemma materialOf_keeps v :
  hoare I (Mesher.materialOf (Pool:=Pool) cfg v) (λ _, True).
Proof.
  unfold Mesher.materialOf.
  assert (Hfallback : hoare I
    (Mesher.log (fl:=fl) (Pool:=Pool) "falling back to 3" ;;; ret 3) (λ _, True)).
  { eapply hoare_bind; [apply Hlog|]. intros _ _. by apply hoare_ret. }
  destruct v as [v|]; [|done].
  case_decide; [by apply hoare_ret|done].
Qed.

Lemma sweepFace_keeps m x y z face cur :
  (∀ r, cur = Some r → tableTexture cfg (Mesher.textureValue r)) →
  hoare I (Mesher.sweepFace ofZ malloc cfg basePosition vs m x y z face cur)
    (λ cur', ∀ r, cur' = Some r → tableTexture cfg (Mesher.textureValue r)).
Proof.
  intros Hcur. unfold Mesher.sweepFace, Mesher.faceTextureOf.
  destruct (Mesher.voxelsToTextures cfg !! m) as [info|] eqn:Hinfo.
  2:{ eapply hoare_bind; [apply (hoare_throw _ (λ _, False))|]. intros a []. }
  eapply hoare_bind;
    [apply (hoare_ret _ _ (λ tv, tv = Mesher.textureAt info (Mesher.faceIndex face)));
     reflexivity|].
  intros tv ->.
  assert (Hnew : ∀ r,
    Some (Mesher.newRun (Mesher.textureAt info (Mesher.faceIndex face)) x y z)
    = Some r → tableTexture cfg (Mesher.textureValue r)).
  { intros r [= <-]. by exists m, info, face. }
  destruct (Mesher.isFaceBlocked _ _ _ _ _ _ _ _ _ _).
  - destruct cur as [r|].
    + eapply hoare_bind; [by apply HaddFace, Hcur|].
      intros _ _. by apply hoare_ret.
    + by apply hoare_ret.
  - destruct cur as [r|].
    + destruct (Mesher.textureValue r =? _).
      * apply hoare_ret. intros r' [= <-]. simpl. by apply Hcur.
      * eapply hoare_bind; [by apply HaddFace, Hcur|].
        intros _ _. by apply hoare_ret.
    + by apply hoare_ret.
Qed.

Lemma forFaces_keeps body adjacent :
  (∀ face cur,
     (∀ r, cur = Some r → tableTexture cfg (Mesher.textureValue r)) →
     hoare I (body face cur)
       (λ cur', ∀ r, cur' = Some r → tableTexture cfg (Mesher.textureValue r))) →
  runsOfTable cfg adjacent →
  hoare I (Mesher.forFaces (fl:=fl) (Pool:=Pool) body adjacent) (runsOfTable cfg).
Proof.
  intros Hbody. induction adjacent as [|[face cur] rest IH]; intros Hk; simpl.
  - apply hoare_ret. intros f r Hin. set_solver.
  - eapply hoare_bind.
    + apply Hbody. intros r ->. apply (Hk face). set_solver.
    + intros cur' Hcur'. eapply hoare_bind.
      * apply IH. intros f r Hin. apply (Hk f). set_solver.
      * intros rest' Hrest'. apply hoare_ret. intros f r Hin.
        apply elem_of_cons in Hin as [[= -> <-]|Hin]; [by apply Hcur'|].
        by apply (Hrest' f).
Qed.

Lemma visit_keeps x y z v adjacent :
  runsOfTable cfg adjacent →
  hoare I (Mesher.visit ofZ malloc cfg basePosition vs x y z v adjacent)
    (runsOfTable cfg).
Proof.
  intros Hk.
  assert (Hsweep : hoare I
    (voxelTextureValue <~ Mesher.materialOf cfg v ;;
     Mesher.forFaces
       (Mesher.sweepFace ofZ malloc cfg basePosition vs voxelTextureValue
          (Z.of_nat x) (Z.of_nat y) (Z.of_nat z)) adjacent)
    (runsOfTable cfg)).
  { eapply hoare_bind; [apply materialOf_keeps|]. intros m _.
    apply forFaces_keeps; [|done]. intros face cur Hcur.
    by apply sweepFace_keeps. }
  unfold Mesher.visit. destruct v as [[|p|p]|]; try exact Hsweep.
  eapply hoare_bind; [by apply addFaces_keeps|].
  intros _ _. apply hoare_ret, resetFaces_ofTable.
Qed.

Lemma rowX_keeps y z adjacent :
  hoare I (Mesher.rowX ofZ malloc cfg basePosition vs y z adjacent) (runsOfTable cfg).
Proof.
  unfold Mesher.rowX. eapply hoare_bind.
  - apply (hoare_foldM _ _ (runsOfTable cfg)); [|apply resetFaces_ofTable].
    intros a b Ha. by apply visit_keeps.
  - intros a Ha. eapply hoare_bind; [by apply addFaces_keeps|].
    intros _ _. apply hoare_ret, resetFaces_ofTable.
Qed.

Lemma rowZ_keeps y x adjacent :
  hoare I (Mesher.rowZ ofZ malloc cfg basePosition vs y x adjacent) (runsOfTable cfg).
Proof.
  unfold Mesher.rowZ. eapply hoare_bind.
  - apply (hoare_foldM _ _ (runsOfTable cfg)); [|apply resetFaces_ofTable].
    intros a b Ha. by apply visit_keeps.
  - intros a Ha. eapply hoare_bind; [by apply addFaces_keeps|].
    intros _ _. apply hoare_ret, resetFaces_ofTable.
Qed.

(** An invariant of the globals kept by [addFace], on runs whose texture is
    of the table, and by [log] is kept by [calculate]. *)
Lemma calculate_keeps :
  hoare I (Mesher.calculate ofZ malloc cfg basePosition vs) (λ _, True).
Proof.
  unfold Mesher.calculate.
  apply (hoare_foldM _ _ (λ _, True)); [|done]. intros [] y _.
  unfold Mesher.slice.
  eapply hoare_bind.
  { apply (hoare_foldM _ _ (λ _, True)); [|done]. intros a z _.
    eapply hoare_weaken; [apply rowX_keeps|done]. }
  intros _ _. eapply hoare_bind.
  { apply (hoare_foldM _ _ (λ _, True)); [|done]. intros a x _.
    eapply hoare_weaken; [apply rowZ_keeps|done]. }
  intros _ _. by apply hoare_ret.
Qed.

(** ... and holds of the state in which [mesh] returns an output, whatever
    the state it was called in. *)
Lemma mesh_keeps g o g' :
  (∀ p c, I (Mesher.mkGlobals ∅ p c)) →
  Mesher.mesh ofZ malloc cfg basePosition (Some vs) g = Some (Some o, g') →
  I g' ∧ o = Mesher.out g'.
Proof.
  intros Hinit Hmesh. apply mesh_output in Hmesh as [Hc ->].
  split; [|done]. eapply calculate_keeps; [|exact Hc]. apply Hinit.
Qed.

End Invariant.

Section MeshInvariants.
Context {fl : Type} (ofZ : Z → fl).
Context {Pool : Type} (malloc : nat → Pool → list fl * Pool).
Context (cfg : Mesher.Config fl).

Lemma log_out line (g g' : Mesher.Globals fl Pool) :
  Mesher.log line g = Some (tt, g') → Mesher.out g' = Mesher.out g.
Proof. by intros [= <-]. Qed.

Lemma meshOffsets_other (o o' : gmap Z (Mesher.TextureMesh fl)) tv :
  o' !! tv = o !! tv → meshOffsets o' tv = meshOffsets o tv.
Proof. unfold meshOffsets. by intros ->. Qed.

(** With complete tables [mesh] returns an output on a non-empty array. *)
Lemma mesh_returns position (vs : list Z) (g : Mesher.Globals fl Pool) :
  tablesComplete cfg → vs ≠ [] →
  ∃ g', Mesher.mesh ofZ malloc cfg position (Some vs) g
        = Some (Some (Mesher.out g'), g').
Proof.
  intros Hc Hvs. destruct vs as [|v l]; [done|]. simpl. unfold bind.
  destruct (calculate_returns ofZ malloc cfg Hc position (v :: l)
              (Mesher.mkGlobals ∅ (Mesher.pool g) (Mesher.console g)))
    as ([] & g' & -> & _).
  eauto.
Qed.

(** X7: in every output of [mesh], each texture key holds a positive whole
    number of faces: its position and normal offsets are the same multiple
    of 18 and its texture-coordinate offset that multiple of 12. *)
Theorem mesh_whole_faces position (vs : list Z) (g g' : Mesher.Globals fl Pool) o :
  Mesher.mesh ofZ malloc cfg position (Some vs) g = Some (Some o, g') →
  wholeFaces o.
Proof.
  intros Hmesh.
  destruct (mesh_keeps ofZ malloc cfg position vs
              (λ g, wholeFaces (Mesher.out g))) with (g := g) (o := o) (g' := g')
    as [H ->]; [| | |exact Hmesh|exact H].
  - intros face r _ g0 [] g1 Hg0 Hadd.
    split; [|done]. intros tv Htv.
    pose proof (addFace_cases ofZ malloc cfg position face r g0) as Hcases.
    rewrite Hadd in Hcases. destruct Hcases as (_ & Hdom & Hother & _).
    pose proof (addFace_offsets ofZ malloc cfg position face r g0 g1 Hadd) as Hoff.
    destruct (decide (tv = Mesher.textureValue r)) as [->|Hne].
    + destruct (decide (Mesher.textureValue r ∈ dom (Mesher.out g0))) as [Hin|Hnin].
      * destruct (Hg0 _ Hin) as (k & Hk & Hoffs). rewrite Hoffs in Hoff.
        exists (S k). split; [lia|]. rewrite Hoff. f_equal; [f_equal|]; lia.
      * apply not_elem_of_dom in Hnin. unfold meshOffsets in Hoff at 1.
        rewrite Hnin in Hoff. exists 1%nat. split; [lia|]. by rewrite Hoff.
    + rewrite (meshOffsets_other _ _ _ (Hother tv Hne)). apply Hg0.
      rewrite Hdom in Htv. set_solver.
  - intros line g0 [] g1 Hg0 Hlog. split; [|done].
    by rewrite (log_out _ _ _ Hlog).
  - intros p c tv Htv. simpl in Htv. set_solver.
Qed.

(** X8: in every output of [mesh], each buffer still has the capacity the
    pool gave it, however many faces were written. *)
Theorem mesh_capacity position (vs : list Z) (g g' : Mesher.Globals fl Pool) o :
  (∀ n p, length (malloc n p).1 = n) →
  Mesher.mesh ofZ malloc cfg position (Some vs) g = Some (Some o, g') →
  capacityKept o.
Proof.
  intros Hmalloc Hmesh.
  destruct (mesh_keeps ofZ malloc cfg position vs
              (λ g, capacityKept (Mesher.out g))) with (g := g) (o := o) (g' := g')
    as [H ->]; [| | |exact Hmesh|exact H].
  - intros face r _ g0 [] g1 Hg0. unfold Mesher.addFace.
    destruct position as [[b0 b1] b2], r as [tv [[s0 s1] s2] [[e0 e1] e2]].
    cbn [Mesher.textureValue Mesher.start Mesher.end_].
    unfold bind, Mesher.textureMeshOf, Mesher.offsetsOf, Mesher.storeTextureMesh.
    destruct (Mesher.out g0 !! tv) as [tm|] eqn:Hout.
    + destruct (Mesher.textureOffsets cfg !! tv) as [offsets|]; [|done].
      unfold ret. intros [= <-]. split; [|done]. intros tv' tm'. simpl.
      destruct (decide (tv = tv')) as [<-|Hne].
      * rewrite lookup_insert_eq. intros [= <-]. simpl.
        rewrite !pushAll_length. by apply (Hg0 tv).
      * rewrite lookup_insert_ne by done. apply Hg0.
    + pose proof (Hmalloc Mesher.bufferSize (Mesher.pool g0)) as L1.
      destruct (malloc Mesher.bufferSize (Mesher.pool g0)) as [d1 p1].
      pose proof (Hmalloc Mesher.bufferSize p1) as L2.
      destruct (malloc Mesher.bufferSize p1) as [d2 p2].
      pose proof (Hmalloc Mesher.bufferSize p2) as L3.
      destruct (malloc Mesher.bufferSize p2) as [d3 p3].
      destruct (Mesher.textureOffsets cfg !! tv) as [offsets|]; [|done].
      unfold ret. intros [= <-]. split; [|done]. intros tv' tm'. simpl.
      destruct (decide (tv = tv')) as [<-|Hne].
      * rewrite lookup_insert_eq. intros [= <-]. simpl.
        rewrite !pushAll_length. done.
      * rewrite !lookup_insert_ne by done. apply Hg0.
  - intros line g0 [] g1 Hg0 Hlog. split; [|done].
    by rewrite (log_out _ _ _ Hlog).
  - intros p c tv tm. simpl. by rewrite lookup_empty.
Qed.

(** X9: every texture key of an output of [mesh] is the texture of some face
    of some material of [voxelsToTextures], and has its offsets in
    [textureOffsets]. *)
Theorem mesh_keys_of_table position (vs : list Z) (g g' : Mesher.Globals fl Pool) o :
  Mesher.mesh ofZ malloc cfg position (Some vs) g = Some (Some o, g') →
  ∀ tv, tv ∈ dom o →
    tableTexture cfg tv ∧ tv ∈ dom (Mesher.textureOffsets cfg).
Proof.
  intros Hmesh.
  destruct (mesh_keeps ofZ malloc cfg position vs
              (λ g, ∀ tv, tv ∈ dom (Mesher.out g) →
                 tableTexture cfg tv ∧ tv ∈ dom (Mesher.textureOffsets cfg)))
    with (g := g) (o := o) (g' := g') as [H ->]; [| | |exact Hmesh|exact H].
  - intros face r Hr g0 [] g1 Hg0 Hadd. split; [|done]. intros tv Htv.
    pose proof (addFace_cases ofZ malloc cfg position face r g0) as Hcases.
    rewrite Hadd in Hcases. destruct Hcases as (Hin & Hdom & _).
    rewrite Hdom in Htv. apply elem_of_union in Htv as [Htv|Htv]; [|by apply Hg0].
    apply elem_of_singleton in Htv as ->. done.
  - intros line g0 [] g1 Hg0 Hlog. split; [|done].
    by rewrite (log_out _ _ _ Hlog).
  - intros p c tv Htv. simpl in Htv. set_solver.
Qed.

(** *** An empty chunk *)

Lemma foldM_stay {S A B} (f : A → B → M S A) l a s :
  (∀ b, b ∈ l → f a b s = Some (a, s)) → foldM f l a s = Some (a, s).
Proof.
  induction l as [|b l IH]; intros H; simpl; [done|].
  unfold bind. rewrite H by set_solver. apply IH. intros b' Hb'. apply H. set_solver.
Qed.

Lemma indexX_flat (n y z x : nat) :
  Mesher.indexX n y z x = (y * n + z * n * n + x)%nat.
Proof. unfold Mesher.indexX. lia. Qed.

Lemma indexZ_flat (n y x z : nat) :
  Mesher.indexZ n y x z = (y * n + z * n * n + x)%nat.
Proof. unfold Mesher.indexZ. lia. Qed.

Lemma index_in_chunk (n x y z : nat) :
  (x < n)%nat → (y < n)%nat → (z < n)%nat →
  (y * n + z * n * n + x < n * n * n)%nat.
Proof. intros Hx Hy Hz. nia. Qed.

(** X10: a voxel array that is 0 at every index below [chunkSize³] meshes to
    the empty output: no texture key, no buffer taken from the pool, nothing
    logged, whatever the tables and the cache. *)
Theorem mesh_empty_chunk position (vs : list Z) (g : Mesher.Globals fl Pool) :
  let n := Mesher.chunkSize cfg in
  vs ≠ [] →
  (∀ i, (i < n * n * n)%nat → vs !! i = Some 0) →
  Mesher.mesh ofZ malloc cfg position (Some vs) g
  = Some (Some ∅, Mesher.mkGlobals ∅ (Mesher.pool g) (Mesher.console g)).
Proof.
  intros n Hvs Hzero. destruct vs as [|v l] eqn:Evs; [done|]. rewrite <- Evs in *.
  assert (Hcalc : ∀ g0 : Mesher.Globals fl Pool,
    Mesher.calculate ofZ malloc cfg position vs g0 = Some (tt, g0)).
  { intros g0. unfold Mesher.calculate. apply foldM_stay. intros y Hy.
    apply elem_of_seq in Hy. unfold Mesher.slice, bind. fold n in Hy |- *.
    rewrite (foldM_stay _ _ Mesher.adjacentX).
    2:{ intros z Hz. apply elem_of_seq in Hz. unfold Mesher.rowX, bind. fold n.
        rewrite (foldM_stay _ _ Mesher.adjacentX); [reflexivity|].
        intros x Hx. apply elem_of_seq in Hx.
        rewrite indexX_flat, Hzero by (apply index_in_chunk; lia).
        reflexivity. }
    rewrite (foldM_stay _ _ Mesher.adjacentZ); [reflexivity|].
    intros x Hx. apply elem_of_seq in Hx. unfold Mesher.rowZ, bind. fold n.
    rewrite (foldM_stay _ _ Mesher.adjacentZ); [reflexivity|].
    intros z Hz. apply elem_of_seq in Hz.
    rewrite indexZ_flat, Hzero by (apply index_in_chunk; lia).
    reflexivity. }
  rewrite Evs at 1. simpl. rewrite <- Evs. unfold bind. rewrite Hcalc. reflexivity.
Qed.

End MeshInvariants.

(** ** Region change, continued *)

Section RegionChangeMore.
Context {fl : Type}.
Implicit Types (w : Worker.World fl) (l : Worker.Fresh).

Lemma closeBy_cons (self : Worker.State) chunkId chunkPosition
    (distanceAway : Z) nearby :
  closeBy self ((chunkId, chunkPosition, distanceAway) :: nearby)
  = (if Worker.chunkOutOfBounds self chunkPosition then ∅
     else if distanceAway <? 3 then {[chunkId]} else ∅)
    ∪ closeBy self nearby.
Proof.
  unfold closeBy. rewrite filter_cons. simpl.
  destruct (Worker.chunkOutOfBounds self chunkPosition);
    destruct (Z.ltb_spec distanceAway 3); case_decide; simpl;
    try set_solver; try lia; destruct_and?; try done; try lia.
Qed.

Lemma closeBy_bounds (self self' : Worker.State) nearby :
  Worker.lastWorldChunks self' = Worker.lastWorldChunks self →
  closeBy self' nearby = closeBy self nearby.
Proof. intros H. unfold closeBy, Worker.chunkOutOfBounds. by rewrite H. Qed.

Lemma closeBy_inBounds (self : Worker.State) nearby :
  closeBy self nearby ⊆ inBounds self nearby.
Proof.
  induction nearby as [|[[chunkId chunkPosition] distanceAway] nearby IH].
  - done.
  - rewrite closeBy_cons, inBounds_cons.
    destruct (Worker.chunkOutOfBounds self chunkPosition),
      (distanceAway <? 3); set_solver.
Qed.

(** What the callback does to the worker itself: it only adds to
    [requestedChunks]. *)
Lemma visitChunk_self w l chunkId chunkPosition distanceAway :
  let r := Worker.visitChunk (w, l) (chunkId, chunkPosition, distanceAway) in
  let self := Worker.worker w in
  let fresh :=
    bool_decide (Worker.chunkOutOfBounds self chunkPosition = false
                 ∧ (chunkId ∉ dom (Worker.chunkCache w))
                 ∧ chunkId ∉ Worker.requestedChunks self) in
  Worker.worker r.1
  = Worker.withRequested self
      (if fresh then {[chunkId]} ∪ Worker.requestedChunks self
       else Worker.requestedChunks self)
  ∧ Worker.fetches r.1
    = Worker.fetches w ++ (if fresh then [(chunkId, chunkPosition)] else [])
  ∧ Worker.posted r.1 = Worker.posted w
  ∧ Worker.chunkCache r.1 = Worker.chunkCache w.
Proof.
  destruct w as [[nc cd scc scm mc rc cmc cmm lw] cache posted fetches].
  unfold Worker.visitChunk. cbv zeta.
  cbn [Worker.worker Worker.chunkCache Worker.requestedChunks Worker.fetches
       Worker.posted].
  destruct (Worker.chunkOutOfBounds _ chunkPosition) eqn:Hb.
  { rewrite bool_decide_eq_false_2 by (intros (? & _); done).
    rewrite app_nil_r. done. }
  destruct (decide (chunkId ∈ dom cache)) as [Hc|Hc].
  { rewrite bool_decide_eq_false_2 by (intros (_ & ? & _); done).
    rewrite app_nil_r. done. }
  destruct (decide (chunkId ∈ rc)) as [Hr|Hr].
  { rewrite bool_decide_eq_false_2 by (intros (_ & _ & ?); done).
    rewrite app_nil_r. done. }
  rewrite bool_decide_eq_true_2 by done. done.
Qed.

Lemma visitChunk_voxels w l chunkId chunkPosition distanceAway :
  let r := Worker.visitChunk (w, l) (chunkId, chunkPosition, distanceAway) in
  let sent := Worker.sentClientChunks (Worker.worker w) in
  let close :=
    bool_decide (Worker.chunkOutOfBounds (Worker.worker w) chunkPosition = false
                 ∧ distanceAway < 3) in
  Worker.nearbyChunks' r.2
  = (if close then {[chunkId]} ∪ Worker.nearbyChunks' l else Worker.nearbyChunks' l)
  ∧ Worker.sentClientChunks' r.2
    = (if close && bool_decide (chunkId ∈ sent)
       then {[chunkId]} ∪ Worker.sentClientChunks' l
       else Worker.sentClientChunks' l)
  ∧ Worker.clientMissingChunks' r.2
    = (if close && negb (bool_decide (chunkId ∈ sent))
       then {[chunkId]} ∪ Worker.clientMissingChunks' l
       else Worker.clientMissingChunks' l).
Proof.
  unfold Worker.visitChunk. cbv zeta.
  destruct (Worker.chunkOutOfBounds (Worker.worker w) chunkPosition) eqn:Hb.
  { rewrite bool_decide_eq_false_2 by (intros (? & _); done). done. }
  destruct (Z.ltb_spec distanceAway 3) as [Hd|Hd].
  - rewrite bool_decide_eq_true_2 by done.
    destruct (decide (chunkId ∈ Worker.sentClientMeshes (Worker.worker w)));
      destruct (decide (chunkId ∈ Worker.sentClientChunks (Worker.worker w)));
      [rewrite bool_decide_eq_true_2 by done
      |rewrite bool_decide_eq_false_2 by done
      |rewrite bool_decide_eq_true_2 by done
      |rewrite bool_decide_eq_false_2 by done];
      repeat split; reflexivity.
  - rewrite bool_decide_eq_false_2 by (intros (_ & ?); lia).
    destruct (decide (chunkId ∈ Worker.sentClientMeshes (Worker.worker w)));
      repeat split; reflexivity.
Qed.

Lemma withRequested_fields (self : Worker.State) r :
  Worker.sentClientChunks (Worker.withRequested self r) = Worker.sentClientChunks self
  ∧ Worker.lastWorldChunks (Worker.withRequested self r) = Worker.lastWorldChunks self
  ∧ Worker.requestedChunks (Worker.withRequested self r) = r.
Proof. done. Qed.

Lemma foldl_visitChunk_voxels nearby : ∀ w l,
  let r := foldl Worker.visitChunk (w, l) nearby in
  let sent := Worker.sentClientChunks (Worker.worker w) in
  let close := closeBy (Worker.worker w) nearby in
  Worker.nearbyChunks' r.2 = close ∪ Worker.nearbyChunks' l
  ∧ Worker.sentClientChunks' r.2 = (close ∩ sent) ∪ Worker.sentClientChunks' l
  ∧ Worker.clientMissingChunks' r.2
    = (close ∖ sent) ∪ Worker.clientMissingChunks' l.
Proof.
  induction nearby as [|[[chunkId chunkPosition] distanceAway] nearby IH];
    intros w l.
  { simpl. unfold closeBy. simpl. set_solver. }
  cbn [foldl].
  pose proof (visitChunk_self w l chunkId chunkPosition distanceAway) as Hw.
  pose proof (visitChunk_voxels w l chunkId chunkPosition distanceAway) as Hv.
  destruct (Worker.visitChunk (w, l) (chunkId, chunkPosition, distanceAway))
    as [w1 l1].
  cbn [fst snd] in Hw, Hv. cbv zeta in Hw, Hv.
  destruct Hw as (Hself & _). destruct Hv as (Hn & Hs & Hm).
  specialize (IH w1 l1). cbv zeta in IH |- *.
  destruct IH as (IH1 & IH2 & IH3).
  rewrite IH1, IH2, IH3, Hn, Hs, Hm, Hself.
  destruct (withRequested_fields (Worker.worker w)
    (if bool_decide
          (Worker.chunkOutOfBounds (Worker.worker w) chunkPosition = false
           ∧ (chunkId ∉ dom (Worker.chunkCache w))
           ∧ chunkId ∉ Worker.requestedChunks (Worker.worker w))
     then {[chunkId]} ∪ Worker.requestedChunks (Worker.worker w)
     else Worker.requestedChunks (Worker.worker w))) as (-> & Hlw & _).
  rewrite (closeBy_bounds _ _ _ Hlw), closeBy_cons.
  destruct (Worker.chunkOutOfBounds (Worker.worker w) chunkPosition) eqn:Hb.
  { rewrite bool_decide_eq_false_2 by (intros (? & _); done). simpl.
    clear. repeat split; set_solver. }
  destruct (Z.ltb_spec distanceAway 3) as [Hd|Hd].
  - rewrite bool_decide_eq_true_2 by done.
    destruct (decide (chunkId ∈ Worker.sentClientChunks (Worker.worker w)))
      as [Hin|Hin].
    + rewrite bool_decide_eq_true_2 by done. simpl.
      clear -Hin. repeat split; set_solver.
    + rewrite bool_decide_eq_false_2 by done. simpl.
      clear -Hin. repeat split; set_solver.
  - rewrite bool_decide_eq_false_2 by (intros (_ & ?); lia). simpl.
    clear. repeat split; set_solver.
Qed.

Lemma withRequested_same (self : Worker.State) r :
  r = Worker.requestedChunks self → Worker.withRequested self r = self.
Proof. intros ->. by destruct self. Qed.

Lemma withRequested_twice (self : Worker.State) r r' :
  Worker.withRequested (Worker.withRequested self r) r'
  = Worker.withRequested self r'.
Proof. reflexivity. Qed.

Lemma inBounds_nil (self : Worker.State) : inBounds self [] = ∅.
Proof. reflexivity. Qed.

Lemma foldl_visitChunk_requests nearby : ∀ w l,
  let r := foldl Worker.visitChunk (w, l) nearby in
  let self := Worker.worker w in
  let tracked := inBounds self nearby in
  let cached := dom (Worker.chunkCache w) in
  let requested := Worker.requestedChunks self in
  Worker.worker r.1
  = Worker.withRequested self (requested ∪ (tracked ∖ cached))
  ∧ Worker.chunkCache r.1 = Worker.chunkCache w
  ∧ Worker.posted r.1 = Worker.posted w
  ∧ ∃ new,
      Worker.fetches r.1 = Worker.fetches w ++ new
      ∧ NoDup new.*1
      ∧ list_to_set new.*1 = tracked ∖ cached ∖ requested
      ∧ ∀ f, f ∈ new → ∃ d, (f.1, f.2, d) ∈ nearby.
Proof.
  induction nearby as [|[[chunkId chunkPosition] distanceAway] nearby IH];
    intros w l.
  { cbn [foldl fst]. cbv zeta. rewrite inBounds_nil.
    split; [|split; [done|split; [done|]]].
    - symmetry. apply withRequested_same. set_solver.
    - exists []. rewrite app_nil_r. repeat split; try done.
      + constructor.
      + cbn [fmap list_fmap list_to_set foldr]. set_solver.
      + intros f Hf. by apply elem_of_nil in Hf. }
  cbn [foldl].
  pose proof (visitChunk_self w l chunkId chunkPosition distanceAway) as Hw.
  destruct (Worker.visitChunk (w, l) (chunkId, chunkPosition, distanceAway))
    as [w1 l1].
  cbn [fst snd] in Hw. cbv zeta in Hw. destruct Hw as (Hself & Hf & Hp & Hc).
  specialize (IH w1 l1). cbv zeta in IH |- *.
  destruct IH as (IH1 & IH2 & IH3 & new & IH4 & IH5 & IH6 & IH7).
  rewrite IH1, IH2, IH3, Hc, Hp.
  assert (Hlw : Worker.lastWorldChunks (Worker.worker w1)
                = Worker.lastWorldChunks (Worker.worker w)) by (by rewrite Hself).
  rewrite (inBounds_bounds _ _ _ Hlw) in *. rewrite inBounds_cons.
  rewrite Hc in IH6. rewrite Hself in IH6 |- *.
  rewrite withRequested_twice.
  destruct (withRequested_fields (Worker.worker w)
    (if bool_decide
          (Worker.chunkOutOfBounds (Worker.worker w) chunkPosition = false
           ∧ (chunkId ∉ dom (Worker.chunkCache w))
           ∧ chunkId ∉ Worker.requestedChunks (Worker.worker w))
     then {[chunkId]} ∪ Worker.requestedChunks (Worker.worker w)
     else Worker.requestedChunks (Worker.worker w))) as (_ & _ & Hreq).
  rewrite Hreq in IH6 |- *. clear Hreq.
  split; [|split; [done|split; [done|]]].
  - f_equal.
    case_bool_decide as Hfresh.
    + destruct Hfresh as (-> & ? & ?). set_solver.
    + destruct (Worker.chunkOutOfBounds (Worker.worker w) chunkPosition) eqn:Hb;
        [set_solver|].
      apply set_eq. intros i.
      destruct (decide (i = chunkId)) as [->|]; [|set_solver].
      destruct (decide (chunkId ∈ dom (Worker.chunkCache w))); [set_solver|].
      destruct (decide (chunkId ∈ Worker.requestedChunks (Worker.worker w)));
        [set_solver|].
      destruct Hfresh. done.
  - rewrite IH4, Hf. case_bool_decide as Hfresh.
    + destruct Hfresh as (Hb & Hnc & Hnr). rewrite Hb in *.
      exists ((chunkId, chunkPosition) :: new). rewrite <- app_assoc.
      split; [done|]. cbn [fmap list_fmap fst]. split; [|split].
      * constructor; [|done].
        intros Hin. apply (elem_of_list_to_set (C:=gset string)) in Hin.
        rewrite IH6 in Hin. set_solver.
      * cbn [list_to_set foldr]. change (list_to_set (list_fmap _ _ fst new))
          with (list_to_set (C:=gset string) new.*1).
        rewrite IH6. apply set_eq. intros i.
        destruct (decide (i = chunkId)) as [->|]; set_solver.
      * intros f Hin. apply elem_of_cons in Hin as [->|Hin].
        -- exists distanceAway. simpl. set_solver.
        -- destruct (IH7 f Hin) as [d Hd]. exists d. set_solver.
    + exists new. rewrite app_nil_r. split; [done|]. split; [done|]. split.
      * rewrite IH6.
        destruct (Worker.chunkOutOfBounds (Worker.worker w) chunkPosition) eqn:Hb;
          [set_solver|].
        apply set_eq. intros i.
        destruct (decide (i = chunkId)) as [->|]; [|set_solver].
        destruct (decide (chunkId ∈ dom (Worker.chunkCache w))); [set_solver|].
        destruct (decide (chunkId ∈ Worker.requestedChunks (Worker.worker w)));
          [set_solver|].
        destruct Hfresh. done.
      * intros f Hin. destruct (IH7 f Hin) as [d Hd]. exists d. set_solver.
Qed.

(** The pieces of the result of [regionChange]. *)
Lemma regionChange_unfold nearby w :
  let r := foldl Worker.visitChunk (w, Worker.noFresh) nearby in
  let self := Worker.worker r.1 in
  Worker.regionChange nearby w
  = Worker.mkWorld
      (Worker.mkState (Worker.nearbyChunks' r.2) (Worker.chunkDistances' r.2)
         (Worker.sentClientChunks' r.2) (Worker.sentClientMeshes' r.2)
         (Worker.missingChunks self)
         (filter (λ chunkId, chunkId ∈ dom (Worker.chunkDistances' r.2))
            (Worker.requestedChunks self))
         (Worker.clientMissingChunks' r.2) (Worker.clientMissingMeshes' r.2)
         (Worker.lastWorldChunks self))
      (Worker.chunkCache r.1)
      (Worker.posted r.1 ++ [Worker.meshesToShow (Worker.chunkDistances' r.2);
                              Worker.nearbyChunksMessage (Worker.nearbyChunks' r.2)])
      (Worker.fetches r.1).
Proof.
  unfold Worker.regionChange.
  by destruct (foldl Worker.visitChunk (w, Worker.noFresh) nearby) as [w1 l1].
Qed.

(** X11: after [regionChange] the chunks whose voxels the client needs,
    [nearbyChunks], are the enumerated chunks in bounds closer than 3; they
    are split into those whose voxels were sent before and those missing,
    and all of them are tracked. *)
Theorem regionChange_voxel_sets nearby w :
  let self := Worker.worker (Worker.regionChange nearby w) in
  let sent := Worker.sentClientChunks (Worker.worker w) in
  let close := closeBy (Worker.worker w) nearby in
  Worker.nearbyChunks self = close
  ∧ Worker.sentClientChunks self = close ∩ sent
  ∧ Worker.clientMissingChunks self = close ∖ sent
  ∧ Worker.nearbyChunks self ⊆ dom (Worker.chunkDistances self).
Proof.
  rewrite regionChange_unfold. cbv zeta.
  destruct (foldl_visitChunk_voxels nearby w Worker.noFresh) as (H1 & H2 & H3).
  destruct (foldl_visitChunk_meshes nearby w Worker.noFresh)
    as (_ & _ & _ & H4 & _).
  cbn [Worker.worker Worker.nearbyChunks Worker.sentClientChunks
       Worker.clientMissingChunks Worker.chunkDistances].
  rewrite H1, H2, H3, H4. simpl.
  pose proof (closeBy_inBounds (Worker.worker w) nearby).
  repeat split; set_solver.
Qed.

(** X12: after [regionChange] the requested chunks are the tracked chunks
    that were requested before or are not cached; so every tracked chunk is
    cached or requested, and no request is kept for an untracked chunk. *)
Theorem regionChange_requests nearby w :
  let self := Worker.worker (Worker.regionChange nearby w) in
  let tracked := dom (Worker.chunkDistances self) in
  let cached := dom (Worker.chunkCache w) in
  Worker.requestedChunks self
  = (Worker.requestedChunks (Worker.worker w) ∪ (tracked ∖ cached)) ∩ tracked
  ∧ tracked ⊆ cached ∪ Worker.requestedChunks self
  ∧ Worker.requestedChunks self ⊆ tracked.
Proof.
  rewrite regionChange_unfold. cbv zeta.
  destruct (foldl_visitChunk_requests nearby w Worker.noFresh) as (H1 & _).
  destruct (foldl_visitChunk_meshes nearby w Worker.noFresh)
    as (_ & _ & _ & H4 & _).
  cbn [Worker.worker Worker.requestedChunks Worker.chunkDistances].
  rewrite H1. cbn [Worker.requestedChunks Worker.withRequested].
  rewrite H4.
  change (Worker.chunkDistances' Worker.noFresh) with (∅ : gmap string Z).
  rewrite dom_empty_L, (right_id_L ∅ (∪)).
  assert (Heq : filter (λ chunkId, chunkId ∈ inBounds (Worker.worker w) nearby)
            (Worker.requestedChunks (Worker.worker w)
             ∪ inBounds (Worker.worker w) nearby ∖ dom (Worker.chunkCache w))
          = (Worker.requestedChunks (Worker.worker w)
             ∪ inBounds (Worker.worker w) nearby ∖ dom (Worker.chunkCache w))
            ∩ inBounds (Worker.worker w) nearby).
  { apply set_eq. intros i. rewrite elem_of_filter. set_solver. }
  rewrite Heq. split; [done|]. split; [|set_solver].
  intros i Hi. destruct (decide (i ∈ dom (Worker.chunkCache w))); set_solver.
Qed.

(** X13: [regionChange] hands a fetch to the limiter for exactly the tracked
    chunks that are neither cached nor already requested, once each, with a
    position that was enumerated for the chunk. *)
Theorem regionChange_fetches nearby w :
  let w' := Worker.regionChange nearby w in
  let self := Worker.worker w in
  ∃ new,
    Worker.fetches w' = Worker.fetches w ++ new
    ∧ NoDup new.*1
    ∧ list_to_set new.*1
      = dom (Worker.chunkDistances (Worker.worker w'))
          ∖ dom (Worker.chunkCache w) ∖ Worker.requestedChunks self
    ∧ ∀ f, f ∈ new → ∃ d, (f.1, f.2, d) ∈ nearby.
Proof.
  rewrite regionChange_unfold. cbv zeta.
  destruct (foldl_visitChunk_requests nearby w Worker.noFresh)
    as (_ & _ & _ & new & H1 & H2 & H3 & H4).
  destruct (foldl_visitChunk_meshes nearby w Worker.noFresh)
    as (_ & _ & _ & H5 & _).
  exists new. cbn [Worker.worker Worker.fetches Worker.chunkDistances].
  rewrite H5.
  change (Worker.chunkDistances' Worker.noFresh) with (∅ : gmap string Z).
  rewrite dom_empty_L, (right_id_L ∅ (∪)). done.
Qed.

(** X14: [regionChange] never changes the chunk cache: no chunk is evicted
    or added.  It keeps the world bounds and [missingChunks], and posts the
    new distance map and the new [nearbyChunks], in this order. *)
Theorem regionChange_frame nearby w :
  let w' := Worker.regionChange nearby w in
  Worker.chunkCache w' = Worker.chunkCache w
  ∧ Worker.lastWorldChunks (Worker.worker w')
    = Worker.lastWorldChunks (Worker.worker w)
  ∧ Worker.missingChunks (Worker.worker w')
    = Worker.missingChunks (Worker.worker w)
  ∧ Worker.posted w'
    = Worker.posted w
      ++ [Worker.meshesToShow (Worker.chunkDistances (Worker.worker w'));
          Worker.nearbyChunksMessage (Worker.nearbyChunks (Worker.worker w'))].
Proof.
  rewrite regionChange_unfold. cbv zeta.
  destruct (foldl_visitChunk_requests nearby w Worker.noFresh)
    as (H1 & H2 & H3 & _).
  cbn [Worker.worker Worker.chunkCache Worker.posted Worker.lastWorldChunks
       Worker.missingChunks Worker.chunkDistances Worker.nearbyChunks].
  rewrite H1, H2, H3. done.
Qed.

Lemma visitChunk_distances w l chunkId chunkPosition distanceAway :
  let r := Worker.visitChunk (w, l) (chunkId, chunkPosition, distanceAway) in
  Worker.chunkDistances' r.2
  = (if Worker.chunkOutOfBounds (Worker.worker w) chunkPosition
     then Worker.chunkDistances' l
     else <[chunkId := distanceAway]> (Worker.chunkDistances' l)).
Proof.
  unfold Worker.visitChunk. cbv zeta.
  destruct (Worker.chunkOutOfBounds (Worker.worker w) chunkPosition);
    [reflexivity|].
  cbn [snd Worker.chunkDistances'].
  destruct (decide (chunkId ∈ Worker.sentClientMeshes (Worker.worker w)));
    cbn [Worker.chunkDistances'];
    destruct (distanceAway <? 3); cbn [Worker.chunkDistances'];
    try destruct (decide (chunkId ∈ Worker.sentClientChunks (Worker.worker w)));
    reflexivity.
Qed.

Lemma chunkOutOfBounds_bounds (self self' : Worker.State) p :
  Worker.lastWorldChunks self' = Worker.lastWorldChunks self →
  Worker.chunkOutOfBounds self' p = Worker.chunkOutOfBounds self p.
Proof. intros H. unfold Worker.chunkOutOfBounds. by rewrite H. Qed.

Lemma foldl_visitChunk_distances (chunkId : string) nearby : ∀ w l,
  let r := foldl Worker.visitChunk (w, l) nearby in
  Worker.chunkDistances' r.2 !! chunkId
  = match last (filter (λ e, e.1.1 = chunkId
                             ∧ Worker.chunkOutOfBounds (Worker.worker w) e.1.2 = false)
                  nearby) with
    | Some e => Some e.2
    | None => Worker.chunkDistances' l !! chunkId
    end.
Proof.
  induction nearby as [|[[chunkId' chunkPosition] distanceAway] nearby IH];
    intros w l; [done|].
  cbn [foldl].
  pose proof (visitChunk_worker w l (chunkId', chunkPosition, distanceAway)) as Hw.
  pose proof (visitChunk_distances w l chunkId' chunkPosition distanceAway) as Hd.
  destruct (Worker.visitChunk (w, l) (chunkId', chunkPosition, distanceAway))
    as [w1 l1].
  cbn [fst snd] in Hw, Hd. cbv zeta in Hd. destruct Hw as (_ & Hb & _).
  specialize (IH w1 l1). cbv zeta in IH |- *. rewrite IH. clear IH.
  rewrite (list_filter_iff _
    (λ e, e.1.1 = chunkId
          ∧ Worker.chunkOutOfBounds (Worker.worker w) e.1.2 = false))
    by (intros e; by rewrite (chunkOutOfBounds_bounds _ _ _ Hb)).
  rewrite filter_cons. cbn [fst snd].
  set (F := filter (λ e, e.1.1 = chunkId
                         ∧ Worker.chunkOutOfBounds (Worker.worker w) e.1.2 = false)
              nearby).
  destruct (last F) as [e|] eqn:Hlast.
  - case_decide; [rewrite last_cons|]; by rewrite Hlast.
  - rewrite Hd. case_decide as Hm.
    + destruct Hm as [-> ->]. by rewrite last_cons, Hlast, lookup_insert_eq.
    + rewrite Hlast.
      destruct (Worker.chunkOutOfBounds (Worker.worker w) chunkPosition) eqn:Ho;
        [done|].
      rewrite lookup_insert_ne; [done|]. intros ->. by destruct Hm.
Qed.

(** X15: the distance recorded for a chunk is the one of its last
    enumeration inside the world bounds; a chunk never enumerated in bounds
    has none. *)
Theorem regionChange_distances nearby w (chunkId : string) :
  Worker.chunkDistances (Worker.worker (Worker.regionChange nearby w)) !! chunkId
  = (λ e, e.2)
      <$> last (filter (λ e, e.1.1 = chunkId
                             ∧ Worker.chunkOutOfBounds (Worker.worker w) e.1.2 = false)
                 nearby).
Proof.
  rewrite regionChange_unfold. cbv zeta. cbn [Worker.worker Worker.chunkDistances].
  rewrite foldl_visitChunk_distances.
  by destruct (last _).
Qed.

Lemma State_eq (s1 s2 : Worker.State) :
  Worker.nearbyChunks s1 = Worker.nearbyChunks s2 →
  Worker.chunkDistances s1 = Worker.chunkDistances s2 →
  Worker.sentClientChunks s1 = Worker.sentClientChunks s2 →
  Worker.sentClientMeshes s1 = Worker.sentClientMeshes s2 →
  Worker.missingChunks s1 = Worker.missingChunks s2 →
  Worker.requestedChunks s1 = Worker.requestedChunks s2 →
  Worker.clientMissingChunks s1 = Worker.clientMissingChunks s2 →
  Worker.clientMissingMeshes s1 = Worker.clientMissingMeshes s2 →
  Worker.lastWorldChunks s1 = Worker.lastWorldChunks s2 →
  s1 = s2.
Proof. destruct s1, s2. simpl. by intros -> -> -> -> -> -> -> -> ->. Qed.

(** The whole effect of [regionChange] on the worker, the cache and the
    fetches, in terms of the chunks enumerated in bounds. *)
Lemma regionChange_spec nearby w :
  let w' := Worker.regionChange nearby w in
  let self := Worker.worker w in
  let self' := Worker.worker w' in
  let tracked := inBounds self nearby in
  let close := closeBy self nearby in
  Worker.chunkCache w' = Worker.chunkCache w
  ∧ Worker.lastWorldChunks self' = Worker.lastWorldChunks self
  ∧ Worker.missingChunks self' = Worker.missingChunks self
  ∧ dom (Worker.chunkDistances self') = tracked
  ∧ Worker.nearbyChunks self' = close
  ∧ Worker.sentClientChunks self' = close ∩ Worker.sentClientChunks self
  ∧ Worker.clientMissingChunks self' = close ∖ Worker.sentClientChunks self
  ∧ Worker.sentClientMeshes self' = tracked ∩ Worker.sentClientMeshes self
  ∧ Worker.clientMissingMeshes self' = tracked ∖ Worker.sentClientMeshes self
  ∧ Worker.requestedChunks self'
    = (Worker.requestedChunks self ∪ (tracked ∖ dom (Worker.chunkCache w)))
      ∩ tracked
  ∧ ∃ new,
      Worker.fetches w' = Worker.fetches w ++ new
      ∧ NoDup new.*1
      ∧ list_to_set new.*1
        = tracked ∖ dom (Worker.chunkCache w) ∖ Worker.requestedChunks self.
Proof.
  cbv zeta.
  destruct (regionChange_meshes nearby w) as (Hd & Hs & Hm). cbv zeta in *.
  rewrite Hd, Hs, Hm. clear Hd Hs Hm.
  rewrite regionChange_unfold. cbv zeta.
  destruct (foldl_visitChunk_voxels nearby w Worker.noFresh) as (H1 & H2 & H3).
  destruct (foldl_visitChunk_meshes nearby w Worker.noFresh)
    as (_ & _ & _ & H4 & _).
  destruct (foldl_visitChunk_requests nearby w Worker.noFresh)
    as (H5 & H6 & _ & new & H7 & H8 & H9 & _).
  cbn [Worker.worker Worker.chunkCache Worker.fetches Worker.lastWorldChunks
       Worker.missingChunks Worker.nearbyChunks Worker.sentClientChunks
       Worker.clientMissingChunks Worker.requestedChunks].
  rewrite H1, H2, H3, H4, H5, H6.
  cbn [Worker.requestedChunks Worker.lastWorldChunks Worker.missingChunks
       Worker.withRequested].
  change (Worker.chunkDistances' Worker.noFresh) with (∅ : gmap string Z).
  change (Worker.nearbyChunks' Worker.noFresh) with (∅ : gset string).
  change (Worker.sentClientChunks' Worker.noFresh) with (∅ : gset string).
  change (Worker.clientMissingChunks' Worker.noFresh) with (∅ : gset string).
  rewrite dom_empty_L, !(right_id_L ∅ (∪)).
  repeat (split; [done|]).
  split.
  { apply set_eq. intros i. rewrite elem_of_filter. set_solver. }
  exists new. done.
Qed.

Lemma regionChange_chunkDistances nearby w :
  Worker.chunkDistances (Worker.worker (Worker.regionChange nearby w))
  = Worker.chunkDistances' (foldl Worker.visitChunk (w, Worker.noFresh) nearby).2.
Proof. by rewrite regionChange_unfold. Qed.

(** X16: a second [regionChange] on the same enumeration changes nothing
    but the messages: the worker and the cache stay as the first call left
    them and no further fetch is issued. *)
Theorem regionChange_idempotent nearby w :
  let w1 := Worker.regionChange nearby w in
  let w2 := Worker.regionChange nearby w1 in
  Worker.worker w2 = Worker.worker w1
  ∧ Worker.chunkCache w2 = Worker.chunkCache w1
  ∧ Worker.fetches w2 = Worker.fetches w1.
Proof.
  intros w1 w2.
  destruct (regionChange_spec nearby w)
    as (Hc1 & Hb1 & Hm1 & Hd1 & Hn1 & Hvs1 & Hvm1 & Hs1 & Hmm1 & Hr1 & _).
  destruct (regionChange_spec nearby w1)
    as (Hc2 & Hb2 & Hm2 & Hd2 & Hn2 & Hvs2 & Hvm2 & Hs2 & Hmm2 & Hr2
        & new & Hf & _ & Hset).
  cbv zeta in *.
  fold w1 in Hc1, Hb1, Hm1, Hd1, Hn1, Hvs1, Hvm1, Hs1, Hmm1, Hr1.
  fold w1 w2 in Hc2, Hb2, Hm2, Hd2, Hn2, Hvs2, Hvm2, Hs2, Hmm2, Hr2, Hf, Hset.
  rewrite (inBounds_bounds _ _ _ Hb1) in *.
  rewrite (closeBy_bounds _ _ _ Hb1) in *.
  pose proof (closeBy_inBounds (Worker.worker w) nearby) as Hsub.
  assert (Hnew : new = []).
  { destruct new as [|f new]; [done|]. exfalso.
    assert (f.1 ∈ (list_to_set ((f :: new).*1) : gset string)) as Hin
      by (cbn [fmap list_fmap list_to_set foldr]; set_solver).
    rewrite Hset, Hr1, Hc1 in Hin. clear -Hin. set_solver. }
  split; [|split; [done|by rewrite Hf, Hnew, app_nil_r]].
  apply State_eq; try congruence.
  - apply map_eq. intros i. unfold w2.
    rewrite (regionChange_chunkDistances nearby w1). unfold w1.
    rewrite (regionChange_chunkDistances nearby w). fold w1.
    rewrite !foldl_visitChunk_distances.
    replace (filter (λ e, e.1.1 = i
               ∧ Worker.chunkOutOfBounds (Worker.worker w1) e.1.2 = false) nearby)
      with (filter (λ e, e.1.1 = i
               ∧ Worker.chunkOutOfBounds (Worker.worker w) e.1.2 = false) nearby);
      [done|].
    apply list_filter_iff. intros e.
    by rewrite (chunkOutOfBounds_bounds _ _ _ Hb1).
  - rewrite Hvs2, Hvs1. clear. set_solver.
  - rewrite Hs2, Hs1. clear. set_solver.
  - rewrite Hr2, Hr1, Hc1. clear. set_solver.
  - rewrite Hvm2, Hvm1, Hvs1. clear. set_solver.
  - rewrite Hmm2, Hmm1, Hs1. clear. set_solver.
Qed.

End RegionChangeMore.

(** ** Delivery, continued *)

Section DeliveryMore.
Context {fl : Type}.
Context (mesher : gmap string ChunkCache.Chunk → Position → list Z →
                  option (gmap Z (Mesher.TextureMesh fl))).
Implicit Types (w : Worker.World fl).

Lemma withVoxelsDelivered_empty (self : Worker.State) :
  withVoxelsDelivered self ∅ = self.
Proof.
  destruct self. unfold withVoxelsDelivered. simpl. f_equal; set_solver.
Qed.

Lemma withVoxelsDelivered_sent (self : Worker.State) chunkId delivered :
  withVoxelsDelivered (Worker.withVoxelsSent self chunkId) delivered
  = withVoxelsDelivered self ({[chunkId]} ∪ delivered).
Proof.
  unfold withVoxelsDelivered, Worker.withVoxelsSent. simpl. f_equal; set_solver.
Qed.

Lemma withMeshesDelivered_empty (self : Worker.State) :
  withMeshesDelivered self ∅ = self.
Proof.
  destruct self. unfold withMeshesDelivered. simpl. f_equal; set_solver.
Qed.

Lemma withMeshesDelivered_sent (self : Worker.State) chunkId delivered :
  withMeshesDelivered (Worker.withMeshSent self chunkId) delivered
  = withMeshesDelivered self ({[chunkId]} ∪ delivered).
Proof.
  unfold withMeshesDelivered, Worker.withMeshSent. simpl. f_equal; set_solver.
Qed.

(** The first loop, on any list of keys: the cached ones are delivered. *)
Lemma sendVoxels_spec chunkIds : ∀ w,
  let w' := Worker.sendVoxels chunkIds w in
  let cache := Worker.chunkCache w in
  Worker.chunkCache w' = cache
  ∧ Worker.fetches w' = Worker.fetches w
  ∧ Worker.worker w'
    = withVoxelsDelivered (Worker.worker w) (list_to_set chunkIds ∩ dom cache)
  ∧ Worker.posted w'
    = Worker.posted w
      ++ omap (λ chunkId, Worker.chunkVoxels <$> cache !! chunkId) chunkIds.
Proof.
  induction chunkIds as [|chunkId rest IH]; intros w; cbv zeta.
  { simpl. rewrite app_nil_r. repeat split; try done.
    rewrite (left_absorb_L ∅ (∩)). by rewrite withVoxelsDelivered_empty. }
  cbn [Worker.sendVoxels omap list_omap].
  destruct (Worker.chunkCache w !! chunkId) as [chunk|] eqn:Hc.
  - destruct (IH (Worker.mkWorld (Worker.withVoxelsSent (Worker.worker w) chunkId)
                    (Worker.chunkCache w)
                    (Worker.posted w ++ [Worker.chunkVoxels chunk])
                    (Worker.fetches w))) as (H1 & H2 & H3 & H4).
    cbv zeta in *. cbn [Worker.chunkCache Worker.fetches Worker.worker Worker.posted] in *.
    rewrite H1, H2, H3, H4. repeat split; try done.
    + rewrite withVoxelsDelivered_sent. f_equal.
      apply elem_of_dom_2 in Hc. cbn [list_to_set foldr]. set_solver.
    + cbn [fmap option_fmap option_map]. by rewrite <- app_assoc.
  - destruct (IH w) as (H1 & H2 & H3 & H4). cbv zeta in *.
    rewrite H1, H2, H3, H4. repeat split; try done.
    f_equal. apply not_elem_of_dom in Hc. cbn [list_to_set foldr]. set_solver.
Qed.

(** The second loop, from index [i] on any list of distinct keys. *)
Lemma sendMeshes_spec chunkIds : ∀ i w,
  NoDup chunkIds →
  let w' := Worker.sendMeshes mesher i chunkIds w in
  let cache := Worker.chunkCache w in
  ∃ delivered,
    sublist delivered chunkIds
    ∧ (∀ chunkId, chunkId ∈ delivered → chunkId ∈ dom cache)
    ∧ Worker.chunkCache w' = cache
    ∧ Worker.fetches w' = Worker.fetches w
    ∧ Worker.worker w'
      = withMeshesDelivered (Worker.worker w) (list_to_set delivered)
    ∧ Worker.meshCount (Worker.posted w')
      = (Worker.meshCount (Worker.posted w) + length delivered)%nat
    ∧ voxelsCount (Worker.posted w') = voxelsCount (Worker.posted w)
    ∧ (∀ m, m ∈ Worker.posted w → m ∈ Worker.posted w')
    ∧ (∀ chunkId, chunkId ∈ delivered →
         ∃ chunk, cache !! chunkId = Some chunk
           ∧ meshMessage mesher cache chunkId chunk ∈ Worker.posted w')
    ∧ ((length chunkIds + i ≤ 11)%nat →
       delivered = filter (λ chunkId, chunkId ∈ dom cache) chunkIds)
    ∧ ((∃ chunkId, chunkId ∈ chunkIds ∧ chunkId ∈ dom cache) → delivered ≠ []).
Proof.
  induction chunkIds as [|chunkId rest IH]; intros i w Hnd; cbv zeta.
  { exists []. simpl. rewrite withMeshesDelivered_empty.
    repeat split; try done; try lia.
    - intros c Hc. by apply elem_of_nil in Hc.
    - intros c Hc. by apply elem_of_nil in Hc.
    - intros (c & Hc & _). by apply elem_of_nil in Hc. }
  apply NoDup_cons in Hnd as [Hnotin Hnd].
  cbn [Worker.sendMeshes].
  destruct (Worker.chunkCache w !! chunkId) as [chunk|] eqn:Hc.
  - set (w1 := Worker.mkWorld (Worker.withMeshSent (Worker.worker w) chunkId)
                 (Worker.chunkCache w) _ (Worker.fetches w)).
    assert (Hcount1 : Worker.meshCount (Worker.posted w1)
                      = (Worker.meshCount (Worker.posted w) + 1)%nat).
    { unfold w1. cbn [Worker.posted]. by rewrite meshCount_snoc. }
    assert (Hvox1 : voxelsCount (Worker.posted w1) = voxelsCount (Worker.posted w)).
    { unfold w1, voxelsCount. cbn [Worker.posted].
      rewrite List.filter_app, length_app. simpl. lia. }
    destruct (Nat.ltb_spec 9 i) as [Hi|Hi].
    + exists [chunkId]. cbn [list_to_set foldr length].
      rewrite (right_id_L ∅ (∪)).
      split; [apply sublist_skip, sublist_nil_l|].
      split; [intros c Hin; apply list_elem_of_singleton in Hin as ->;
              by apply elem_of_dom_2 in Hc|].
      split; [done|]. split; [done|].
      split.
      { unfold w1. cbn [Worker.worker].
        rewrite <- (withMeshesDelivered_empty (Worker.withMeshSent _ _)).
        rewrite withMeshesDelivered_sent. f_equal. set_solver. }
      split; [done|]. split; [done|].
      split; [intros m Hm; unfold w1; cbn [Worker.posted];
              apply elem_of_app; by left|].
      split.
      { intros c Hin. apply list_elem_of_singleton in Hin as ->.
        exists chunk. split; [done|]. unfold w1. cbn [Worker.posted].
        apply elem_of_app. right. by apply list_elem_of_singleton. }
      split.
      { intros Hlen. simpl in Hlen. destruct rest; [|simpl in Hlen; lia].
        rewrite filter_cons, decide_True by (by apply elem_of_dom_2 in Hc).
        done. }
      done.
    + destruct (IH (S i) w1 Hnd)
        as (delivered & Hs & Hin & H1 & H2 & H3 & H4 & H5 & H6 & H7 & H8 & H9).
      cbv zeta in *. unfold w1 in H1, H2, H3 at 2. 
      cbn [Worker.chunkCache Worker.fetches Worker.worker] in H1, H2, H3, Hin, H7, H8.
      exists (chunkId :: delivered).
      split; [by apply sublist_skip|].
      split.
      { intros c Hc'. apply elem_of_cons in Hc' as [->|Hc']; [|by apply Hin].
        by apply elem_of_dom_2 in Hc. }
      split; [done|]. split; [done|].
      split.
      { rewrite H3, withMeshesDelivered_sent. done. }
      split; [rewrite H4, Hcount1; simpl; lia|].
      split; [by rewrite H5|].
      split; [intros m Hm; apply H6; unfold w1; cbn [Worker.posted];
              apply elem_of_app; by left|].
      split.
      { intros c Hc'. apply elem_of_cons in Hc' as [->|Hc']; [|by apply H7].
        exists chunk. split; [done|]. apply H6. unfold w1. cbn [Worker.posted].
        apply elem_of_app. right. by apply list_elem_of_singleton. }
      split.
      { intros Hlen. simpl in Hlen.
        rewrite filter_cons, decide_True by (by apply elem_of_dom_2 in Hc).
        f_equal. apply H8. lia. }
      done.
  - destruct (IH (S i) w Hnd)
      as (delivered & Hs & Hin & H1 & H2 & H3 & H4 & H5 & H6 & H7 & H8 & H9).
    cbv zeta in *. exists delivered.
    split; [by apply sublist_cons|].
    repeat (split; [done|]).
    split.
    { intros Hlen. simpl in Hlen.
      rewrite filter_cons, decide_False by (by apply not_elem_of_dom in Hc).
      apply H8. lia. }
    intros (c & Hc' & Hcc). apply H9.
    apply elem_of_cons in Hc' as [->|Hc']; [|by eauto].
    apply not_elem_of_dom in Hc. done.
Qed.

Lemma sendVoxels_posted chunkIds w chunkId chunk :
  chunkId ∈ chunkIds → Worker.chunkCache w !! chunkId = Some chunk →
  Worker.chunkVoxels chunk ∈ Worker.posted (Worker.sendVoxels chunkIds w).
Proof.
  intros Hin Hc. pose proof (sendVoxels_spec chunkIds w) as H.
  cbv zeta in H. destruct H as (_ & _ & _ & Hp). rewrite Hp.
  apply elem_of_app. right. apply list_elem_of_omap.
  exists chunkId. split; [done|]. by rewrite Hc.
Qed.

(** The state between the two loops of [processChunks]. *)
Lemma processChunks_unfold w :
  Worker.processChunks mesher w
  = Worker.sendMeshes mesher 0
      (elements (Worker.clientMissingMeshes (Worker.worker w)))
      (Worker.sendVoxels
         (elements (Worker.clientMissingChunks (Worker.worker w))) w).
Proof.
  unfold Worker.processChunks. cbv zeta.
  pose proof (sendVoxels_spec
                (elements (Worker.clientMissingChunks (Worker.worker w))) w) as H.
  cbv zeta in H. destruct H as (_ & _ & Hw & _). rewrite Hw. reflexivity.
Qed.

(** The whole effect of one call of [processChunks]; [delivered] are the
    chunks whose mesh was sent, in the order of the keys. *)
Lemma processChunks_spec w :
  let w' := Worker.processChunks mesher w in
  let self := Worker.worker w in
  let cache := Worker.chunkCache w in
  ∃ delivered,
    sublist delivered (elements (Worker.clientMissingMeshes self))
    ∧ (∀ chunkId, chunkId ∈ delivered → chunkId ∈ dom cache)
    ∧ Worker.chunkCache w' = cache
    ∧ Worker.fetches w' = Worker.fetches w
    ∧ Worker.worker w'
      = withMeshesDelivered
          (withVoxelsDelivered self (Worker.clientMissingChunks self ∩ dom cache))
          (list_to_set delivered)
    ∧ Worker.meshCount (Worker.posted w')
      = (Worker.meshCount (Worker.posted w) + length delivered)%nat
    ∧ (∀ chunkId chunk,
         chunkId ∈ Worker.clientMissingChunks self →
         cache !! chunkId = Some chunk →
         Worker.chunkVoxels chunk ∈ Worker.posted w')
    ∧ (∀ chunkId, chunkId ∈ delivered →
         ∃ chunk, cache !! chunkId = Some chunk
           ∧ meshMessage mesher cache chunkId chunk ∈ Worker.posted w')
    ∧ ((size (Worker.clientMissingMeshes self) ≤ 11)%nat →
       list_to_set delivered = Worker.clientMissingMeshes self ∩ dom cache)
    ∧ ((∃ chunkId, chunkId ∈ Worker.clientMissingMeshes self
                   ∧ chunkId ∈ dom cache) → delivered ≠ []).
Proof.
  cbv zeta. rewrite processChunks_unfold.
  set (w1 := Worker.sendVoxels _ w).
  destruct (sendVoxels_spec
              (elements (Worker.clientMissingChunks (Worker.worker w))) w)
    as (Hc1 & Hf1 & Hw1 & Hp1).
  fold w1 in Hc1, Hf1, Hw1, Hp1. rewrite list_to_set_elements_L in Hw1.
  destruct (sendMeshes_spec
              (elements (Worker.clientMissingMeshes (Worker.worker w))) 0 w1
              (NoDup_elements _))
    as (delivered & Hsub & Hcached & Hc2 & Hf2 & Hw2 & Hcount & _ & Hposted
        & Hmsg & Hall & Hne).
  rewrite Hc1 in Hcached, Hmsg, Hall, Hne.
  exists delivered.
  split; [done|]. split; [done|].
  split; [by rewrite Hc2|]. split; [by rewrite Hf2|].
  split; [by rewrite Hw2, Hw1|].
  split.
  { rewrite Hcount. f_equal. rewrite Hp1. unfold Worker.meshCount.
    rewrite List.filter_app, length_app.
    assert (Hnone : ∀ l : list string,
      List.filter Worker.isChunkMesh
        (omap (λ chunkId,
                 Worker.chunkVoxels (fl:=fl) <$> Worker.chunkCache w !! chunkId) l)
      = []).
    { induction l as [|c l IH]; [done|]. simpl.
      destruct (Worker.chunkCache w !! c); simpl; done. }
    rewrite Hnone. simpl. lia. }
  split.
  { intros chunkId chunk Hin Hc. apply Hposted.
    apply (sendVoxels_posted _ w chunkId chunk); [by apply elem_of_elements|done]. }
  split; [done|].
  split; [|intros (c & Hc & Hcc); apply Hne; exists c;
           split; [by apply elem_of_elements|done]].
  intros Hsize. rewrite Hall by (unfold size, set_size in Hsize; simpl in *; lia).
  apply set_eq. intros c.
  rewrite elem_of_list_to_set, list_elem_of_filter, elem_of_elements,
    elem_of_intersection.
  tauto.
Qed.

Lemma delivered_moved (missing delivered : gset string) :
  delivered ⊆ missing → missing ∖ (missing ∖ delivered) = delivered.
Proof.
  intros H. apply set_eq. intros c.
  destruct (decide (c ∈ delivered)); set_solver.
Qed.

(** With a backlog of at most eleven, a cached chunk waiting for its mesh
    gets it in the next call. *)
Lemma small_backlog_message w chunkId chunk :
  (size (Worker.clientMissingMeshes (Worker.worker w)) ≤ 11)%nat →
  chunkId ∈ Worker.clientMissingMeshes (Worker.worker w) →
  Worker.chunkCache w !! chunkId = Some chunk →
  let w' := Worker.processChunks mesher w in
  meshMessage mesher (Worker.chunkCache w) chunkId chunk ∈ Worker.posted w'
  ∧ (chunkId ∉ Worker.clientMissingMeshes (Worker.worker w'))
  ∧ chunkId ∈ Worker.sentClientMeshes (Worker.worker w').
Proof.
  intros Hsize Hin Hc. cbv zeta.
  destruct (processChunks_spec w)
    as (delivered & _ & _ & _ & _ & Hw & _ & _ & Hmsg & Hall & _).
  cbv zeta in *. specialize (Hall Hsize).
  assert (Hd : chunkId ∈ delivered).
  { apply (elem_of_list_to_set (C:=gset string)). rewrite Hall.
    apply elem_of_intersection. split; [done|]. by apply elem_of_dom_2 in Hc. }
  destruct (Hmsg _ Hd) as (chunk' & Hc' & Hm).
  assert (chunk' = chunk) as -> by congruence.
  rewrite Hw. cbn [Worker.clientMissingMeshes Worker.sentClientMeshes
                   withMeshesDelivered withVoxelsDelivered].
  split; [done|]. clear -Hd. set_solver.
Qed.

(** X17: [processChunks] sends the voxels of every chunk of
    [clientMissingChunks] that is cached, whatever their number: afterwards
    the missing ones are those not cached, the cached ones are in
    [sentClientChunks], and a [chunkVoxels] message with the cached chunk was
    posted for each. *)
Theorem processChunks_voxels w :
  let w' := Worker.processChunks mesher w in
  let missing := Worker.clientMissingChunks (Worker.worker w) in
  let cached := dom (Worker.chunkCache w) in
  Worker.clientMissingChunks (Worker.worker w') = missing ∖ cached
  ∧ Worker.sentClientChunks (Worker.worker w')
    = (missing ∩ cached) ∪ Worker.sentClientChunks (Worker.worker w)
  ∧ ∀ chunkId chunk,
      chunkId ∈ missing → Worker.chunkCache w !! chunkId = Some chunk →
      Worker.chunkVoxels chunk ∈ Worker.posted w'.
Proof.
  cbv zeta.
  destruct (processChunks_spec w)
    as (delivered & _ & _ & _ & _ & Hw & _ & Hvox & _).
  cbv zeta in *. rewrite Hw.
  cbn [Worker.clientMissingChunks Worker.sentClientChunks
       withMeshesDelivered withVoxelsDelivered].
  split; [clear; set_solver|]. split; [done|]. exact Hvox.
Qed.

(** X18: the chunks that leave [clientMissingMeshes] in a call of
    [processChunks] are cached chunks that were missing; they enter
    [sentClientMeshes], one [chunkMesh] message is counted for each of them,
    and the message of each, meshed from its cached position and voxels, is
    among the posted ones. *)
Theorem processChunks_meshes w :
  let w' := Worker.processChunks mesher w in
  let missing := Worker.clientMissingMeshes (Worker.worker w) in
  let missing' := Worker.clientMissingMeshes (Worker.worker w') in
  missing' ⊆ missing
  ∧ missing ∖ missing' ⊆ dom (Worker.chunkCache w)
  ∧ Worker.sentClientMeshes (Worker.worker w')
    = (missing ∖ missing') ∪ Worker.sentClientMeshes (Worker.worker w)
  ∧ Worker.meshCount (Worker.posted w')
    = (Worker.meshCount (Worker.posted w) + size (missing ∖ missing'))%nat
  ∧ ∀ chunkId, chunkId ∈ missing ∖ missing' →
      ∃ chunk, Worker.chunkCache w !! chunkId = Some chunk
        ∧ meshMessage mesher (Worker.chunkCache w) chunkId chunk
          ∈ Worker.posted w'.
Proof.
  cbv zeta.
  destruct (processChunks_spec w)
    as (delivered & Hsub & Hcached & _ & _ & Hw & Hcount & _ & Hmsg & _).
  cbv zeta in *. rewrite Hw.
  cbn [Worker.clientMissingMeshes Worker.sentClientMeshes
       withMeshesDelivered withVoxelsDelivered].
  assert (Hd : list_to_set delivered
               ⊆ Worker.clientMissingMeshes (Worker.worker w)).
  { intros c Hc. apply elem_of_list_to_set in Hc.
    apply elem_of_elements. by eapply elem_of_sublist. }
  rewrite (delivered_moved _ _ Hd).
  split; [clear; set_solver|].
  split; [intros c Hc; apply elem_of_list_to_set in Hc; by apply Hcached|].
  split; [done|].
  split.
  - rewrite Hcount, size_list_to_set
      by (eapply sublist_NoDup; [|exact Hsub]; apply NoDup_elements).
    done.
  - intros c Hc. apply Hmsg. by apply elem_of_list_to_set in Hc.
Qed.

(** X19: with at most eleven chunks in [clientMissingMeshes], one call of
    [processChunks] sends the mesh of every cached one: only chunks without
    voxel data stay missing. *)
Theorem processChunks_small_backlog w :
  (size (Worker.clientMissingMeshes (Worker.worker w)) ≤ 11)%nat →
  let w' := Worker.processChunks mesher w in
  Worker.clientMissingMeshes (Worker.worker w')
  = Worker.clientMissingMeshes (Worker.worker w) ∖ dom (Worker.chunkCache w)
  ∧ ∀ chunkId chunk,
      chunkId ∈ Worker.clientMissingMeshes (Worker.worker w) →
      Worker.chunkCache w !! chunkId = Some chunk →
      meshMessage mesher (Worker.chunkCache w) chunkId chunk ∈ Worker.posted w'.
Proof.
  intros Hsize. cbv zeta. split.
  - destruct (processChunks_spec w)
      as (delivered & _ & _ & _ & _ & Hw & _ & _ & _ & Hall & _).
    cbv zeta in *. rewrite Hw.
    cbn [Worker.clientMissingMeshes withMeshesDelivered withVoxelsDelivered].
    rewrite (Hall Hsize). clear. set_solver.
  - intros chunkId chunk Hin Hc.
    by destruct (small_backlog_message w chunkId chunk Hsize Hin Hc) as [H _].
Qed.

(** X20: when some chunk of [clientMissingMeshes] is cached, a call of
    [processChunks] sends at least one mesh: a cached chunk leaves the
    missing set. *)
Theorem processChunks_progress w :
  (∃ chunkId, chunkId ∈ Worker.clientMissingMeshes (Worker.worker w)
              ∧ chunkId ∈ dom (Worker.chunkCache w)) →
  let w' := Worker.processChunks mesher w in
  ∃ chunkId,
    chunkId ∈ Worker.clientMissingMeshes (Worker.worker w)
    ∧ (chunkId ∉ Worker.clientMissingMeshes (Worker.worker w'))
    ∧ chunkId ∈ Worker.sentClientMeshes (Worker.worker w')
    ∧ ∃ chunk, Worker.chunkCache w !! chunkId = Some chunk
        ∧ meshMessage mesher (Worker.chunkCache w) chunkId chunk
          ∈ Worker.posted w'.
Proof.
  intros Hex. cbv zeta.
  destruct (processChunks_spec w)
    as (delivered & Hsub & _ & _ & _ & Hw & _ & _ & Hmsg & _ & Hne).
  cbv zeta in *. specialize (Hne Hex).
  destruct delivered as [|d delivered]; [done|].
  exists d. rewrite Hw.
  cbn [Worker.clientMissingMeshes Worker.sentClientMeshes withMeshesDelivered
       withVoxelsDelivered].
  split.
  { apply elem_of_elements. eapply elem_of_sublist; [|done]. set_solver. }
  split; [clear; set_solver|]. split; [clear; set_solver|].
  apply Hmsg. set_solver.
Qed.

(** X21: [processChunks] never touches the chunk cache, the fetches, the
    tracked distances, [nearbyChunks] or [requestedChunks]. *)
Theorem processChunks_frame w :
  let w' := Worker.processChunks mesher w in
  Worker.chunkCache w' = Worker.chunkCache w
  ∧ Worker.fetches w' = Worker.fetches w
  ∧ Worker.chunkDistances (Worker.worker w') = Worker.chunkDistances (Worker.worker w)
  ∧ Worker.nearbyChunks (Worker.worker w') = Worker.nearbyChunks (Worker.worker w)
  ∧ Worker.requestedChunks (Worker.worker w')
    = Worker.requestedChunks (Worker.worker w).
Proof.
  cbv zeta.
  destruct (processChunks_spec w) as (delivered & _ & _ & Hc & Hf & Hw & _).
  cbv zeta in *. rewrite Hc, Hf, Hw. done.
Qed.

End DeliveryMore.

(** ** Voxel edits *)

Lemma details_ind (P : list Z → Prop) :
  P [] → (∀ index, P [index]) →
  (∀ index val rest, P rest → P (index :: val :: rest)) →
  ∀ details, P details.
Proof.
  intros H0 H1 H2. fix IH 1. intros [|index [|val rest]]; [exact H0|apply H1|].
  apply H2, IH.
Qed.

Lemma writeVoxel_length vs index val :
  length (Edits.writeVoxel vs index val) = length vs.
Proof.
  unfold Edits.writeVoxel. destruct (index <? 0); [done|].
  by rewrite length_insert.
Qed.

Lemma writeVoxel_lookup vs index val (i : nat) :
  Edits.writeVoxel vs index val !! i
  = (λ old, if decide (index = Z.of_nat i) then val `mod` 256 else old)
      <$> vs !! i.
Proof.
  unfold Edits.writeVoxel. destruct (Z.ltb_spec index 0) as [Hneg|Hpos].
  - destruct (vs !! i); [|done]. simpl. by rewrite decide_False by lia.
  - destruct (decide (index = Z.of_nat i)) as [->|Hne].
    + rewrite Nat2Z.id. destruct (vs !! i) eqn:Hi; simpl.
      * apply list_lookup_insert_eq. by eapply lookup_lt_Some.
      * by apply list_lookup_insert_None.
    + rewrite list_lookup_insert_ne by lia. by destruct (vs !! i).
Qed.

Lemma applyDetails_length details : ∀ vs,
  length (Edits.applyDetails details vs) = length vs.
Proof.
  induction details as [|index|index val rest IH] using details_ind;
    intros vs; cbn [Edits.applyDetails].
  - done.
  - apply writeVoxel_length.
  - by rewrite IH, writeVoxel_length.
Qed.

(** X22: the pairs [index, value, ...] of an edit never resize the voxel
    array, and afterwards each cell of the array holds the value of the last
    pair that names it, modulo 256, or else its old value; pairs that name
    no cell of the array are ignored. *)
Theorem applyDetails_lookup details vs :
  length (Edits.applyDetails details vs) = length vs
  ∧ ∀ i : nat,
      Edits.applyDetails details vs !! i
      = (λ old, default old (written details i)) <$> vs !! i.
Proof.
  split; [apply applyDetails_length|]. intros i. revert vs.
  induction details as [|index|index val rest IH] using details_ind;
    intros vs; cbn [Edits.applyDetails written].
  - by destruct (vs !! i).
  - rewrite writeVoxel_lookup. destruct (vs !! i); [|done]. simpl.
    by case_decide.
  - rewrite IH, writeVoxel_lookup. destruct (vs !! i); [|done]. simpl.
    destruct (written rest i); [done|]. by case_decide.
Qed.

Lemma withMissing_empty (self : Worker.State) : withMissing self ∅ ∅ = self.
Proof. destruct self. unfold withMissing. simpl. f_equal; set_solver. Qed.

Lemma withMissing_mesh (self : Worker.State) chunkID meshes voxels :
  withMissing (Edits.withMeshMissing self chunkID) meshes voxels
  = withMissing self ({[chunkID]} ∪ meshes) voxels.
Proof.
  unfold withMissing, Edits.withMeshMissing. simpl. f_equal. set_solver.
Qed.

Lemma withMissing_voxels (self : Worker.State) chunkID meshes voxels :
  withMissing (Edits.withVoxelsMissing self chunkID) meshes voxels
  = withMissing self meshes ({[chunkID]} ∪ voxels).
Proof.
  unfold withMissing, Edits.withVoxelsMissing. simpl. f_equal. set_solver.
Qed.

Lemma withMissing_twice (self : Worker.State) meshes voxels meshes' voxels' :
  withMissing (withMissing self meshes voxels) meshes' voxels'
  = withMissing self (meshes' ∪ meshes) (voxels' ∪ voxels).
Proof. unfold withMissing. simpl. f_equal; set_solver. Qed.

Lemma edited_nil applies chunkID chunk : edited [] applies chunkID chunk = chunk.
Proof. unfold edited. simpl. by rewrite lookup_empty. Qed.

Lemma edited_cons_eq changes applies chunkID details chunk :
  edited ((chunkID, details) :: changes) applies chunkID chunk
  = (if applies chunkID then Edits.editChunk chunk details else chunk).
Proof. unfold edited. simpl. by rewrite lookup_insert_eq. Qed.

Lemma edited_cons_ne changes applies chunkID chunkID' details chunk :
  chunkID' ≠ chunkID →
  edited ((chunkID', details) :: changes) applies chunkID chunk
  = edited changes applies chunkID chunk.
Proof. intros H. unfold edited. simpl. by rewrite lookup_insert_ne. Qed.

Lemma edited_fresh changes applies chunkID chunk :
  chunkID ∉ changes.*1 → edited changes applies chunkID chunk = chunk.
Proof.
  intros H. unfold edited.
  by rewrite (not_elem_of_list_to_map_1 (M:=gmap string) changes chunkID H).
Qed.

(** An edit keeps the identifier, the position and the size of a chunk. *)
Lemma edited_shape changes applies chunkID chunk :
  ChunkCache.chunkID (edited changes applies chunkID chunk)
  = ChunkCache.chunkID chunk
  ∧ ChunkCache.position (edited changes applies chunkID chunk)
    = ChunkCache.position chunk
  ∧ length (ChunkCache.voxels (edited changes applies chunkID chunk))
    = length (ChunkCache.voxels chunk).
Proof.
  unfold edited. destruct (_ !! chunkID) as [details|]; [|done].
  destruct (applies chunkID); [|done].
  unfold Edits.editChunk. simpl. by rewrite applyDetails_length.
Qed.

Section EditsMore.
Context {fl : Type}.
Implicit Types (w : Worker.World fl) (s : Edits.Session fl).

Lemma applyChange_unfold w chunkID details :
  Edits.applyChange w (chunkID, details)
  = match Worker.chunkCache w !! chunkID with
    | Some chunk =>
        Worker.mkWorld (Edits.withMeshMissing (Worker.worker w) chunkID)
          (<[chunkID := Edits.editChunk chunk details]> (Worker.chunkCache w))
          (Worker.posted w) (Worker.fetches w)
    | None => w
    end.
Proof. reflexivity. Qed.

Lemma foldl_applyChange changes : ∀ w,
  NoDup changes.*1 →
  let w' := foldl Edits.applyChange w changes in
  let cache := Worker.chunkCache w in
  Worker.worker w'
  = withMissing (Worker.worker w) (list_to_set changes.*1 ∩ dom cache) ∅
  ∧ Worker.posted w' = Worker.posted w
  ∧ Worker.fetches w' = Worker.fetches w
  ∧ ∀ chunkID,
      Worker.chunkCache w' !! chunkID
      = edited changes (λ _, true) chunkID <$> cache !! chunkID.
Proof.
  induction changes as [|[chunkID0 details] changes IH]; intros w Hnd;
    cbv zeta.
  { simpl. rewrite (left_absorb_L ∅ (∩)), withMissing_empty.
    repeat split; try done. intros chunkID.
    destruct (Worker.chunkCache w !! chunkID); [|done]. simpl.
    by rewrite edited_nil. }
  cbn [fmap list_fmap fst] in Hnd. apply NoDup_cons in Hnd as [Hnotin Hnd].
  cbn [foldl]. rewrite applyChange_unfold.
  destruct (Worker.chunkCache w !! chunkID0) as [chunk|] eqn:Hc.
  - destruct (IH (Worker.mkWorld
                    (Edits.withMeshMissing (Worker.worker w) chunkID0)
                    (<[chunkID0 := Edits.editChunk chunk details]>
                       (Worker.chunkCache w))
                    (Worker.posted w) (Worker.fetches w)) Hnd)
      as (H1 & H2 & H3 & H4).
    cbv zeta in *.
    cbn [Worker.worker Worker.posted Worker.fetches Worker.chunkCache] in *.
    rewrite H1, H2, H3. split; [|split; [done|split; [done|]]].
    + rewrite withMissing_mesh. f_equal. rewrite dom_insert_L.
      apply elem_of_dom_2 in Hc. cbn [fmap list_fmap fst list_to_set foldr].
      clear -Hc. set_solver.
    + intros chunkID. rewrite H4.
      destruct (decide (chunkID = chunkID0)) as [->|Hne].
      * rewrite lookup_insert_eq, Hc. simpl.
        by rewrite edited_cons_eq, edited_fresh.
      * rewrite lookup_insert_ne by done.
        destruct (Worker.chunkCache w !! chunkID); [|done]. simpl.
        by rewrite edited_cons_ne.
  - destruct (IH w Hnd) as (H1 & H2 & H3 & H4). cbv zeta in *.
    rewrite H1, H2, H3. split; [|split; [done|split; [done|]]].
    + f_equal. apply not_elem_of_dom in Hc.
      cbn [fmap list_fmap fst list_to_set foldr]. clear -Hc. set_solver.
    + intros chunkID. rewrite H4.
      destruct (decide (chunkID = chunkID0)) as [->|Hne].
      * by rewrite Hc.
      * destruct (Worker.chunkCache w !! chunkID); [|done]. simpl.
        by rewrite edited_cons_ne.
Qed.

Lemma touch_unfold w chunkID :
  Edits.touch w chunkID
  = match Worker.chunkCache w !! chunkID with
    | Some _ =>
        Worker.mkWorld (Edits.withMeshMissing (Worker.worker w) chunkID)
          (Worker.chunkCache w) (Worker.posted w) (Worker.fetches w)
    | None => w
    end.
Proof. reflexivity. Qed.

Lemma foldl_touch touching : ∀ w,
  let w' := foldl Edits.touch w touching in
  Worker.worker w'
  = withMissing (Worker.worker w)
      (list_to_set touching ∩ dom (Worker.chunkCache w)) ∅
  ∧ Worker.chunkCache w' = Worker.chunkCache w
  ∧ Worker.posted w' = Worker.posted w
  ∧ Worker.fetches w' = Worker.fetches w.
Proof.
  induction touching as [|chunkID touching IH]; intros w; cbv zeta.
  { simpl. by rewrite (left_absorb_L ∅ (∩)), withMissing_empty. }
  cbn [foldl]. rewrite touch_unfold.
  destruct (Worker.chunkCache w !! chunkID) as [chunk|] eqn:Hc.
  - destruct (IH (Worker.mkWorld
                    (Edits.withMeshMissing (Worker.worker w) chunkID)
                    (Worker.chunkCache w) (Worker.posted w) (Worker.fetches w)))
      as (H1 & H2 & H3 & H4).
    cbv zeta in *.
    cbn [Worker.worker Worker.posted Worker.fetches Worker.chunkCache] in *.
    rewrite H1, H2, H3, H4. repeat split; try done.
    rewrite withMissing_mesh. f_equal. apply elem_of_dom_2 in Hc.
    cbn [list_to_set foldr]. clear -Hc. set_solver.
  - destruct (IH w) as (H1 & H2 & H3 & H4). cbv zeta in *.
    rewrite H1, H2, H3, H4. repeat split; try done.
    f_equal. apply not_elem_of_dom in Hc.
    cbn [list_to_set foldr]. clear -Hc. set_solver.
Qed.

Lemma edited_dom (cache cache' : gmap string ChunkCache.Chunk) changes applies :
  (∀ chunkID, cache' !! chunkID = edited changes applies chunkID <$> cache !! chunkID) →
  dom cache' = dom cache.
Proof.
  intros H. apply set_eq. intros chunkID. rewrite !elem_of_dom, H.
  by rewrite fmap_is_Some.
Qed.

Lemma edited_kept (cache cache' : gmap string ChunkCache.Chunk) changes applies :
  (∀ chunkID, cache' !! chunkID = edited changes applies chunkID <$> cache !! chunkID) →
  ∀ chunkID chunk', cache' !! chunkID = Some chunk' →
    ∃ chunk, cache !! chunkID = Some chunk
      ∧ ChunkCache.chunkID chunk' = ChunkCache.chunkID chunk
      ∧ ChunkCache.position chunk' = ChunkCache.position chunk
      ∧ length (ChunkCache.voxels chunk') = length (ChunkCache.voxels chunk).
Proof.
  intros H chunkID chunk' Hc. rewrite H in Hc.
  destruct (cache !! chunkID) as [chunk|]; [|done].
  simpl in Hc. injection Hc as <-. exists chunk. split; [done|].
  apply edited_shape.
Qed.

(** X23: an edit made by this client, on an open connection, is handed to
    the socket and carried out on the cached chunks it names: each keeps its
    identifier, position and size, no chunk enters or leaves the cache, and
    the cached chunks named by the edit or by [touching] wait for a new
    mesh.  Nothing else of the worker changes and nothing is posted. *)
Theorem chunkVoxelIndexValue_spec changes touching s sent :
  NoDup changes.*1 →
  Edits.connection s = Some sent →
  let w := Edits.world s in
  let cache := Worker.chunkCache w in
  ∃ s',
    Edits.chunkVoxelIndexValue changes touching s = Some s'
    ∧ Edits.connection s' = Some (sent ++ [changes])
    ∧ Edits.relayed s' = Edits.relayed s
    ∧ Worker.posted (Edits.world s') = Worker.posted w
    ∧ Worker.fetches (Edits.world s') = Worker.fetches w
    ∧ Worker.worker (Edits.world s')
      = withMissing (Worker.worker w)
          (list_to_set (changes.*1 ++ touching) ∩ dom cache) ∅
    ∧ dom (Worker.chunkCache (Edits.world s')) = dom cache
    ∧ (∀ chunkID,
         Worker.chunkCache (Edits.world s') !! chunkID
         = edited changes (λ _, true) chunkID <$> cache !! chunkID)
    ∧ ∀ chunkID chunk',
        Worker.chunkCache (Edits.world s') !! chunkID = Some chunk' →
        ∃ chunk, cache !! chunkID = Some chunk
          ∧ ChunkCache.chunkID chunk' = ChunkCache.chunkID chunk
          ∧ ChunkCache.position chunk' = ChunkCache.position chunk
          ∧ length (ChunkCache.voxels chunk') = length (ChunkCache.voxels chunk).
Proof.
  intros Hnd Hconn. cbv zeta. unfold Edits.chunkVoxelIndexValue.
  rewrite Hconn. eexists. split; [reflexivity|].
  cbn [Edits.connection Edits.relayed Edits.world].
  destruct (foldl_applyChange changes (Edits.world s) Hnd)
    as (H1 & H2 & H3 & H4).
  destruct (foldl_touch touching (foldl Edits.applyChange (Edits.world s) changes))
    as (H5 & H6 & H7 & H8).
  cbv zeta in *.
  pose proof (edited_dom _ _ _ _ H4) as Hdom.
  pose proof (edited_kept _ _ _ _ H4) as Hkept.
  rewrite H5, H6, H7, H8, H1, H2, H3, Hdom, withMissing_twice.
  do 4 (split; [done|]).
  split; [f_equal; rewrite ?list_to_set_app_L; clear; set_solver|].
  split; [done|]. split; [exact H4|exact Hkept].
Qed.

Lemma applyServerChange_unfold w chunkID details :
  Edits.applyServerChange w (chunkID, details)
  = if decide (chunkID ∈ dom (Worker.chunkDistances (Worker.worker w))) then
      match Worker.chunkCache w !! chunkID with
      | Some chunk =>
          Worker.mkWorld
            (if decide (chunkID ∈ Worker.nearbyChunks (Worker.worker w))
             then Edits.withVoxelsMissing
                    (Edits.withMeshMissing (Worker.worker w) chunkID) chunkID
             else Edits.withMeshMissing (Worker.worker w) chunkID)
            (<[chunkID := Edits.editChunk chunk details]> (Worker.chunkCache w))
            (Worker.posted w) (Worker.fetches w)
      | None => w
      end
    else w.
Proof. reflexivity. Qed.

Lemma foldl_applyServerChange changes : ∀ w,
  NoDup changes.*1 →
  let w' := foldl Edits.applyServerChange w changes in
  let self := Worker.worker w in
  let cache := Worker.chunkCache w in
  let hit :=
    list_to_set changes.*1 ∩ dom (Worker.chunkDistances self) ∩ dom cache in
  Worker.worker w' = withMissing self hit (hit ∩ Worker.nearbyChunks self)
  ∧ Worker.posted w' = Worker.posted w
  ∧ Worker.fetches w' = Worker.fetches w
  ∧ ∀ chunkID,
      Worker.chunkCache w' !! chunkID
      = edited changes
          (λ chunkID, bool_decide (chunkID ∈ dom (Worker.chunkDistances self)))
          chunkID
        <$> cache !! chunkID.
Proof.
  induction changes as [|[chunkID0 details] changes IH]; intros w Hnd;
    cbv zeta.
  { simpl. rewrite !(left_absorb_L ∅ (∩)), withMissing_empty.
    repeat split; try done. intros chunkID.
    destruct (Worker.chunkCache w !! chunkID); [|done]. simpl.
    by rewrite edited_nil. }
  cbn [fmap list_fmap fst] in Hnd. apply NoDup_cons in Hnd as [Hnotin Hnd].
  cbn [foldl]. rewrite applyServerChange_unfold.
  destruct (decide (chunkID0 ∈ dom (Worker.chunkDistances (Worker.worker w))))
    as [Ht|Ht];
    [destruct (Worker.chunkCache w !! chunkID0) as [chunk|] eqn:Hc|].
  - match goal with
    | |- context [foldl _ ?w1 changes] => destruct (IH w1 Hnd) as (H1 & H2 & H3 & H4)
    end.
    cbv zeta in *.
    cbn [Worker.worker Worker.posted Worker.fetches Worker.chunkCache] in *.
    rewrite H1, H2, H3. clear H1 H2 H3.
    split; [|split; [done|split; [done|]]].
    + apply elem_of_dom_2 in Hc.
      destruct (decide (chunkID0 ∈ Worker.nearbyChunks (Worker.worker w)))
        as [Hn|Hn].
      * rewrite withMissing_voxels, withMissing_mesh.
        cbn [Edits.withVoxelsMissing Edits.withMeshMissing
             Worker.chunkDistances Worker.nearbyChunks].
        rewrite dom_insert_L. cbn [fmap list_fmap fst list_to_set foldr].
        f_equal; clear -Hc Ht Hn; set_solver.
      * rewrite withMissing_mesh.
        cbn [Edits.withMeshMissing Worker.chunkDistances Worker.nearbyChunks].
        rewrite dom_insert_L. cbn [fmap list_fmap fst list_to_set foldr].
        f_equal; clear -Hc Ht Hn; set_solver.
    + intros chunkID. rewrite H4.
      assert (Hd : Worker.chunkDistances
                (if decide (chunkID0 ∈ Worker.nearbyChunks (Worker.worker w))
                 then Edits.withVoxelsMissing
                        (Edits.withMeshMissing (Worker.worker w) chunkID0) chunkID0
                 else Edits.withMeshMissing (Worker.worker w) chunkID0)
              = Worker.chunkDistances (Worker.worker w))
        by (by case_decide).
      rewrite Hd.
      destruct (decide (chunkID = chunkID0)) as [->|Hne].
      * rewrite lookup_insert_eq, Hc. simpl.
        rewrite edited_cons_eq, edited_fresh by done.
        by rewrite bool_decide_true.
      * rewrite lookup_insert_ne by done.
        destruct (Worker.chunkCache w !! chunkID); [|done]. simpl.
        by rewrite edited_cons_ne.
  - destruct (IH w Hnd) as (H1 & H2 & H3 & H4). cbv zeta in *.
    rewrite H1, H2, H3. split; [|split; [done|split; [done|]]].
    + apply not_elem_of_dom in Hc.
      cbn [fmap list_fmap fst list_to_set foldr].
      f_equal; clear -Hc; set_solver.
    + intros chunkID. rewrite H4.
      destruct (decide (chunkID = chunkID0)) as [->|Hne].
      * by rewrite Hc.
      * destruct (Worker.chunkCache w !! chunkID); [|done]. simpl.
        by rewrite edited_cons_ne.
  - destruct (IH w Hnd) as (H1 & H2 & H3 & H4). cbv zeta in *.
    rewrite H1, H2, H3. split; [|split; [done|split; [done|]]].
    + cbn [fmap list_fmap fst list_to_set foldr].
      f_equal; clear -Ht; set_solver.
    + intros chunkID. rewrite H4.
      destruct (decide (chunkID = chunkID0)) as [->|Hne].
      * destruct (Worker.chunkCache w !! chunkID0); [|done]. simpl.
        rewrite edited_cons_eq, edited_fresh by done.
        by rewrite bool_decide_false.
      * destruct (Worker.chunkCache w !! chunkID); [|done]. simpl.
        by rewrite edited_cons_ne.
Qed.

(** X24: an edit that arrives from the server is relayed to the client as
    it is, and carried out only on the chunks that are both tracked and
    cached: these wait for a new mesh, and those among them that are in
    [nearbyChunks] for their voxels as well.  Cached chunks that are not
    tracked keep their voxels. *)
Theorem onChunkVoxelIndexValue_spec changes s :
  NoDup changes.*1 →
  let s' := Edits.onChunkVoxelIndexValue changes s in
  let w := Edits.world s in
  let self := Worker.worker w in
  let cache := Worker.chunkCache w in
  let tracked := dom (Worker.chunkDistances self) in
  let hit := list_to_set changes.*1 ∩ tracked ∩ dom cache in
  Edits.relayed s' = Edits.relayed s ++ [changes]
  ∧ Edits.connection s' = Edits.connection s
  ∧ Worker.posted (Edits.world s') = Worker.posted w
  ∧ Worker.fetches (Edits.world s') = Worker.fetches w
  ∧ Worker.worker (Edits.world s')
    = withMissing self hit (hit ∩ Worker.nearbyChunks self)
  ∧ dom (Worker.chunkCache (Edits.world s')) = dom cache
  ∧ (∀ chunkID,
       Worker.chunkCache (Edits.world s') !! chunkID
       = edited changes (λ chunkID, bool_decide (chunkID ∈ tracked)) chunkID
         <$> cache !! chunkID)
  ∧ ∀ chunkID chunk',
      Worker.chunkCache (Edits.world s') !! chunkID = Some chunk' →
      ∃ chunk, cache !! chunkID = Some chunk
        ∧ ChunkCache.chunkID chunk' = ChunkCache.chunkID chunk
        ∧ ChunkCache.position chunk' = ChunkCache.position chunk
        ∧ length (ChunkCache.voxels chunk') = length (ChunkCache.voxels chunk).
Proof.
  intros Hnd. cbv zeta. unfold Edits.onChunkVoxelIndexValue.
  cbn [Edits.connection Edits.relayed Edits.world].
  destruct (foldl_applyServerChange changes (Edits.world s) Hnd)
    as (H1 & H2 & H3 & H4).
  cbv zeta in *. pose proof (edited_dom _ _ _ _ H4) as Hdom.
  pose proof (edited_kept _ _ _ _ H4) as Hkept.
  rewrite H1, H2, H3, Hdom. do 6 (split; [done|]).
  split; [exact H4|exact Hkept].
Qed.

End EditsMore.

(** ** From a region change to the client *)

Section Compositions.
Context {fl : Type}.
Context (mesher : gmap string ChunkCache.Chunk → Position → list Z →
                  option (gmap Z (Mesher.TextureMesh fl))).
Implicit Types (w : Worker.World fl) (s : Edits.Session fl).

(** X25: a chunk that comes near, in bounds and closer than 3, that is not
    cached and whose voxels were not sent, is requested by [regionChange];
    when its fetch completes with data the chunk is cached under the
    position of the request, and the next [processChunks] posts its voxels
    to the client and records them as sent. *)
Theorem fetch_then_deliver nearby w chunkId position bytes :
  chunkId ∈ closeBy (Worker.worker w) nearby →
  chunkId ∉ dom (Worker.chunkCache w) →
  chunkId ∉ Worker.sentClientChunks (Worker.worker w) →
  let w1 := Worker.regionChange nearby w in
  let w2 := Worker.requestClosure chunkId position (Some bytes) w1 in
  let w3 := Worker.processChunks mesher w2 in
  let chunk := ChunkCache.mkChunk chunkId position bytes in
  chunkId ∈ Worker.requestedChunks (Worker.worker w1)
  ∧ (chunkId ∉ Worker.requestedChunks (Worker.worker w2))
  ∧ Worker.chunkCache w3 !! chunkId = Some chunk
  ∧ Worker.chunkVoxels chunk ∈ Worker.posted w3
  ∧ chunkId ∈ Worker.sentClientChunks (Worker.worker w3)
  ∧ chunkId ∉ Worker.clientMissingChunks (Worker.worker w3).
Proof.
  intros Hclose Hcache Hsent w1 w2 w3 chunk.
  destruct (regionChange_spec nearby w)
    as (Hc1 & _ & _ & Hd1 & _ & _ & Hvm1 & _ & _ & Hr1 & _).
  cbv zeta in *. fold w1 in Hc1, Hd1, Hvm1, Hr1.
  pose proof (closeBy_inBounds (Worker.worker w) nearby _ Hclose) as Htracked.
  assert (Hreq : chunkId ∈ Worker.requestedChunks (Worker.worker w1))
    by (rewrite Hr1; clear -Htracked Hcache; set_solver).
  assert (Hw2 : w2 = Worker.mkWorld
                  (Worker.withRequested (Worker.worker w1)
                     (Worker.requestedChunks (Worker.worker w1) ∖ {[chunkId]}))
                  (<[chunkId := chunk]> (Worker.chunkCache w1))
                  (Worker.posted w1) (Worker.fetches w1)).
  { unfold w2, Worker.requestClosure. cbv zeta.
    rewrite decide_True; [done|].
    cbn [Worker.withRequested Worker.chunkDistances]. by rewrite Hd1. }
  assert (Hc2 : Worker.chunkCache w2 !! chunkId = Some chunk)
    by (rewrite Hw2; cbn [Worker.chunkCache]; apply lookup_insert_eq).
  assert (Hm2 : chunkId ∈ Worker.clientMissingChunks (Worker.worker w2)).
  { rewrite Hw2. cbn [Worker.worker Worker.withRequested Worker.clientMissingChunks].
    rewrite Hvm1. clear -Hclose Hsent. set_solver. }
  destruct (processChunks_spec mesher w2)
    as (delivered & _ & _ & Hc3 & _ & Hw3 & _ & Hvox & _).
  cbv zeta in *. fold w3 in Hc3, Hw3, Hvox.
  split; [done|].
  split.
  { rewrite Hw2. cbn [Worker.worker Worker.withRequested Worker.requestedChunks].
    clear. set_solver. }
  split; [by rewrite Hc3|].
  split; [by apply (Hvox chunkId)|].
  apply elem_of_dom_2 in Hc2.
  rewrite Hw3. cbn [Worker.sentClientChunks Worker.clientMissingChunks
                    withMeshesDelivered withVoxelsDelivered].
  clear -Hc2 Hm2. set_solver.
Qed.

(** X26: a fetch that completes without data leaves the chunk uncached and
    no longer requested, so the next [regionChange] that enumerates the
    chunk in bounds hands a new fetch for it to the limiter. *)
Theorem failed_fetch_is_retried nearby w chunkId position :
  chunkId ∈ inBounds (Worker.worker w) nearby →
  chunkId ∉ dom (Worker.chunkCache w) →
  let w1 := Worker.requestClosure chunkId position None w in
  let w2 := Worker.regionChange nearby w1 in
  Worker.chunkCache w1 = Worker.chunkCache w
  ∧ (chunkId ∉ Worker.requestedChunks (Worker.worker w1))
  ∧ (∃ new, Worker.fetches w2 = Worker.fetches w ++ new ∧ chunkId ∈ new.*1)
  ∧ chunkId ∈ Worker.requestedChunks (Worker.worker w2).
Proof.
  intros Htracked Hcache w1 w2.
  assert (Hw1 : w1 = Worker.mkWorld
                  (Worker.withRequested (Worker.worker w)
                     (Worker.requestedChunks (Worker.worker w) ∖ {[chunkId]}))
                  (Worker.chunkCache w) (Worker.posted w) (Worker.fetches w))
    by reflexivity.
  destruct (regionChange_spec nearby w1)
    as (_ & _ & _ & _ & _ & _ & _ & _ & _ & Hr2 & new & Hf & _ & Hset).
  cbv zeta in *. fold w2 in Hr2, Hf, Hset.
  assert (Hb : inBounds (Worker.worker w1) nearby = inBounds (Worker.worker w) nearby)
    by (apply inBounds_bounds; by rewrite Hw1).
  rewrite Hb in Hr2, Hset.
  assert (Hc1 : Worker.chunkCache w1 = Worker.chunkCache w) by (by rewrite Hw1).
  assert (Hr1 : Worker.requestedChunks (Worker.worker w1)
                = Worker.requestedChunks (Worker.worker w) ∖ {[chunkId]})
    by (by rewrite Hw1).
  assert (Hf1 : Worker.fetches w1 = Worker.fetches w) by (by rewrite Hw1).
  rewrite Hc1, Hr1 in Hr2, Hset. rewrite Hf1 in Hf.
  split; [done|].
  split; [rewrite Hr1; clear; set_solver|].
  split.
  - exists new. split; [done|].
    apply (elem_of_list_to_set (C:=gset string)). rewrite Hset.
    clear -Htracked Hcache. set_solver.
  - rewrite Hr2. clear -Htracked Hcache. set_solver.
Qed.

(** X27: after an edit of a cached chunk by this client, with at most
    eleven chunks then waiting for a mesh, the next [processChunks] meshes
    the chunk from its edited voxels and posts that mesh. *)
Theorem edit_is_remeshed changes touching s sent chunkID details chunk :
  NoDup changes.*1 →
  Edits.connection s = Some sent →
  (chunkID, details) ∈ changes →
  Worker.chunkCache (Edits.world s) !! chunkID = Some chunk →
  (size (list_to_set (changes.*1 ++ touching)
           ∩ dom (Worker.chunkCache (Edits.world s))
         ∪ Worker.clientMissingMeshes (Worker.worker (Edits.world s))) ≤ 11)%nat →
  ∃ s',
    Edits.chunkVoxelIndexValue changes touching s = Some s'
    ∧ Worker.chunkCache (Edits.world s') !! chunkID
      = Some (Edits.editChunk chunk details)
    ∧ let w' := Worker.processChunks mesher (Edits.world s') in
      meshMessage mesher (Worker.chunkCache (Edits.world s')) chunkID
        (Edits.editChunk chunk details) ∈ Worker.posted w'
      ∧ (chunkID ∉ Worker.clientMissingMeshes (Worker.worker w'))
      ∧ Worker.chunkCache w' = Worker.chunkCache (Edits.world s').
Proof.
  intros Hnd Hconn Hin Hc Hsize. unfold Edits.chunkVoxelIndexValue.
  rewrite Hconn. eexists. split; [reflexivity|]. cbn [Edits.world].
  destruct (foldl_applyChange changes (Edits.world s) Hnd)
    as (H1 & _ & _ & H4).
  destruct (foldl_touch touching (foldl Edits.applyChange (Edits.world s) changes))
    as (H5 & H6 & _).
  cbv zeta in *.
  pose proof (edited_dom _ _ _ _ H4) as Hdom.
  set (w1 := foldl Edits.touch _ touching) in *.
  assert (Hc1 : Worker.chunkCache w1 !! chunkID
                = Some (Edits.editChunk chunk details)).
  { rewrite H6, H4, Hc. simpl. unfold edited.
    by rewrite (elem_of_list_to_map_1 (M:=gmap string) changes chunkID details Hnd Hin). }
  assert (Hm1 : Worker.clientMissingMeshes (Worker.worker w1)
                = list_to_set (changes.*1 ++ touching)
                    ∩ dom (Worker.chunkCache (Edits.world s))
                  ∪ Worker.clientMissingMeshes (Worker.worker (Edits.world s))).
  { rewrite H5, H1, Hdom, withMissing_twice.
    cbn [withMissing Worker.clientMissingMeshes].
    rewrite list_to_set_app_L. clear. set_solver. }
  assert (Hin1 : chunkID ∈ Worker.clientMissingMeshes (Worker.worker w1)).
  { rewrite Hm1. apply elem_of_union_l, elem_of_intersection.
    split; [|by apply elem_of_dom_2 in Hc].
    apply elem_of_list_to_set, elem_of_app. left.
    apply list_elem_of_fmap. by exists (chunkID, details). }
  rewrite <- Hm1 in Hsize.
  destruct (small_backlog_message mesher w1 chunkID _ Hsize Hin1 Hc1)
    as (Hmsg & Hgone & _).
  destruct (processChunks_spec mesher w1) as (_ & _ & _ & Hc2 & _).
  done.
Qed.

End Compositions.

(** ** The connection limit of the server *)

Lemma onConnection_limitKept limit st o sn (c : nat) :
  limitKept limit st o sn → c ∉ sn →
  limitKept limit (Server.onConnection (Some limit) c st) ({[c]} ∪ o) ({[c]} ∪ sn).
Proof.
  intros (Hn & Hsub & Hall & Hdisj & Hle) Hc. unfold limitKept in *.
  cbv zeta in *.
  assert (Hsize : size ({[c]} ∪ o) = S (size o)).
  { rewrite size_union by (clear -Hsub Hc; set_solver).
    by rewrite size_singleton. }
  unfold Server.onConnection. cbv zeta.
  destruct (Z.ltb_spec limit (Server.connections st + 1)) as [Hdeny|Hok];
    cbn [Server.connections Server.connectClient Server.close].
  - rewrite list_to_set_app_L. cbn [list_to_set foldr].
    split; [rewrite Hsize; lia|].
    split; [clear -Hsub; set_solver|].
    split; [rewrite <- Hall; clear; set_solver|].
    split; [rewrite <- Hall in Hc; clear -Hdisj Hc; set_solver|].
    replace (list_to_set (Server.connectClient st) ∩ ({[c]} ∪ o))
      with (list_to_set (Server.connectClient st) ∩ o : gset nat); [done|].
    rewrite <- Hall in Hc. clear -Hc. set_solver.
  - rewrite list_to_set_app_L. cbn [list_to_set foldr].
    split; [rewrite Hsize; lia|].
    split; [clear -Hsub; set_solver|].
    split; [rewrite <- Hall; clear; set_solver|].
    split; [rewrite <- Hall in Hc; clear -Hdisj Hc; set_solver|].
    etrans; [|exact Hok]. rewrite Hn.
    match goal with
    | |- Z.of_nat (size ?X) ≤ _ =>
        assert (size X ≤ size ({[c]} ∪ o))%nat
          by (apply subseteq_size; clear; set_solver)
    end.
    lia.
Qed.

Lemma onClose_limitKept limit st o sn (c : nat) :
  limitKept limit st o sn → c ∈ o →
  limitKept limit (Server.onClose st) (o ∖ {[c]}) sn.
Proof.
  intros (Hn & Hsub & Hall & Hdisj & Hle) Hc. unfold limitKept in *.
  cbv zeta in *. unfold Server.onClose.
  cbn [Server.connections Server.connectClient Server.close].
  assert (Hsize : size o = S (size (o ∖ {[c]}))).
  { rewrite (union_difference_L {[c]} o) at 1 by (clear -Hc; set_solver).
    rewrite size_union by (clear; set_solver). by rewrite size_singleton. }
  split; [lia|].
  split; [clear -Hsub; set_solver|].
  split; [done|]. split; [done|].
  etrans; [|exact Hle].
  apply inj_le, subseteq_size. clear. set_solver.
Qed.

Lemma foldl_handle_limitKept limit events : ∀ st o sn,
  limitKept limit st o sn →
  wellFormedFrom o sn events = true →
  limitKept limit (foldl (Server.handle (Some limit)) st events)
    (foldl opened o events) (foldl seen sn events).
Proof.
  induction events as [|e events IH]; intros st o sn Hinv Hwf; [done|].
  cbn [foldl]. cbn [wellFormedFrom] in Hwf.
  apply andb_prop in Hwf as [He Hwf]. apply IH; [|done].
  destruct e as [c|c]; cbn [Server.handle opened seen].
  - apply onConnection_limitKept; [done|].
    by apply bool_decide_eq_true_1 in He.
  - apply onClose_limitKept; [done|].
    by apply bool_decide_eq_true_1 in He.
Qed.

(** X28: with a limit of [limit] players, whatever the order in which
    connections come and close, the counter of the server is the number of
    open connections, denied ones included until their [close] event; every
    connection that came was handed to [connectClient] or closed by the
    server, never both; and at most [limit] of the connections handed to
    [connectClient] are open. *)
Theorem connection_limit (limit : Z) events :
  0 ≤ limit →
  wellFormed events = true →
  let st := Server.run (Some limit) events in
  let accepted : gset nat := list_to_set (Server.connectClient st) in
  let denied : gset nat := list_to_set (Server.close st) in
  Server.connections st = Z.of_nat (size (openAfter events))
  ∧ accepted ∪ denied = seenAfter events
  ∧ accepted ## denied
  ∧ Z.of_nat (size (accepted ∩ openAfter events)) ≤ limit.
Proof.
  intros Hlimit Hwf.
  destruct (foldl_handle_limitKept limit events Server.initial ∅ ∅)
    as (H1 & _ & H3 & H4 & H5); [|done|done].
  unfold limitKept. cbn [Server.initial Server.connections Server.connectClient
                         Server.close list_to_set foldr].
  rewrite size_empty.
  split; [done|]. split; [done|]. split; [set_solver|]. split; [set_solver|].
  rewrite (left_absorb_L ∅ (∩)), size_empty. done.
Qed.

Lemma foldl_handle_no_limit events : ∀ st,
  let st' := foldl (Server.handle None) st events in
  Server.connectClient st' = Server.connectClient st ++ arrivals events
  ∧ Server.close st' = Server.close st.
Proof.
  induction events as [|e events IH]; intros st; cbv zeta.
  { simpl. by rewrite app_nil_r. }
  cbn [foldl]. destruct (IH (Server.handle None st e)) as [H1 H2].
  cbv zeta in *. rewrite H1, H2.
  destruct e as [c|c]; cbn [Server.handle arrivals omap list_omap].
  - unfold Server.onConnection. cbn [Server.connectClient Server.close].
    by rewrite <- app_assoc.
  - done.
Qed.

(** X29: when [config.maxPlayers] is undefined no connection is denied:
    every connection that comes is handed to [connectClient], in the order
    of arrival, and the server closes none. *)
Theorem no_limit_accepts_all events :
  let st := Server.run None events in
  Server.connectClient st = arrivals events ∧ Server.close st = [].
Proof. apply (foldl_handle_no_limit events Server.initial). Qed.

(** ** The statements on sample inputs, continued *)

Lemma mesh_whole_faces_config2 :
  ∃ o g',
    Mesher.mesh id Sample.staleMalloc Sample.config2 (0, 0, 0)
      (Some Sample.cornerVoxels) (Mesher.mkGlobals ∅ 7 []) = Some (Some o, g')
    ∧ wholeFaces o.
Proof.
  destruct (mesh_returns id Sample.staleMalloc Sample.config2 (0, 0, 0)
              Sample.cornerVoxels (Mesher.mkGlobals ∅ 7 []) config2_complete)
    as [g' Heq]; [discriminate|].
  eexists _, g'. split; [exact Heq|].
  exact (mesh_whole_faces id Sample.staleMalloc Sample.config2 (0, 0, 0)
           Sample.cornerVoxels (Mesher.mkGlobals ∅ 7 []) g' _ Heq).
Defined.

Lemma mesh_capacity_config2 :
  ∃ o g',
    Mesher.mesh id Sample.staleMalloc Sample.config2 (0, 0, 0)
      (Some Sample.cornerVoxels) (Mesher.mkGlobals ∅ 7 []) = Some (Some o, g')
    ∧ capacityKept o.
Proof.
  destruct (mesh_returns id Sample.staleMalloc Sample.config2 (0, 0, 0)
              Sample.cornerVoxels (Mesher.mkGlobals ∅ 7 []) config2_complete)
    as [g' Heq]; [discriminate|].
  eexists _, g'. split; [exact Heq|].
  exact (mesh_capacity id Sample.staleMalloc Sample.config2 (0, 0, 0)
           Sample.cornerVoxels (Mesher.mkGlobals ∅ 7 []) g' _
           staleMalloc_sized Heq).
Defined.

Lemma mesh_keys_of_table_config2 :
  ∃ o g',
    Mesher.mesh id Sample.staleMalloc Sample.config2 (0, 0, 0)
      (Some Sample.cornerVoxels) (Mesher.mkGlobals ∅ 7 []) = Some (Some o, g')
    ∧ ∀ tv, tv ∈ dom o →
        tableTexture Sample.config2 tv
        ∧ tv ∈ dom (Mesher.textureOffsets Sample.config2).
Proof.
  destruct (mesh_returns id Sample.staleMalloc Sample.config2 (0, 0, 0)
              Sample.cornerVoxels (Mesher.mkGlobals ∅ 7 []) config2_complete)
    as [g' Heq]; [discriminate|].
  eexists _, g'. split; [exact Heq|].
  exact (mesh_keys_of_table id Sample.staleMalloc Sample.config2 (0, 0, 0)
           Sample.cornerVoxels (Mesher.mkGlobals ∅ 7 []) g' _ Heq).
Defined.

Lemma mesh_empty_chunk_config2 :
  Mesher.mesh id Sample.staleMalloc Sample.config2 (0, 0, 0)
    (Some (replicate 8 0)) (Mesher.mkGlobals ∅ 7 ["before"])
  = Some (Some ∅, Mesher.mkGlobals ∅ 7 ["before"]).
Proof.
  apply (mesh_empty_chunk id Sample.staleMalloc Sample.config2 (0, 0, 0)
           (replicate 8 0) (Mesher.mkGlobals ∅ 7 ["before"])).
  - discriminate.
  - intros i Hi. simpl in Hi.
    do 8 (destruct i as [|i]; [reflexivity|]). lia.
Defined.

Lemma processChunks_small_backlog_sample :
  let w := Sample.backlogWorld in
  let w' := Worker.processChunks Sample.noMesh w in
  Worker.clientMissingMeshes (Worker.worker w')
  = Worker.clientMissingMeshes (Worker.worker w) ∖ dom (Worker.chunkCache w)
  ∧ ∀ chunkId chunk,
      chunkId ∈ Worker.clientMissingMeshes (Worker.worker w) →
      Worker.chunkCache w !! chunkId = Some chunk →
      meshMessage Sample.noMesh (Worker.chunkCache w) chunkId chunk
      ∈ Worker.posted w'.
Proof.
  apply (processChunks_small_backlog Sample.noMesh Sample.backlogWorld).
  vm_compute. lia.
Defined.

Lemma processChunks_progress_twelve :
  let w := Sample.twelveWorld unit in
  let w' := Worker.processChunks Sample.noMesh w in
  ∃ chunkId,
    chunkId ∈ Worker.clientMissingMeshes (Worker.worker w)
    ∧ (chunkId ∉ Worker.clientMissingMeshes (Worker.worker w'))
    ∧ chunkId ∈ Worker.sentClientMeshes (Worker.worker w')
    ∧ ∃ chunk, Worker.chunkCache w !! chunkId = Some chunk
        ∧ meshMessage Sample.noMesh (Worker.chunkCache w) chunkId chunk
          ∈ Worker.posted w'.
Proof.
  apply (processChunks_progress Sample.noMesh (Sample.twelveWorld unit)).
  exists "c00". split.
  - by_compute.
  - by_compute.
Defined.

Lemma chunkVoxelIndexValue_spec_sample :
  let s := Sample.settledSession in
  let w := Edits.world s in
  let cache := Worker.chunkCache w in
  ∃ s',
    Edits.chunkVoxelIndexValue Sample.someChanges ["D"; "F"] s = Some s'
    ∧ Edits.connection s' = Some ([] ++ [Sample.someChanges])
    ∧ Edits.relayed s' = Edits.relayed s
    ∧ Worker.posted (Edits.world s') = Worker.posted w
    ∧ Worker.fetches (Edits.world s') = Worker.fetches w
    ∧ Worker.worker (Edits.world s')
      = withMissing (Worker.worker w)
          (list_to_set (Sample.someChanges.*1 ++ ["D"; "F"]) ∩ dom cache) ∅
    ∧ dom (Worker.chunkCache (Edits.world s')) = dom cache
    ∧ (∀ chunkID,
         Worker.chunkCache (Edits.world s') !! chunkID
         = edited Sample.someChanges (λ _, true) chunkID <$> cache !! chunkID)
    ∧ ∀ chunkID chunk',
        Worker.chunkCache (Edits.world s') !! chunkID = Some chunk' →
        ∃ chunk, cache !! chunkID = Some chunk
          ∧ ChunkCache.chunkID chunk' = ChunkCache.chunkID chunk
          ∧ ChunkCache.position chunk' = ChunkCache.position chunk
          ∧ length (ChunkCache.voxels chunk') = length (ChunkCache.voxels chunk).
Proof.
  apply (chunkVoxelIndexValue_spec Sample.someChanges ["D"; "F"]
           Sample.settledSession []).
  - by_compute.
  - reflexivity.
Defined.

Lemma onChunkVoxelIndexValue_spec_sample :
  let s := Sample.settledSession in
  let s' := Edits.onChunkVoxelIndexValue Sample.someChanges s in
  let w := Edits.world s in
  let self := Worker.worker w in
  let cache := Worker.chunkCache w in
  let tracked := dom (Worker.chunkDistances self) in
  let hit := list_to_set Sample.someChanges.*1 ∩ tracked ∩ dom cache in
  Edits.relayed s' = Edits.relayed s ++ [Sample.someChanges]
  ∧ Edits.connection s' = Edits.connection s
  ∧ Worker.posted (Edits.world s') = Worker.posted w
  ∧ Worker.fetches (Edits.world s') = Worker.fetches w
  ∧ Worker.worker (Edits.world s')
    = withMissing self hit (hit ∩ Worker.nearbyChunks self)
  ∧ dom (Worker.chunkCache (Edits.world s')) = dom cache
  ∧ (∀ chunkID,
       Worker.chunkCache (Edits.world s') !! chunkID
       = edited Sample.someChanges (λ chunkID, bool_decide (chunkID ∈ tracked))
           chunkID
         <$> cache !! chunkID)
  ∧ ∀ chunkID chunk',
      Worker.chunkCache (Edits.world s') !! chunkID = Some chunk' →
      ∃ chunk, cache !! chunkID = Some chunk
        ∧ ChunkCache.chunkID chunk' = ChunkCache.chunkID chunk
        ∧ ChunkCache.position chunk' = ChunkCache.position chunk
        ∧ length (ChunkCache.voxels chunk') = length (ChunkCache.voxels chunk).
Proof.
  apply (onChunkVoxelIndexValue_spec Sample.someChanges Sample.settledSession).
  by_compute.
Defined.

Lemma fetch_then_deliver_sample :
  let w := Sample.worldAB in
  let w1 := Worker.regionChange Sample.nearbyBC w in
  let w2 := Worker.requestClosure "C" (32, 0, 0) (Some [150]) w1 in
  let w3 := Worker.processChunks Sample.noMesh w2 in
  let chunk := ChunkCache.mkChunk "C" (32, 0, 0) [150] in
  "C" ∈ Worker.requestedChunks (Worker.worker w1)
  ∧ ("C" ∉ Worker.requestedChunks (Worker.worker w2))
  ∧ Worker.chunkCache w3 !! "C" = Some chunk
  ∧ Worker.chunkVoxels chunk ∈ Worker.posted w3
  ∧ "C" ∈ Worker.sentClientChunks (Worker.worker w3)
  ∧ "C" ∉ Worker.clientMissingChunks (Worker.worker w3).
Proof.
  apply (fetch_then_deliver Sample.noMesh Sample.nearbyBC Sample.worldAB "C"
           (32, 0, 0) [150]).
  - by_compute.
  - by_compute.
  - by_compute.
Defined.

Lemma failed_fetch_is_retried_sample :
  let w := Sample.worldAB in
  let w1 := Worker.requestClosure "C" (32, 0, 0) None w in
  let w2 := Worker.regionChange Sample.nearbyBC w1 in
  Worker.chunkCache w1 = Worker.chunkCache w
  ∧ ("C" ∉ Worker.requestedChunks (Worker.worker w1))
  ∧ (∃ new, Worker.fetches w2 = Worker.fetches w ++ new ∧ "C" ∈ new.*1)
  ∧ "C" ∈ Worker.requestedChunks (Worker.worker w2).
Proof.
  apply (failed_fetch_is_retried Sample.nearbyBC Sample.worldAB "C" (32, 0, 0)).
  - by_compute.
  - by_compute.
Defined.

Lemma edit_is_remeshed_sample :
  let s := Sample.settledSession in
  ∃ s',
    Edits.chunkVoxelIndexValue Sample.someChanges ["D"; "F"] s = Some s'
    ∧ Worker.chunkCache (Edits.world s') !! "A"
      = Some (Edits.editChunk Sample.chunkA [0; 150; 7; 300])
    ∧ let w' := Worker.processChunks Sample.noMesh (Edits.world s') in
      meshMessage Sample.noMesh (Worker.chunkCache (Edits.world s')) "A"
        (Edits.editChunk Sample.chunkA [0; 150; 7; 300]) ∈ Worker.posted w'
      ∧ ("A" ∉ Worker.clientMissingMeshes (Worker.worker w'))
      ∧ Worker.chunkCache w' = Worker.chunkCache (Edits.world s').
Proof.
  apply (edit_is_remeshed Sample.noMesh Sample.someChanges ["D"; "F"]
           Sample.settledSession [] "A" [0; 150; 7; 300] Sample.chunkA).
  - by_compute.
  - reflexivity.
  - by_compute.
  - vm_compute. reflexivity.
  - vm_compute. lia.
Defined.

Lemma connection_limit_three :
  let st := Server.run (Some 1) Sample.threeClients in
  let accepted : gset nat := list_to_set (Server.connectClient st) in
  let denied : gset nat := list_to_set (Server.close st) in
  Server.connections st = Z.of_nat (size (openAfter Sample.threeClients))
  ∧ accepted ∪ denied = seenAfter Sample.threeClients
  ∧ accepted ## denied
  ∧ Z.of_nat (size (accepted ∩ openAfter Sample.threeClients)) ≤ 1.
Proof.
  apply (connection_limit 1 Sample.threeClients).
  - lia.
  - vm_compute. reflexivity.
Defined.
